(** * SecureCode: report parsing, selection state and submission history

    A shallow embedding of [app.py]: the regular expression of
    [parse_vulnerabilities], the session-state bookkeeping of [main] and
    the filtering and bucketing of [show_recent_codes_on_main]. *)

From Stdlib Require Import ZArith NArith Lia Ascii String.
From stdpp Require Import gmap strings list pretty.

Open Scope list_scope.

(** ** Python strings *)

(** A Python [str] is a sequence of Unicode code points. *)
Definition pystr : Type := list N.

(** A source literal; every literal of [app.py] used here is ASCII. *)
Definition lit (s : string) : pystr := map N_of_ascii (list_ascii_of_string s).

(** The newline character. *)
Definition nl : N := 10%N.

(** [\s] on a [str] pattern: the code points for which [str.isspace] holds. *)
Definition is_space (c : N) : bool :=
  ((9 <=? c) && (c <=? 13) || (28 <=? c) && (c <=? 32) || (c =? 133) || (c =? 160)
   || (c =? 5760) || (8192 <=? c) && (c <=? 8202) || (c =? 8232) || (c =? 8233)
   || (c =? 8239) || (c =? 8287) || (c =? 12288))%N.

(** [sep.join(parts)]. *)
Fixpoint join (sep : pystr) (parts : list pystr) : pystr :=
  match parts with
  | [] => []
  | [p] => p
  | p :: ps => p ++ sep ++ join sep ps
  end.

(** [prefix_of x y]: [y.startswith(x)]. *)
Fixpoint prefix_of (x y : pystr) : bool :=
  match x, y with
  | [], _ => true
  | _ :: _, [] => false
  | a :: x', b :: y' => (a =? b)%N && prefix_of x' y'
  end.

(** [x in y] on strings: [x] occurs as a contiguous run of [y]. *)
Fixpoint contains (y x : pystr) : bool :=
  prefix_of x y || match y with
                   | [] => false
                   | _ :: y' => contains y' x
                   end.

(** ** The regular expression engine, as far as the pattern needs it *)

Module Regex.

(** The pieces the pattern of [parse_vulnerabilities] is made of. *)
Inductive atom : Type :=
| Lit (c : N)   (* one literal character *)
| LazyGroup     (* [(.*?)] under [re.DOTALL]: any characters, fewest first *)
| Spaces1.      (* [\s+]: one or more whitespace characters, most first *)

(** The captured groups, in order, and the text after the match. *)
Definition result : Type := list pystr * pystr.

(** [(.*?)] followed by the rest of the pattern [k]: try the rest with the
    group as short as possible and lengthen it one character at a time. *)
Fixpoint lazy_group (k : pystr -> option result) (acc s : pystr) : option result :=
  match k s with
  | Some (gs, rest) => Some (rev acc :: gs, rest)
  | None =>
      match s with
      | [] => None
      | x :: s' => lazy_group k (x :: acc) s'
      end
  end.

(** The tail of [\s+] after its first character: take whitespace as long
    as there is some, and give characters back one at a time when the
    rest of the pattern [k] fails. *)
Fixpoint greedy_spaces (k : pystr -> option result) (s : pystr) : option result :=
  match s with
  | y :: s' =>
      if is_space y then
        match greedy_spaces k s' with
        | Some r => Some r
        | None => k s
        end
      else k s
  | [] => k s
  end.

(** Backtracking match of the pattern [p] at the start of the text. *)
Fixpoint re_match (p : list atom) : pystr -> option result :=
  match p with
  | [] => fun s => Some ([], s)
  | Lit c :: p' => fun s =>
      match s with
      | x :: s' => if (x =? c)%N then re_match p' s' else None
      | [] => None
      end
  | LazyGroup :: p' => lazy_group (re_match p') []
  | Spaces1 :: p' => fun s =>
      match s with
      | x :: s' => if is_space x then greedy_spaces (re_match p') s' else None
      | [] => None
      end
  end.

(** [re.findall]: scan left to right; where the pattern matches, record
    the groups and go on after the match ([skip] counts the characters
    of the match still to be passed over); elsewhere, move one character. *)
Fixpoint findall_from (p : list atom) (skip : nat) (s : pystr) : list (list pystr) :=
  match skip with
  | S k =>
      match s with
      | [] => []
      | _ :: s' => findall_from p k s'
      end
  | O =>
      match re_match p s with
      | Some (gs, rest) =>
          gs :: match s with
                | [] => []
                | _ :: s' => findall_from p (length s - length rest - 1) s'
                end
      | None =>
          match s with
          | [] => []
          | _ :: s' => findall_from p 0 s'
          end
      end
  end.

Definition findall (p : list atom) (s : pystr) : list (list pystr) :=
  findall_from p 0 s.

Definition lits (s : string) : list atom := map Lit (lit s).

End Regex.

(** ** [parse_vulnerabilities] *)

Module Parser.
Import Regex.

(** [r'>> Issue: (.*?)\n\s+Severity: (.*?)\s+Confidence: (.*?)\n\s+Location: (.*?)\n'] *)
Definition issue_pattern : list atom :=
  lits ">> Issue: " ++ [LazyGroup; Lit nl; Spaces1] ++
  lits "Severity: " ++ [LazyGroup; Spaces1] ++
  lits "Confidence: " ++ [LazyGroup; Lit nl; Spaces1] ++
  lits "Location: " ++ [LazyGroup; Lit nl].

(** The tuples [re.findall] returns for the report. *)
Definition issues (vulnerability_report : pystr) : list (list pystr) :=
  findall issue_pattern vulnerability_report.

(** [f"Issue: {desc}\nSeverity: {sev} | Confidence: {conf} | Location: {loc}"] *)
Definition format_issue (g : list pystr) : pystr :=
  let desc := nth 0 g [] in
  let sev := nth 1 g [] in
  let conf := nth 2 g [] in
  let loc := nth 3 g [] in
  lit "Issue: " ++ desc ++ [nl] ++ lit "Severity: " ++ sev ++
  lit " | Confidence: " ++ conf ++ lit " | Location: " ++ loc.

Definition parse_vulnerabilities (vulnerability_report : pystr) : list pystr :=
  map format_issue (issues vulnerability_report).

End Parser.

(** ** [str.lower] *)

Module StrLower.

(** [search_query.lower()], [title.lower()], [input_code.lower()]: the
    runtime replaces every character by its lower-case mapping in the
    tables of the Unicode character database, except the capital sigma,
    whose small form depends on where it stands in its word. *)

(** The tables the runtime is built with: the lower-case mapping of a
    character (one character or more) and the properties Cased and
    Case_Ignorable. *)
Record tables : Type := {
  to_lower_full : N -> pystr;
  is_cased : N -> bool;
  is_case_ignorable : N -> bool
}.

Definition capital_sigma : N := 931%N.        (* U+03A3 *)
Definition small_sigma : N := 963%N.          (* U+03C3 *)
Definition small_final_sigma : N := 962%N.    (* U+03C2 *)

Section Lower.

Variable u : tables.

(** The first character of [s] that is not case-ignorable. *)
Fixpoint first_counted (s : pystr) : option N :=
  match s with
  | [] => None
  | c :: rest => if is_case_ignorable u c then first_counted rest else Some c
  end.

(** The one rule that looks at the neighbours: a capital sigma ends a
    word when, case-ignorable characters aside, a cased character comes
    before it and none comes after it.  [before] is the text before the
    sigma, nearest character first; [after] the text after it. *)
Definition ends_word (before after : pystr) : bool :=
  match first_counted before with
  | None => false
  | Some c =>
      is_cased u c
      && match first_counted after with
         | None => true
         | Some c' => negb (is_cased u c')
         end
  end.

Definition lower_char (before : pystr) (c : N) (after : pystr) : pystr :=
  if (c =? capital_sigma)%N
  then [if ends_word before after then small_final_sigma else small_sigma]
  else to_lower_full u c.

Fixpoint lower_from (before s : pystr) : pystr :=
  match s with
  | [] => []
  | c :: rest => lower_char before c rest ++ lower_from (c :: before) rest
  end.

(** [s.lower()] *)
Definition lower (s : pystr) : pystr := lower_from [] s.

End Lower.

End StrLower.

(** ** [show_recent_codes_on_main]: filtering and bucketing of the history *)

Module History.

Open Scope Z_scope.

(** A [datetime.date], held as its proleptic Gregorian ordinal
    ([date.toordinal()]): comparison of dates is comparison of ordinals and
    [d - timedelta(days=n)] is subtraction.  The clock's date is far from
    [date.min], so the subtractions of the source do not overflow. *)
Definition date : Type := Z.

Definition is_leap (y : Z) : bool :=
  (y mod 4 =? 0) && (negb (y mod 100 =? 0) || (y mod 400 =? 0)).

Definition days_before_year (y : Z) : Z :=
  let y' := y - 1 in y' * 365 + y' / 4 - y' / 100 + y' / 400.

Definition days_in_month (y m : Z) : Z :=
  if m =? 2 then (if is_leap y then 29 else 28)
  else if (m =? 4) || (m =? 6) || (m =? 9) || (m =? 11) then 30 else 31.

Fixpoint days_before_month_upto (y : Z) (m : nat) : Z :=
  match m with
  | O => 0
  | S k => days_before_month_upto y k + days_in_month y (Z.of_nat (S k))
  end.

(** [date(y, m, d)] *)
Definition ymd (y m d : Z) : date :=
  days_before_year y + days_before_month_upto y (Z.to_nat (m - 1)) + d.

(** [d - timedelta(days=n)] *)
Definition minus_days (d : date) (n : Z) : date := d - n.

(** A [datetime.datetime] without time zone, as the persistence layer
    returns it for [created_at]. *)
Record datetime : Type := {
  dt_date : date;          (* [.date()] *)
  dt_second : Z;           (* seconds since midnight *)
  dt_microsecond : Z
}.

(** [datetime.combine(d, datetime.min.time())] and
    [datetime.combine(d, datetime.max.time())] *)
Definition combine_min (d : date) : datetime :=
  {| dt_date := d; dt_second := 0; dt_microsecond := 0 |}.
Definition combine_max (d : date) : datetime :=
  {| dt_date := d; dt_second := 86399; dt_microsecond := 999999 |}.

(** [datetime.strptime(str(created_at), '%Y-%m-%d %H:%M:%S.%f').date()]:
    [str] leaves the fraction out when the microseconds are zero, and
    then the format, which asks for one, does not match ([ValueError],
    here [None]). *)
Definition submission_date (created_at : datetime) : option date :=
  if dt_microsecond created_at =? 0 then None else Some (dt_date created_at).

(** A row of [get_recent_codes]. *)
Record submission : Type := {
  title : pystr;
  input_code : pystr;
  output_code : option pystr;
  created_at : datetime
}.

Inductive bucket : Type :=
| Today | Yesterday | Previous7Days | Previous30Days | Older.

#[global] Instance bucket_eq_dec : EqDecision bucket.
Proof. solve_decision. Defined.

(** The keys of [grouped_codes], in the order the dict is created with. *)
Definition bucket_order : list bucket :=
  [Today; Yesterday; Previous7Days; Previous30Days; Older].

Definition bucket_label (b : bucket) : string :=
  match b with
  | Today => "Today"
  | Yesterday => "Yesterday"
  | Previous7Days => "Previous 7 Days"
  | Previous30Days => "Previous 30 Days"
  | Older => "Older"
  end.

(** [grouped_codes]: every key is present from the start. *)
Definition grouped : Type := bucket -> list submission.

Definition empty_groups : grouped := fun _ => [].

(** [grouped_codes[b].append(s)] *)
Definition append_to (b : bucket) (s : submission) (g : grouped) : grouped :=
  fun b' => if decide (b' = b) then g b' ++ [s] else g b'.

Section Grouper.

(** [str.lower]; [StrLower.lower] with the tables of the runtime *)
Variable lower : pystr -> pystr.

Variable search_query : pystr.
(** the dates picked in the two [st.date_input] widgets, [None] when unset *)
Variables start_date end_date : option date.
(** line 93 reads the clock twice: [today] is the date of the first
    [datetime.now()], [now_again] the date of the second, from which
    [yesterday] is taken *)
Variable today : date.
Variable now_again : date.

(** lines 83-86: the picked dates become datetimes at the start and
    at the end of their day *)
Definition start_dt : option datetime := combine_min <$> start_date.
Definition end_dt : option datetime := combine_max <$> end_date.

Definition yesterday : date := minus_days now_again 1.
Definition last_7_days : date := minus_days today 7.
Definition last_30_days : date := minus_days today 30.

(** line 109: the text condition *)
Definition text_ok (s : submission) : bool :=
  match search_query with
  | [] => true
  | _ => contains (lower (title s)) (lower search_query)
         || contains (lower (input_code s)) (lower search_query)
  end.

(** line 110: the date condition, on calendar dates *)
Definition date_ok (submission_date : date) : bool :=
  match start_dt with
  | None => true
  | Some sd => dt_date sd <=? submission_date
  end
  && match end_dt with
     | None => true
     | Some ed => submission_date <=? dt_date ed
     end.

Definition keeps (s : submission) (submission_date : date) : bool :=
  text_ok s && date_ok submission_date.

(** lines 112-126: the if/elif ladder *)
Definition bucket_of (submission_date : date) : bucket :=
  if submission_date =? today then Today
  else if submission_date =? yesterday then Yesterday
  else if (last_7_days <=? submission_date) && (submission_date <? today)
  then Previous7Days
  else if (last_30_days <=? submission_date) && (submission_date <? last_7_days)
  then Previous30Days
  else Older.

(** lines 105-126: the loop over the rows; [None] when a timestamp does
    not parse *)
Fixpoint group_loop (recent_codes : list submission) (g : grouped)
  : option grouped :=
  match recent_codes with
  | [] => Some g
  | s :: rest =>
      match submission_date (created_at s) with
      | None => None
      | Some d =>
          group_loop rest
            (if keeps s d then append_to (bucket_of d) s g else g)
      end
  end.

Definition group (recent_codes : list submission) : option grouped :=
  group_loop recent_codes empty_groups.

(** What the page shows. *)
Inductive view : Type :=
| NoRecentSubmissions
| Groups (shown : list (bucket * list submission)).

(** lines 128-136: a header and its rows for every bucket that is not
    empty, in the order of the dict *)
Definition shown_groups (g : grouped) : list (bucket * list submission) :=
  List.filter (fun bl => negb (Nat.eqb (length (snd bl)) 0))
              (map (fun b => (b, g b)) bucket_order).

(** The whole function; [None] stands for the [ValueError]. *)
Definition show_recent_codes_on_main (recent_codes : list submission)
  : option view :=
  match recent_codes with
  | [] => Some NoRecentSubmissions
  | _ => Groups <$> (shown_groups <$> group recent_codes)
  end.

End Grouper.

End History.

(** ** The session state and one run of the script *)

Module Session.
Import Parser.

(** [st.session_state]: the keys of [session_vars], the keys [login] and
    [register] add, and ['user']. *)
Record session : Type := {
  logged_in : bool;
  vulnerability_report : pystr;
  last_user_code : pystr;
  fixed_code : pystr;
  issue_resolved : bool;
  user_id : option Z;
  selected_issues : gmap string bool;
  issues_selected : bool;
  show_resolve_button : bool;
  scan_complete : bool;
  user : option pystr;
  login_disabled : option bool;       (* [None]: the key is not there yet *)
  register_disabled : option bool
}.

(** lines 27-41 *)
Definition initial_session : session := {|
  logged_in := false; vulnerability_report := []; last_user_code := [];
  fixed_code := []; issue_resolved := false; user_id := None;
  selected_issues := ∅; issues_selected := false;
  show_resolve_button := false; scan_complete := false;
  user := None; login_disabled := None; register_disabled := None |}.

(** Assignments to single keys. *)
Definition set_logged_in (v : bool) (s : session) : session :=
  {| logged_in := v; vulnerability_report := vulnerability_report s;
     last_user_code := last_user_code s; fixed_code := fixed_code s;
     issue_resolved := issue_resolved s; user_id := user_id s;
     selected_issues := selected_issues s; issues_selected := issues_selected s;
     show_resolve_button := show_resolve_button s; scan_complete := scan_complete s;
     user := user s; login_disabled := login_disabled s;
     register_disabled := register_disabled s |}.
Definition set_vulnerability_report (v : pystr) (s : session) : session :=
  {| logged_in := logged_in s; vulnerability_report := v;
     last_user_code := last_user_code s; fixed_code := fixed_code s;
     issue_resolved := issue_resolved s; user_id := user_id s;
     selected_issues := selected_issues s; issues_selected := issues_selected s;
     show_resolve_button := show_resolve_button s; scan_complete := scan_complete s;
     user := user s; login_disabled := login_disabled s;
     register_disabled := register_disabled s |}.
Definition set_last_user_code (v : pystr) (s : session) : session :=
  {| logged_in := logged_in s; vulnerability_report := vulnerability_report s;
     last_user_code := v; fixed_code := fixed_code s;
     issue_resolved := issue_resolved s; user_id := user_id s;
     selected_issues := selected_issues s; issues_selected := issues_selected s;
     show_resolve_button := show_resolve_button s; scan_complete := scan_complete s;
     user := user s; login_disabled := login_disabled s;
     register_disabled := register_disabled s |}.
Definition set_fixed_code (v : pystr) (s : session) : session :=
  {| logged_in := logged_in s; vulnerability_report := vulnerability_report s;
     last_user_code := last_user_code s; fixed_code := v;
     issue_resolved := issue_resolved s; user_id := user_id s;
     selected_issues := selected_issues s; issues_selected := issues_selected s;
     show_resolve_button := show_resolve_button s; scan_complete := scan_complete s;
     user := user s; login_disabled := login_disabled s;
     register_disabled := register_disabled s |}.
Definition set_issue_resolved (v : bool) (s : session) : session :=
  {| logged_in := logged_in s; vulnerability_report := vulnerability_report s;
     last_user_code := last_user_code s; fixed_code := fixed_code s;
     issue_resolved := v; user_id := user_id s;
     selected_issues := selected_issues s; issues_selected := issues_selected s;
     show_resolve_button := show_resolve_button s; scan_complete := scan_complete s;
     user := user s; login_disabled := login_disabled s;
     register_disabled := register_disabled s |}.
Definition set_user_id (v : option Z) (s : session) : session :=
  {| logged_in := logged_in s; vulnerability_report := vulnerability_report s;
     last_user_code := last_user_code s; fixed_code := fixed_code s;
     issue_resolved := issue_resolved s; user_id := v;
     selected_issues := selected_issues s; issues_selected := issues_selected s;
     show_resolve_button := show_resolve_button s; scan_complete := scan_complete s;
     user := user s; login_disabled := login_disabled s;
     register_disabled := register_disabled s |}.
Definition set_selected_issues (v : gmap string bool) (s : session) : session :=
  {| logged_in := logged_in s; vulnerability_report := vulnerability_report s;
     last_user_code := last_user_code s; fixed_code := fixed_code s;
     issue_resolved := issue_resolved s; user_id := user_id s;
     selected_issues := v; issues_selected := issues_selected s;
     show_resolve_button := show_resolve_button s; scan_complete := scan_complete s;
     user := user s; login_disabled := login_disabled s;
     register_disabled := register_disabled s |}.
Definition set_issues_selected (v : bool) (s : session) : session :=
  {| logged_in := logged_in s; vulnerability_report := vulnerability_report s;
     last_user_code := last_user_code s; fixed_code := fixed_code s;
     issue_resolved := issue_resolved s; user_id := user_id s;
     selected_issues := selected_issues s; issues_selected := v;
     show_resolve_button := show_resolve_button s; scan_complete := scan_complete s;
     user := user s; login_disabled := login_disabled s;
     register_disabled := register_disabled s |}.
Definition set_show_resolve_button (v : bool) (s : session) : session :=
  {| logged_in := logged_in s; vulnerability_report := vulnerability_report s;
     last_user_code := last_user_code s; fixed_code := fixed_code s;
     issue_resolved := issue_resolved s; user_id := user_id s;
     selected_issues := selected_issues s; issues_selected := issues_selected s;
     show_resolve_button := v; scan_complete := scan_complete s;
     user := user s; login_disabled := login_disabled s;
     register_disabled := register_disabled s |}.
Definition set_scan_complete (v : bool) (s : session) : session :=
  {| logged_in := logged_in s; vulnerability_report := vulnerability_report s;
     last_user_code := last_user_code s; fixed_code := fixed_code s;
     issue_resolved := issue_resolved s; user_id := user_id s;
     selected_issues := selected_issues s; issues_selected := issues_selected s;
     show_resolve_button := show_resolve_button s; scan_complete := v;
     user := user s; login_disabled := login_disabled s;
     register_disabled := register_disabled s |}.
Definition set_user (v : option pystr) (s : session) : session :=
  {| logged_in := logged_in s; vulnerability_report := vulnerability_report s;
     last_user_code := last_user_code s; fixed_code := fixed_code s;
     issue_resolved := issue_resolved s; user_id := user_id s;
     selected_issues := selected_issues s; issues_selected := issues_selected s;
     show_resolve_button := show_resolve_button s; scan_complete := scan_complete s;
     user := v; login_disabled := login_disabled s;
     register_disabled := register_disabled s |}.
Definition set_login_disabled (v : option bool) (s : session) : session :=
  {| logged_in := logged_in s; vulnerability_report := vulnerability_report s;
     last_user_code := last_user_code s; fixed_code := fixed_code s;
     issue_resolved := issue_resolved s; user_id := user_id s;
     selected_issues := selected_issues s; issues_selected := issues_selected s;
     show_resolve_button := show_resolve_button s; scan_complete := scan_complete s;
     user := user s; login_disabled := v;
     register_disabled := register_disabled s |}.
Definition set_register_disabled (v : option bool) (s : session) : session :=
  {| logged_in := logged_in s; vulnerability_report := vulnerability_report s;
     last_user_code := last_user_code s; fixed_code := fixed_code s;
     issue_resolved := issue_resolved s; user_id := user_id s;
     selected_issues := selected_issues s; issues_selected := issues_selected s;
     show_resolve_button := show_resolve_button s; scan_complete := scan_complete s;
     user := user s; login_disabled := login_disabled s;
     register_disabled := v |}.

(** What a collaborator answers: a value, or an exception. *)
Inductive outcome (A : Type) : Type :=
| Returns (a : A)
| Raises.
Arguments Returns {A} a.
Arguments Raises {A}.

Inductive menu_option : Type := Home | RecentCodes | Logout.

(** Everything one run of the script reads from outside the session
    state: the widgets' values and the collaborators' answers. *)
Record inputs : Type := {
  (* the framework ran [update_issues_selected] before this run, because
     the user changed a checkbox *)
  on_change : bool;
  (* the login and register tabs *)
  in_username : pystr;
  in_password : pystr;
  login_clicked : bool;
  reg_username : pystr;
  reg_password : pystr;
  reg_confirm_password : pystr;
  register_clicked : bool;
  (* the sidebar *)
  menu : menu_option;
  (* the home page *)
  in_title : pystr;
  in_user_code : pystr;
  check_clicked : bool;
  (* [st.checkbox(issue, value=..., key=f"issue_{i}")] for the index, the
     label and the default it is called with *)
  checkbox : nat -> pystr -> bool -> bool;
  resolve_clicked : bool;
  (* the history page *)
  in_search_query : pystr;
  in_start_date : option History.date;
  in_end_date : option History.date;
  now_date : History.date;          (* the first [datetime.now().date()] *)
  now_date_again : History.date;    (* the second one, on the same line *)
  (* the collaborators *)
  get_user : pystr -> pystr -> outcome (option Z);
  add_user : pystr -> pystr -> outcome unit;
  scan_vulnerabilities : pystr -> outcome pystr;
  rewrite_code_with_openai : pystr -> pystr -> outcome pystr;
  save_code : Z -> pystr -> pystr -> option pystr -> outcome unit;
  get_recent_codes : option Z -> outcome (list History.submission)
}.

(** What a run does that is seen from outside, in the order it happens. *)
Inductive effect : Type :=
| ScanCalled (code : pystr)
| SaveCodeCalled (uid : Z) (title input : pystr) (output : option pystr)
| RewriteCalled (code instructions : pystr)
| ReportShown (report : pystr)
| CheckboxShown (i : nat) (label : pystr) (value : bool)
| ResolveButtonShown
| FixedCodeShown (fixed report : pystr)
| HistoryShown (v : History.view)
| LoginFormShown
| InvalidLogin.

(** How a run ends before its last line. *)
Inductive halt : Type :=
| Exception     (* an uncaught exception *)
| Rerun.        (* [st.rerun()] *)

Inductive step (A : Type) : Type :=
| Next (a : A)
| Halt (h : halt).
Arguments Next {A} a.
Arguments Halt {A} h.

(** A piece of the script: it reads and writes the session state, adds to
    the effects, and either goes on with a value or halts. *)
Definition script (A : Type) : Type :=
  session -> list effect -> step A * session * list effect.

Definition ret {A : Type} (a : A) : script A := fun s l => (Next a, s, l).

Definition bind {A B : Type} (m : script A) (f : A -> script B) : script B :=
  fun s l =>
    match m s l with
    | (Next a, s', l') => f a s' l'
    | (Halt h, s', l') => (Halt h, s', l')
    end.

Declare Scope script_scope.
Delimit Scope script_scope with script.
Bind Scope script_scope with script.
Notation "'let*' x ':=' m 'in' k" := (bind m (fun x => k))
  (at level 10, x name, m at level 100, k at level 200) : script_scope.
Notation "m '>>' k" := (bind m (fun _ => k))
  (at level 100, k at level 200, right associativity) : script_scope.
Open Scope script_scope.

Definition get : script session := fun s l => (Next s, s, l).
Definition modify (f : session -> session) : script unit :=
  fun s l => (Next tt, f s, l).
Definition emit (e : effect) : script unit := fun s l => (Next tt, s, l ++ [e]).
Definition stop {A : Type} (h : halt) : script A := fun s l => (Halt h, s, l).
Definition call {A : Type} (o : outcome A) : script A :=
  match o with
  | Returns a => ret a
  | Raises => stop Exception
  end.
Definition when (b : bool) (m : script unit) : script unit :=
  if b then m else ret tt.

(** Truth values of the objects the script tests. *)
Definition nonempty (x : pystr) : bool :=
  match x with [] => false | _ => true end.
Definition truthy_id (u : option Z) : option Z :=
  match u with
  | Some z => if (z =? 0)%Z then None else Some z
  | None => None
  end.

(** [f"issue_{i}"] *)
Definition checkbox_key (i : nat) : string := "issue_" +:+ pretty i.

(** [any(st.session_state['selected_issues'].values())] *)
Definition any_selected (m : gmap string bool) : bool :=
  existsb snd (map_to_list m).

(** lines 58-63 *)
Definition update_issues_selected : script unit :=
  modify (fun s => set_issues_selected (any_selected (selected_issues s)) s) >>
  modify (fun s => set_show_resolve_button (issues_selected s) s).


Section Script.

(** [str.lower], a table of the Python runtime. *)
Variable lower : pystr -> pystr.

(** what this run reads from the widgets and the collaborators *)
Variable inp : inputs.

(** [UserController.login] *)
Definition login : script unit :=
  modify (fun s => match login_disabled s with
                   | None => set_login_disabled (Some false) s
                   | Some _ => s
                   end) >>
  emit LoginFormShown >>
  let* s := get in
  (* a disabled button is never pressed *)
  when (login_clicked inp && negb (default false (login_disabled s)))
    (modify (set_login_disabled (Some true)) >>
     let* row := call (get_user inp (in_username inp) (in_password inp)) in
     match row with
     | Some id =>
         modify (set_logged_in true) >>
         modify (set_user (Some (in_username inp))) >>
         modify (set_user_id (Some id)) >>
         stop Rerun
     | None =>
         emit InvalidLogin >>
         modify (set_login_disabled (Some false))
     end).

(** [UserController.register] *)
Definition register : script unit :=
  modify (fun s => match register_disabled s with
                   | None => set_register_disabled (Some false) s
                   | Some _ => s
                   end) >>
  let* s := get in
  when (bool_decide (reg_password inp = reg_confirm_password inp)
        && register_clicked inp
        && negb (default false (register_disabled s)))
    (modify (set_register_disabled (Some true)) >>
     match add_user inp (reg_username inp) (reg_password inp) with
     | Returns _ => stop Rerun
     | Raises => modify (set_register_disabled (Some false))
     end).

(** [user_model.save_code(...)] when [user_id] is set *)
Definition save (output : option pystr) : script unit :=
  let* s := get in
  match truthy_id (user_id s) with
  | Some uid =>
      emit (SaveCodeCalled uid (in_title inp) (last_user_code s) output) >>
      call (save_code inp uid (in_title inp) (last_user_code s) output)
  | None => ret tt
  end.

(** lines 181-202: the scan *)
Definition scan_block : script unit :=
  let* s := get in
  when (check_clicked inp || negb (scan_complete s))
    (when (nonempty (in_user_code inp) && nonempty (in_title inp))
       (modify (set_vulnerability_report []) >>
        modify (set_selected_issues ∅) >>
        modify (set_scan_complete false) >>
        modify (set_last_user_code (in_user_code inp)) >>
        emit (ScanCalled (in_user_code inp)) >>
        let* result := call (scan_vulnerabilities inp (in_user_code inp)) in
        modify (set_vulnerability_report result) >>
        modify (set_scan_complete true) >>
        modify (set_issue_resolved false) >>
        save None)).

(** lines 214-215: give the key its default when it is not there *)
Definition ensure (key : string) (m : gmap string bool) : gmap string bool :=
  match m !! key with
  | Some _ => m
  | None => <[key := false]> m
  end.

(** [st.session_state['selected_issues'][key]]; [KeyError] when absent *)
Definition read_selected (key : string) : script bool :=
  let* s := get in
  match selected_issues s !! key with
  | Some b => ret b
  | None => stop Exception
  end.

(** lines 212-221: one checkbox per issue, from index [i] on *)
Fixpoint checkbox_loop (i : nat) (issues : list pystr) : script unit :=
  match issues with
  | [] => ret tt
  | issue :: rest =>
      let key := checkbox_key i in
      modify (fun s => set_selected_issues (ensure key (selected_issues s)) s) >>
      let* value := read_selected key in
      emit (CheckboxShown i issue value) >>
      modify (fun s => set_selected_issues
                         (<[key := checkbox inp i issue value]>
                            (selected_issues s)) s) >>
      checkbox_loop (S i) rest
  end.

(** lines 205-221: the report and its checkboxes *)
Definition display_block : script unit :=
  let* s := get in
  when (nonempty (vulnerability_report s))
    (emit (ReportShown (vulnerability_report s)) >>
     checkbox_loop 0 (parse_vulnerabilities (vulnerability_report s))).

(** lines 227-228: the issues whose entry is true, in the order of the
    parse; [None] for the [KeyError] of a missing entry *)
Fixpoint selected_from (m : gmap string bool) (i : nat) (issues : list pystr)
  : option (list pystr) :=
  match issues with
  | [] => Some []
  | issue :: rest =>
      match m !! checkbox_key i with
      | None => None
      | Some b =>
          match selected_from m (S i) rest with
          | None => None
          | Some chosen => Some (if b : bool then issue :: chosen else chosen)
          end
      end
  end.

(** lines 226-229 *)
Definition selected_issues_text (s : session) : option pystr :=
  join [nl] <$> selected_from (selected_issues s) 0
                  (parse_vulnerabilities (vulnerability_report s)).

(** lines 224-240: the resolve button and what a click on it does *)
Definition resolve_block : script unit :=
  let* s := get in
  when (show_resolve_button s && issues_selected s)
    (emit ResolveButtonShown >>
     when (resolve_clicked inp)
       (match selected_issues_text s with
        | None => stop Exception
        | Some text =>
            emit (RewriteCalled (last_user_code s) text) >>
            let* fixed :=
              call (rewrite_code_with_openai inp (last_user_code s) text) in
            modify (set_fixed_code fixed) >>
            modify (set_issue_resolved true) >>
            save (Some fixed)
        end)).

(** lines 242-248 *)
Definition fixed_block : script unit :=
  let* s := get in
  when (issue_resolved s)
    (emit (FixedCodeShown (fixed_code s) (vulnerability_report s))).

(** lines 171-248: the home page ([load_css] only adds a style sheet to
    the page) *)
Definition home_page : script unit :=
  scan_block >> display_block >> resolve_block >> fixed_block.

(** lines 166-169: the history page *)
Definition history_page : script unit :=
  let* s := get in
  let* recent_codes := call (get_recent_codes inp (user_id s)) in
  match History.show_recent_codes_on_main lower (in_search_query inp)
          (in_start_date inp) (in_end_date inp) (now_date inp)
          (now_date_again inp) recent_codes with
  | Some v => emit (HistoryShown v)
  | None => stop Exception
  end.

(** lines 139-248 *)
Definition main : script unit :=
  let* s := get in
  if negb (logged_in s) then login >> register
  else
    match menu inp with
    | Logout =>
        modify (set_logged_in false) >>
        modify (set_user None) >>
        modify (set_user_id None) >>
        stop Rerun
    | RecentCodes => history_page
    | Home => home_page
    end.

(** One run of the script: the checkbox callback first, when the
    framework has one to run, then [main] from the top. *)
Definition run (s : session) : step unit * session * list effect :=
  (when (on_change inp) update_issues_selected >> main) s [].

Definition state_after (s : session) : session := (run s).1.2.
Definition effects_of (s : session) : list effect := (run s).2.

End Script.

(** The session after a sequence of runs, the first one first. *)
Fixpoint run_all (lower : pystr -> pystr) (runs : list inputs) (s : session)
  : session :=
  match runs with
  | [] => s
  | inp :: rest => run_all lower rest (state_after lower inp s)
  end.

(** The states a session can be in. *)
Inductive reachable (lower : pystr -> pystr) : session -> Prop :=
| reachable_initial : reachable lower initial_session
| reachable_run (inp : inputs) (s : session) :
    reachable lower s -> reachable lower (state_after lower inp s).

(** The resolve button is on the page of this run. *)
Definition resolve_shown (lower : pystr -> pystr) (inp : inputs) (s : session)
  : bool :=
  existsb (fun e => match e with ResolveButtonShown => true | _ => false end)
          (effects_of lower inp s).

End Session.

(** ** The keys the script gives the session state at its start *)

Module SessionVars.

(** The values the script keeps in [st.session_state]. *)
Inductive value : Type :=
| VBool (b : bool)
| VStr (s : pystr)
| VInt (z : Z)
| VNone
| VDict (d : gmap string bool).

(** lines 27-38 *)
Definition session_vars : list (string * value) :=
  [("logged_in", VBool false);
   ("vulnerability_report", VStr []);
   ("last_user_code", VStr []);
   ("fixed_code", VStr []);
   ("issue_resolved", VBool false);
   ("user_id", VNone);
   ("selected_issues", VDict ∅);
   ("issues_selected", VBool false);
   ("show_resolve_button", VBool false);
   ("scan_complete", VBool false)]%string.

(** lines 39-41: every key that is not in the session state yet gets
    its value. *)
Definition set_missing (vars : list (string * value))
    (session_state : gmap string value) : gmap string value :=
  foldl (fun st kv => match st !! kv.1 with
                      | Some _ => st
                      | None => <[kv.1 := kv.2]> st
                      end)
        session_state vars.

Definition initialise (session_state : gmap string value) : gmap string value :=
  set_missing session_vars session_state.

(** The keys of [session_vars] as the record [session] holds them. *)
Definition as_session_state (s : Session.session) : gmap string value :=
  list_to_map
    [("logged_in", VBool (Session.logged_in s));
     ("vulnerability_report", VStr (Session.vulnerability_report s));
     ("last_user_code", VStr (Session.last_user_code s));
     ("fixed_code", VStr (Session.fixed_code s));
     ("issue_resolved", VBool (Session.issue_resolved s));
     ("user_id", from_option VInt VNone (Session.user_id s));
     ("selected_issues", VDict (Session.selected_issues s));
     ("issues_selected", VBool (Session.issues_selected s));
     ("show_resolve_button", VBool (Session.show_resolve_button s));
     ("scan_complete", VBool (Session.scan_complete s))]%string.

End SessionVars.

(** * Vocabulary of the statements *)

Module ReportShape.
Import Regex Parser.

(** What the pattern means, read as a description of texts:
    [matches p s rest] when [s] is a text of [p] followed by [rest]. *)
Inductive matches : list atom -> pystr -> pystr -> Prop :=
| matches_end (s : pystr) : matches [] s s
| matches_lit (c : N) (p : list atom) (s rest : pystr) :
    matches p s rest -> matches (Lit c :: p) (c :: s) rest
| matches_group (g : pystr) (p : list atom) (s rest : pystr) :
    matches p s rest -> matches (LazyGroup :: p) (g ++ s) rest
| matches_spaces (w : pystr) (p : list atom) (s rest : pystr) :
    w <> [] -> forallb is_space w = true ->
    matches p s rest -> matches (Spaces1 :: p) (w ++ s) rest.

(** The pattern occurs in the text: some tail of it starts with a match. *)
Definition occurs (p : list atom) (s : pystr) : Prop :=
  exists before tail rest, s = before ++ tail /\ matches p tail rest.

(** The labels of an issue block. *)
Definition marker : pystr := lit ">> Issue: ".
Definition severity_label : pystr := lit "Severity: ".
Definition confidence_label : pystr := lit "Confidence: ".
Definition location_label : pystr := lit "Location: ".

(** An issue block as the scanner prints it: the four fields and the
    white space between the lines and before [Confidence]. *)
Record block : Type := {
  desc : pystr;
  ws1 : pystr;     (* the indentation of the severity line *)
  sev : pystr;
  ws2 : pystr;     (* between the severity and [Confidence: ] *)
  conf : pystr;
  ws3 : pystr;     (* the indentation of the location line *)
  loc : pystr
}.

(** The block up to the end of its location, without the line end. *)
Definition render_unterminated (b : block) : pystr :=
  marker ++ desc b ++ [nl] ++ ws1 b ++
  severity_label ++ sev b ++ ws2 b ++
  confidence_label ++ conf b ++ [nl] ++ ws3 b ++
  location_label ++ loc b.

Definition render_block (b : block) : pystr := render_unterminated b ++ [nl].

Definition fields (b : block) : list pystr := [desc b; sev b; conf b; loc b].

(** A run of one or more whitespace characters. *)
Definition blank (w : pystr) : bool :=
  match w with
  | [] => false
  | _ => forallb is_space w
  end.

(** The last character is whitespace. *)
Definition ends_with_space (f : pystr) : bool :=
  match last f with
  | Some c => is_space c
  | None => false
  end.

(** The first character is whitespace. *)
Definition starts_with_space (f : pystr) : bool :=
  match f with
  | c :: _ => is_space c
  | [] => false
  end.

(** Some tail of the text is white space only and, with [from_newline],
    starts at a line end: a tail that the delimiter after the field would
    take for itself. *)
Fixpoint blank_tail (from_newline : bool) (f : pystr) : bool :=
  match f with
  | [] => false
  | c :: f' =>
      (forallb is_space f && (negb from_newline || (c =? nl)%N))
      || blank_tail from_newline f'
  end.

(** A field that its closing label delimits: it does not hold the label's
    word and has no tail the delimiter would take ([from_newline] when the
    delimiter starts with a line end). *)
Definition closed_by (from_newline : bool) (word : string) (f : pystr) : bool :=
  negb (contains f (lit word)) && negb (blank_tail from_newline f).

(** A well-formed block: blank separators, each of the first three fields
    closed by the label after it, and a location of one line. *)
Definition well_formed (b : block) : bool :=
  blank (ws1 b) && blank (ws2 b) && blank (ws3 b)
  && closed_by true "Severity:" (desc b)
  && closed_by false "Confidence:" (sev b)
  && closed_by true "Location:" (conf b)
  && negb (contains (loc b) [nl]).

(** Text between the blocks: anything without the marker. *)
Definition gap_ok (gap : pystr) : bool := negb (contains gap marker).

(** A report: blocks, each after a gap, and a last gap. *)
Fixpoint render_report (blocks : list (pystr * block)) (last_gap : pystr) : pystr :=
  match blocks with
  | [] => last_gap
  | (gap, b) :: rest => gap ++ render_block b ++ render_report rest last_gap
  end.

Definition well_formed_report (blocks : list (pystr * block)) (last_gap : pystr)
  : bool :=
  forallb (fun gb => gap_ok (fst gb) && well_formed (snd gb)) blocks
  && gap_ok last_gap.

(** Trimmed: no whitespace character at either end. *)
Definition trimmed (f : pystr) : bool :=
  negb (starts_with_space f) && negb (ends_with_space f).

(** No whitespace character in the word. *)
Definition solid (w : pystr) : bool := forallb (fun c => negb (is_space c)) w.

(** The words of the labels, without the space that ends a label. *)
Definition severity_word : pystr := lit "Severity:".
Definition confidence_word : pystr := lit "Confidence:".
Definition location_word : pystr := lit "Location:".

(** The pattern, stage by stage. *)
Definition after_location : list atom := [LazyGroup; Lit nl].
Definition after_confidence : list atom :=
  LazyGroup :: Lit nl :: Spaces1 :: map Lit (location_word ++ [32%N]) ++ after_location.
Definition after_severity : list atom :=
  LazyGroup :: Spaces1 :: map Lit (confidence_word ++ [32%N]) ++ after_confidence.
Definition after_marker : list atom :=
  LazyGroup :: Lit nl :: Spaces1 :: map Lit (severity_word ++ [32%N]) ++ after_severity.

(** A continuation that wants blank text (from a line end on, with
    [from_newline]) and then the label. *)
Definition blank_then (from_newline : bool) (label : pystr)
    (k : pystr -> option result) : Prop :=
  forall t r, k t = Some r ->
    exists D' T', D' <> [] /\ forallb is_space D' = true
      /\ (from_newline = true -> exists w, D' = nl :: w)
      /\ t = D' ++ label ++ T'.

(** The reading of the parser's contract under which every captured
    field comes out trimmed. *)
Definition fields_come_out_trimmed : Prop :=
  forall blocks last_gap,
    well_formed_report blocks last_gap = true ->
    length (parse_vulnerabilities (render_report blocks last_gap)) = length blocks
    /\ Forall (fun g => forallb trimmed g = true)
         (issues (render_report blocks last_gap)).

(** Two findings as the scanner prints them, and the same first finding
    with blanks after the labels and before the end of the location line. *)
Definition assert_block : block :=
  {| desc := lit "[B101:assert_used] Use of assert detected.";
     ws1 := lit "   "; sev := lit "Low"; ws2 := lit "   "; conf := lit "High";
     ws3 := lit "   "; loc := lit "./app.py:3:4" |}.
Definition eval_block : block :=
  {| desc := lit "[B307:blacklist] Use of possibly insecure function.";
     ws1 := lit "   "; sev := lit "Medium"; ws2 := lit "   "; conf := lit "High";
     ws3 := lit "   "; loc := lit "./app.py:5:0" |}.
Definition padded_block : block :=
  {| desc := lit " [B101:assert_used] Use of assert detected.";
     ws1 := lit "   "; sev := lit " Low"; ws2 := lit "   "; conf := lit " High";
     ws3 := lit "   "; loc := lit " ./app.py:3:4 " |}.

(** The first finding in a report whose lines end in carriage return and
    line feed: the carriage returns come before the line ends. *)
Definition cr : N := 13%N.
Definition crlf_block : block :=
  {| desc := lit "[B101:assert_used] Use of assert detected." ++ [cr];
     ws1 := lit "   "; sev := lit "Low"; ws2 := lit "   ";
     conf := lit "High" ++ [cr];
     ws3 := lit "   "; loc := lit "./app.py:3:4" ++ [cr] |}.

Definition report_header : pystr := lit "Test results:" ++ [nl].
Definition code_lines : pystr := lit "3       assert x" ++ [nl] ++ [nl].
Definition report_footer : pystr := lit "Code scanned: 5 lines" ++ [nl].

(** A report with the two findings, and the report of a clean scan. *)
Definition two_issue_report : pystr :=
  render_report [(report_header, assert_block); (code_lines, eval_block)]
    report_footer.
Definition clean_report : pystr :=
  lit "Test results:" ++ [nl] ++ lit "        No issues identified." ++ [nl].

End ReportShape.

Module HistorySpec.
Import History.
Open Scope Z_scope.

(** The windows of the buckets, each on its own. *)
Definition in_window (today : date) (b : bucket) (d : date) : bool :=
  match b with
  | Today => d =? today
  | Yesterday => d =? today - 1
  | Previous7Days => (today - 7 <=? d) && (d <? today)
  | Previous30Days => (today - 30 <=? d) && (d <? today - 7)
  | Older => true
  end.

(** The first bucket, in the fixed order, whose window holds the date. *)
Definition first_matching (today d : date) : bucket :=
  default Older (List.find (fun b => in_window today b d) bucket_order).

(** The calendar date of a row. *)
Definition date_of (s : submission) : date := dt_date (created_at s).

(** The timestamp of the row can be read back from its text. *)
Definition parseable (s : submission) : Prop :=
  dt_microsecond (created_at s) <> 0.

(** [x] occurs in [y] as a contiguous run. *)
Definition substring (x y : pystr) : Prop := exists a b, y = a ++ x ++ b.

(** The text condition and the date condition, as the history view
    describes them. *)
Definition text_matches (lower : pystr -> pystr) (q : pystr) (s : submission)
  : Prop :=
  q = [] \/ substring (lower q) (lower (title s))
  \/ substring (lower q) (lower (input_code s)).

Definition date_in_range (start_date end_date : option date) (d : date) : Prop :=
  (forall sd, start_date = Some sd -> sd <= d)
  /\ (forall ed, end_date = Some ed -> d <= ed).

(** The rows of bucket [b]: those that pass the filters and whose date
    the ladder sends to [b], in the order of the input. *)
Definition rows_of (lower : pystr -> pystr) (q : pystr)
    (start_date end_date : option date) (today now_again : date) (b : bucket)
    (recent_codes : list submission) : list submission :=
  List.filter
    (fun s => keeps lower q start_date end_date s (date_of s)
              && bool_decide (bucket_of today now_again (date_of s) = b))
    recent_codes.

(** Lower case on the ASCII letters, for the examples. *)
Definition ascii_lower (x : pystr) : pystr :=
  map (fun c => if ((65 <=? c) && (c <=? 90))%N then (c + 32)%N else c) x.

(** A capital letter of the ASCII alphabet. *)
Definition is_upper (c : N) : bool := ((65 <=? c) && (c <=? 90))%N.

(** Two characters are the same letter, the case aside: the same
    character, or a capital of the ASCII alphabet and its small letter. *)
Definition same_letter (a b : N) : Prop :=
  a = b \/ (is_upper a = true /\ b = (a + 32)%N)
  \/ (is_upper b = true /\ a = (b + 32)%N).

(** [q] occurs in [t] as a contiguous run, the case of letters aside. *)
Definition occurs_ignoring_case (q t : pystr) : Prop :=
  exists a x b, t = a ++ x ++ b /\ Forall2 same_letter q x.

(** The text condition as the history view words it. *)
Definition text_occurs (q : pystr) (s : submission) : Prop :=
  q = [] \/ occurs_ignoring_case q (title s)
  \/ occurs_ignoring_case q (input_code s).

(** The reading of the filter under which the case of letters plays no
    part, whatever the texts. *)
Definition filter_ignores_case (lower : pystr -> pystr) : Prop :=
  forall q start_date end_date s d,
    keeps lower q start_date end_date s d = true
    <-> text_occurs q s /\ date_in_range start_date end_date d.

(** A text of ASCII characters, and tables whose rows for the ASCII
    characters are those of the Unicode database. *)
Definition ascii_text (x : pystr) : Prop := Forall (fun c => (c < 128)%N) x.
Definition ascii_rows (u : StrLower.tables) : Prop :=
  forall c, (c < 128)%N ->
    StrLower.to_lower_full u c = [if is_upper c then (c + 32)%N else c].

(** The rows of the tables for the ASCII characters and for the Greek
    letters from capital alpha (U+0391) to small omega (U+03C9); the
    examples use no other character. *)
Definition greek_capital (c : N) : bool :=
  ((913 <=? c) && (c <=? 939) && negb (c =? 930))%N.
Definition greek_small (c : N) : bool := ((940 <=? c) && (c <=? 969))%N.
Definition ascii_letter (c : N) : bool :=
  (is_upper c || ((97 <=? c) && (c <=? 122)))%N.
Definition greek_rows : StrLower.tables :=
  {| StrLower.to_lower_full := fun c =>
       if is_upper c || greek_capital c then [(c + 32)%N] else [c];
     StrLower.is_cased := fun c =>
       ascii_letter c || greek_capital c || greek_small c;
     StrLower.is_case_ignorable := fun c =>
       ((c =? 39) || (c =? 46) || (c =? 58) || (c =? 94) || (c =? 96))%N |}.

(** A title in Greek capitals, omicron sigma omicron, and the search
    text omicron sigma, which is its start. *)
Definition greek_title : pystr := [927; 931; 927]%N.
Definition greek_query : pystr := [927; 931]%N.

(** A row of the history, saved at one o'clock and a bit on date [d]. *)
Definition sample_row (name : string) (d : date) : submission :=
  {| title := lit name; input_code := lit "assert X";
     output_code := None;
     created_at := {| dt_date := d; dt_second := 3600; dt_microsecond := 250000 |} |}.

Definition sample_rows : list submission :=
  [sample_row "Demo" (ymd 2024 6 15); sample_row "demo two" (ymd 2024 6 14);
   sample_row "other" (ymd 2024 6 10); sample_row "old demo" (ymd 2024 1 1)].

End HistorySpec.

Module SessionSpec.
Import Parser Session.

(** Every effect a script adds satisfies [P]. *)
Definition adds {A : Type} (P : effect -> Prop) (m : script A) : Prop :=
  forall s l, exists new, (m s l).2 = l ++ new /\ Forall P new.

(** A script leaves [f] of the session as it is. *)
Definition preserves {A X : Type} (f : session -> X) (m : script A) : Prop :=
  forall s l, f (m s l).1.2 = f s.


(** The mapping after the checkboxes of [issues], from index [i] on. *)
Fixpoint loop_map (inp : inputs) (i : nat) (issues : list pystr)
    (m : gmap string bool) : gmap string bool :=
  match issues with
  | [] => m
  | issue :: rest =>
      loop_map inp (S i) rest
        (<[checkbox_key i :=
             checkbox inp i issue (default false (m !! checkbox_key i))]> m)
  end.

(** The checkboxes shown for [issues], from index [i] on. *)
Fixpoint loop_effects (inp : inputs) (i : nat) (issues : list pystr)
    (m : gmap string bool) : list effect :=
  match issues with
  | [] => []
  | issue :: rest =>
      CheckboxShown i issue (default false (m !! checkbox_key i))
      :: loop_effects inp (S i) rest
           (<[checkbox_key i := checkbox inp i issue (default false (m !! checkbox_key i))]> m)
  end.

(** The issues whose entry reads true, in ascending index order. *)
Fixpoint chosen_from (m : gmap string bool) (i : nat) (issues : list pystr)
  : list pystr :=
  match issues with
  | [] => []
  | issue :: rest =>
      if decide (m !! checkbox_key i = Some true)
      then issue :: chosen_from m (S i) rest
      else chosen_from m (S i) rest
  end.

(** The same run without the click on the resolve button. *)
Definition without_resolve_click (inp : inputs) : inputs :=
  {| on_change := on_change inp; in_username := in_username inp;
     in_password := in_password inp; login_clicked := login_clicked inp;
     reg_username := reg_username inp; reg_password := reg_password inp;
     reg_confirm_password := reg_confirm_password inp;
     register_clicked := register_clicked inp; menu := menu inp;
     in_title := in_title inp; in_user_code := in_user_code inp;
     check_clicked := check_clicked inp; checkbox := checkbox inp;
     resolve_clicked := false;
     in_search_query := in_search_query inp;
     in_start_date := in_start_date inp; in_end_date := in_end_date inp;
     now_date := now_date inp; now_date_again := now_date_again inp;
     get_user := get_user inp;
     add_user := add_user inp;
     scan_vulnerabilities := scan_vulnerabilities inp;
     rewrite_code_with_openai := rewrite_code_with_openai inp;
     save_code := save_code inp; get_recent_codes := get_recent_codes inp |}.

(** Effects that are not a call of the scanner, and so on. *)
Definition no_scan_call (e : effect) : Prop :=
  match e with ScanCalled _ => False | _ => True end.
Definition no_populated_save (e : effect) : Prop :=
  match e with SaveCodeCalled _ _ _ (Some _) => False | _ => True end.

(** Effects that are not the resolve button nor its rewrite call. *)
Definition outside_resolve (e : effect) : Prop :=
  match e with
  | ResolveButtonShown | RewriteCalled _ _ => False
  | _ => True
  end.

(** Every entry of the mapping belongs to an issue of the report now in
    the session and holds what its checkbox returned in this run, called
    with the default [false]. *)
Definition only_new_entries (inp : inputs) (s : session) : Prop :=
  forall k b, selected_issues s !! k = Some b ->
    exists i issue,
      parse_vulnerabilities (vulnerability_report s) !! i = Some issue
      /\ k = checkbox_key i /\ b = checkbox inp i issue false.

(** The session when the scanner is called (lines 185-192). *)
Definition scan_started (inp : inputs) (s : session) : session :=
  set_last_user_code (in_user_code inp)
    (set_scan_complete false
       (set_selected_issues ∅ (set_vulnerability_report [] s))).

(** The session when the scanner has answered (lines 195-197). *)
Definition scan_done (inp : inputs) (result : pystr) (s : session) : session :=
  set_issue_resolved false
    (set_scan_complete true
       (set_vulnerability_report result (scan_started inp s))).

(** The guard of the scan (lines 181 and 183). *)
Definition scan_requested (inp : inputs) (s : session) : bool :=
  (check_clicked inp || negb (scan_complete s))
  && (nonempty (in_user_code inp) && nonempty (in_title inp)).

(** The end of the home page, and the home page after the scan. *)
Definition tail_of_home (inp : inputs) : script unit :=
  resolve_block inp >> fixed_block.
Definition after_scan (inp : inputs) : script unit :=
  bind (display_block inp) (fun _ => tail_of_home inp).

(** The callback changes the two flags and nothing else. *)
Definition after_callback (inp : inputs) (s : session) : session :=
  if on_change inp
  then set_show_resolve_button (any_selected (selected_issues s))
         (set_issues_selected (any_selected (selected_issues s)) s)
  else s.

(** The text for the rewrite: the chosen issues, one per line. *)
Definition instructions_of (s : session) : pystr :=
  join [nl] (chosen_from (selected_issues s) 0
               (parse_vulnerabilities (vulnerability_report s))).

(** A run of a user with a title and some code in the editor: whether
    the login button, a checkbox (so that the callback ran), the check
    button or the resolve button was used, what the checkboxes hold, and
    what the scanner and the rewrite answer. *)
Definition a_run (login_click changed check resolve : bool)
    (boxes : nat -> bool) (scanner : outcome pystr) (rewriter : outcome pystr)
  : inputs :=
  {| on_change := changed; in_username := lit "ada"; in_password := lit "pw";
     login_clicked := login_click; reg_username := []; reg_password := [];
     reg_confirm_password := []; register_clicked := false; menu := Home;
     in_title := lit "demo"; in_user_code := lit "assert x";
     check_clicked := check; checkbox := fun i _ _ => boxes i;
     resolve_clicked := resolve; in_search_query := [];
     in_start_date := None; in_end_date := None; now_date := 0%Z; now_date_again := 0%Z;
     get_user := fun _ _ => Returns (Some 7%Z);
     add_user := fun _ _ => Returns tt;
     scan_vulnerabilities := fun _ => scanner;
     rewrite_code_with_openai := fun _ _ => rewriter;
     save_code := fun _ _ _ _ => Returns tt;
     get_recent_codes := fun _ => Returns [] |}.

Definition finds_two : outcome pystr := Returns ReportShape.two_issue_report.
Definition finds_none : outcome pystr := Returns ReportShape.clean_report.
Definition rewrites : outcome pystr := Returns (lit "x = 1").

(** The user signs in; the first run of the home page scans the code;
    the user ticks the first issue, then the second; then scans again,
    and this time the scanner finds nothing; or, instead, clicks on the
    resolve button, and the rewrite answers or fails. *)
Definition sign_in : inputs :=
  a_run true false false false (fun _ => false) finds_two rewrites.
Definition first_scan : inputs :=
  a_run false false false false (fun _ => false) finds_two rewrites.
Definition tick_first : inputs :=
  a_run false true false false (fun i => Nat.eqb i 0) finds_two rewrites.
Definition tick_second : inputs :=
  a_run false true false false (fun _ => true) finds_two rewrites.
Definition scan_again : inputs :=
  a_run false false true false (fun _ => false) finds_none rewrites.
Definition click_resolve : inputs :=
  a_run false false false true (fun _ => true) finds_two rewrites.
Definition click_resolve_failing : inputs :=
  a_run false false false true (fun _ => true) finds_two Raises.

Definition both_ticked : session :=
  run_all id [sign_in; first_scan; tick_first; tick_second] initial_session.

End SessionSpec.

Module LoopSpec.
Import Parser Session SessionSpec.

(** The session in which the loop of a render, run from [s], comes to
    the issue of index [i]: the issues before it have had their turn. *)
Definition reaches (inp : inputs) (s : session) (i : nat) : session :=
  (checkbox_loop inp 0
     (take i (parse_vulnerabilities (vulnerability_report s))) s []).1.2.

(** The mapping when lines 214-215 have then run for that issue. *)
Definition ensured (inp : inputs) (s : session) (i : nat) : gmap string bool :=
  ensure (checkbox_key i) (selected_issues (reaches inp s i)).

(** A session with the report of the two findings in which the first
    issue has the entry true and the second has no entry. *)
Definition first_entry_only : session :=
  set_selected_issues {[checkbox_key 0 := true]} both_ticked.

End LoopSpec.

Module Occurrence.
Import Regex Parser ReportShape.

(** The separators of a block are blank: one or more whitespace
    characters each. *)
Definition separated (b : block) : bool :=
  blank (ws1 b) && blank (ws2 b) && blank (ws3 b).

End Occurrence.

Module PageSpec.
Import History HistorySpec.
Open Scope Z_scope.

(** The timestamp falls on a whole second: its text has no fraction. *)
Definition whole_second (s : submission) : Prop :=
  dt_microsecond (created_at s) = 0.

(** The row passes both filters. *)
Definition kept (lower : pystr -> pystr) (q : pystr)
    (start_date end_date : option date) (s : submission) : bool :=
  keeps lower q start_date end_date s (date_of s).

(** The rows on the page, group after group, and the headers. *)
Definition shown_rows (v : view) : list submission :=
  match v with
  | NoRecentSubmissions => []
  | Groups shown => concat (map snd shown)
  end.
Definition shown_headers (v : view) : list bucket :=
  match v with
  | NoRecentSubmissions => []
  | Groups shown => map fst shown
  end.

End PageSpec.

Module RunSpec.
Import Parser Session SessionSpec.

(** How a run ends. *)
Definition ending (lower : pystr -> pystr) (inp : inputs) (s : session)
  : step unit := (run lower inp s).1.1.

(** The part of the session the home page works on. *)
Definition analysis (s : session)
  : pystr * gmap string bool * pystr * pystr * bool * bool :=
  (vulnerability_report s, selected_issues s, last_user_code s, fixed_code s,
   issue_resolved s, scan_complete s).

(** The part of the session the login form, the register form and the
    logout work on, and the two flags of the callback. *)
Definition account (s : session)
  : bool * option pystr * option Z * option bool * option bool :=
  (logged_in s, user s, user_id s, login_disabled s, register_disabled s).
Definition flags (s : session) : bool * bool :=
  (issues_selected s, show_resolve_button s).

(** A signed-in session names its user, a signed-out one does not. *)
Definition account_consistent (s : session) : Prop :=
  if logged_in s then is_Some (user s) /\ is_Some (user_id s)
  else user s = None /\ user_id s = None.

(** Signed in means: signed in through the form, which is disabled since. *)
Definition signed_in_through_form (s : session) : Prop :=
  account_consistent s /\ (logged_in s = true -> login_disabled s = Some true).

(** What the login and register forms show. *)
Definition login_form_only (e : effect) : Prop :=
  match e with
  | LoginFormShown | InvalidLogin => True
  | _ => False
  end.

(** The session once both forms have made sure of their keys (lines 16-17
    and 36-37 of the controller). *)
Definition with_form_keys (s : session) : session :=
  set_register_disabled (Some (default false (register_disabled s)))
    (set_login_disabled (Some (default false (login_disabled s))) s).

(** [f] reads nothing of what the home page writes. *)
Definition ignores_analysis {X : Type} (f : session -> X) : Prop :=
  (forall v s, f (set_vulnerability_report v s) = f s)
  /\ (forall v s, f (set_selected_issues v s) = f s)
  /\ (forall v s, f (set_scan_complete v s) = f s)
  /\ (forall v s, f (set_last_user_code v s) = f s)
  /\ (forall v s, f (set_issue_resolved v s) = f s)
  /\ (forall v s, f (set_fixed_code v s) = f s).

(** The index and the label of a checkbox on the page. *)
Definition checkbox_of (e : effect) : option (nat * pystr) :=
  match e with
  | CheckboxShown i label _ => Some (i, label)
  | _ => None
  end.

(** A run of a visitor on the forms: whether the login and the register
    button were used, the two passwords of the register form, and what
    the persistence layer answers. *)
Definition a_form_run (login_click register_click : bool)
    (password confirm : pystr) (lookup : outcome (option Z))
    (signup : outcome unit) : inputs :=
  {| on_change := false; in_username := lit "ada"; in_password := lit "pw";
     login_clicked := login_click; reg_username := lit "bob";
     reg_password := password; reg_confirm_password := confirm;
     register_clicked := register_click; menu := Home;
     in_title := lit "demo"; in_user_code := lit "assert x";
     check_clicked := false; checkbox := fun _ _ _ => false;
     resolve_clicked := false; in_search_query := [];
     in_start_date := None; in_end_date := None; now_date := 0%Z; now_date_again := 0%Z;
     get_user := fun _ _ => lookup;
     add_user := fun _ _ => signup;
     scan_vulnerabilities := fun _ => finds_two;
     rewrite_code_with_openai := fun _ _ => rewrites;
     save_code := fun _ _ _ _ => Returns tt;
     get_recent_codes := fun _ => Returns [] |}.

(** The same run with another choice in the sidebar. *)
Definition with_menu (m : menu_option) (inp : inputs) : inputs :=
  {| on_change := on_change inp; in_username := in_username inp;
     in_password := in_password inp; login_clicked := login_clicked inp;
     reg_username := reg_username inp; reg_password := reg_password inp;
     reg_confirm_password := reg_confirm_password inp;
     register_clicked := register_clicked inp; menu := m;
     in_title := in_title inp; in_user_code := in_user_code inp;
     check_clicked := check_clicked inp; checkbox := checkbox inp;
     resolve_clicked := resolve_clicked inp;
     in_search_query := in_search_query inp;
     in_start_date := in_start_date inp; in_end_date := in_end_date inp;
     now_date := now_date inp; now_date_again := now_date_again inp;
     get_user := get_user inp;
     add_user := add_user inp;
     scan_vulnerabilities := scan_vulnerabilities inp;
     rewrite_code_with_openai := rewrite_code_with_openai inp;
     save_code := save_code inp; get_recent_codes := get_recent_codes inp |}.

(** The user signs out; a visitor signs up, with the password typed
    twice or mistyped; the session of a user who has signed in. *)
Definition sign_out : inputs := with_menu Logout first_scan.
Definition sign_up : inputs :=
  a_form_run false true (lit "pw") (lit "pw") (Returns None) (Returns tt).
Definition sign_up_mistyped : inputs :=
  a_form_run false true (lit "pw") (lit "pv") (Returns None) (Returns tt).
Definition signed_in : session := run_all id [sign_in] initial_session.

(** The user opens the history; scans again while the scanner is down;
    the session after the resolve button has been used. *)
Definition browse_history : inputs := with_menu RecentCodes first_scan.
Definition scan_failing : inputs :=
  a_run false false true false (fun _ => true) Raises rewrites.
Definition resolved : session := state_after id click_resolve both_ticked.

End RunSpec.

Module HomeSpec.
Import Parser Session SessionSpec RunSpec.

(** What the home page does before it comes to the resolve button: the
    scan and the save that follows it, the report and the checkboxes. *)
Definition before_resolve (inp : inputs) (s : session) (e : effect) : Prop :=
  match e with
  | ScanCalled code => code = in_user_code inp /\ scan_requested inp s = true
  | SaveCodeCalled uid t code None =>
      truthy_id (user_id s) = Some uid /\ t = in_title inp
      /\ code = in_user_code inp /\ scan_requested inp s = true
  | ReportShown _ | CheckboxShown _ _ _ => True
  | _ => False
  end.

(** What the pages other than the home page show. *)
Definition form_or_history (e : effect) : Prop :=
  match e with
  | LoginFormShown | InvalidLogin | HistoryShown _ => True
  | _ => False
  end.

(** The session at the resolve button: [s1] comes from [s] by the scan,
    when there was one, and the checkboxes. *)
Definition at_resolve (inp : inputs) (s s1 : session) : Prop :=
  account s1 = account s /\ fixed_code s1 = fixed_code s
  /\ if scan_requested inp s
     then last_user_code s1 = in_user_code inp /\ issue_resolved s1 = false
     else last_user_code s1 = last_user_code s
          /\ issue_resolved s1 = issue_resolved s
          /\ vulnerability_report s1 = vulnerability_report s.

(** The session of a run the scan has ended: the scanner raised, or the
    save after the scan did. *)
Definition scan_halted (inp : inputs) (s r : session) : Prop :=
  scan_requested inp s = true /\ account r = account s
  /\ fixed_code r = fixed_code s /\ last_user_code r = in_user_code inp
  /\ (scan_vulnerabilities inp (in_user_code inp) = Raises
      \/ issue_resolved r = false).

(** What the end of the home page shows when nothing is resolved: the
    button, and the fixed code the session holds. *)
Definition quiet_tail (s : session) (e : effect) : Prop :=
  match e with
  | ResolveButtonShown => True
  | FixedCodeShown fixed report =>
      fixed = fixed_code s /\ report = vulnerability_report s
      /\ issue_resolved s = true
  | _ => False
  end.

(** The effects of a rewrite that answered [fixed] for [text]: the
    button, the call, the save when a user is known, and the fixed code
    when the run went on to the end ([r]). *)
Definition resolved_effects (inp : inputs) (s : session) (text fixed : pystr)
    (r : step unit) : list effect :=
  [ResolveButtonShown; RewriteCalled (last_user_code s) text]
  ++ match truthy_id (user_id s) with
     | Some uid =>
         [SaveCodeCalled uid (in_title inp) (last_user_code s) (Some fixed)]
     | None => []
     end
  ++ match r with
     | Next _ => [FixedCodeShown fixed (vulnerability_report s)]
     | Halt _ => []
     end.

(** How the end of the home page comes out, from the session [s1]: with
    nothing resolved, or with the rewrite raising, or with its answer. *)
Definition tail_outcome (inp : inputs) (s1 : session) (r : step unit)
    (s' : session) (new : list effect) : Prop :=
  (s' = s1 /\ Forall (quiet_tail s1) new)
  \/ (exists text,
        s' = s1 /\ r = Halt Exception
        /\ new = [ResolveButtonShown; RewriteCalled (last_user_code s1) text]
        /\ rewrite_code_with_openai inp (last_user_code s1) text = Raises)
  \/ (exists text fixed,
        s' = set_issue_resolved true (set_fixed_code fixed s1)
        /\ selected_issues_text s1 = Some text
        /\ rewrite_code_with_openai inp (last_user_code s1) text = Returns fixed
        /\ new = resolved_effects inp s1 text fixed r).

End HomeSpec.

Module ButtonSpec.
Import Parser Session SessionSpec RunSpec.

(** The scan ends the run: the scanner raises, or the save after the
    scan does. *)
Definition scan_ends_run (inp : inputs) (s : session) : bool :=
  scan_requested inp s
  && match scan_vulnerabilities inp (in_user_code inp) with
     | Raises => true
     | Returns _ =>
         match truthy_id (user_id s) with
         | Some uid =>
             match save_code inp uid (in_title inp) (in_user_code inp) None with
             | Raises => true
             | Returns _ => false
             end
         | None => false
         end
     end.

End ButtonSpec.

Module InvariantSpec.
Import Parser Session SessionSpec RunSpec.

(** Every entry of the selection mapping is the entry of an issue of the
    report in the session. *)
Definition entries_of_report (s : session) : Prop :=
  forall key b, selected_issues s !! key = Some b ->
    exists i, i < length (parse_vulnerabilities (vulnerability_report s))
              /\ key = checkbox_key i.

(** Without a completed scan there is no report and no entry. *)
Definition report_needs_scan (s : session) : Prop :=
  scan_complete s = false ->
  vulnerability_report s = [] /\ selected_issues s = ∅.

(** What the home page works on, the fixed code apart. *)
Definition scanned (s : session) : pystr * gmap string bool * bool :=
  (vulnerability_report s, selected_issues s, scan_complete s).

Definition scan_invariant (s : session) : Prop :=
  entries_of_report s /\ report_needs_scan s.

End InvariantSpec.

(** * Lemmas *)

Import Regex Parser ReportShape.

(** ** Prefixes and contiguous runs *)

Section StringFacts.

Lemma prefix_of_spec (x y : pystr) :
  prefix_of x y = true <-> exists b, y = x ++ b.
Proof.
  revert y. induction x as [|a x IH]; intros y; simpl.
  - split; [intros _; by exists y | done].
  - destruct y as [|c y].
    + split; [done | intros [b Hb]; discriminate].
    + rewrite andb_true_iff, N.eqb_eq, IH. split.
      * intros [-> [b ->]]. by exists b.
      * intros [b Hb]. injection Hb as -> ->. eauto.
Qed.

Lemma contains_spec (y x : pystr) :
  contains y x = true <-> exists a b, y = a ++ x ++ b.
Proof.
  induction y as [|c y IH]; simpl.
  - rewrite orb_false_r, prefix_of_spec. split.
    + intros [b Hb]. by exists [], b.
    + intros (a & b & Hab). destruct a; [by exists b|discriminate].
  - rewrite orb_true_iff, prefix_of_spec, IH. split.
    + intros [[b Hb] | (a & b & ->)]; [by exists [], b | by exists (c :: a), b].
    + intros (a & b & Hab). destruct a as [|c' a]; simpl in Hab.
      * left. by exists b.
      * right. injection Hab as -> ->. by exists a, b.
Qed.

Lemma forallb_space_app (u v : pystr) :
  forallb is_space (u ++ v) = true ->
  forallb is_space u = true /\ forallb is_space v = true.
Proof. rewrite forallb_app. apply andb_true_iff. Qed.

Lemma contains_false_app (a x b : pystr) : contains (a ++ x ++ b) x = false -> False.
Proof.
  intros H. assert (contains (a ++ x ++ b) x = true) as E by (apply contains_spec; eauto).
  congruence.
Qed.

End StringFacts.

(** ** The engine against the meaning of the pattern *)

Section Engine.

Implicit Types (k : pystr -> option result) (p : list atom) (s : pystr).

Lemma lazy_group_inv k acc s r :
  lazy_group k acc s = Some r ->
  exists g s' gs rest,
    s = g ++ s' /\ k s' = Some (gs, rest) /\ r = ((rev acc ++ g) :: gs, rest).
Proof.
  revert acc. induction s as [|x s IH]; intros acc; simpl.
  - destruct (k []) as [[gs rest]|] eqn:E; [|done].
    intros [= <-]. exists [], [], gs, rest. by rewrite !app_nil_r.
  - destruct (k (x :: s)) as [[gs rest]|] eqn:E.
    + intros [= <-]. exists [], (x :: s), gs, rest. by rewrite !app_nil_r.
    + intros H. apply IH in H as (g & s' & gs & rest & -> & Hk & ->).
      exists (x :: g), s', gs, rest. simpl. by rewrite <- app_assoc.
Qed.

Lemma lazy_group_exact k acc g s gs rest :
  (forall g1 g2, g = g1 ++ g2 -> g2 <> [] -> k (g2 ++ s) = None) ->
  k s = Some (gs, rest) ->
  lazy_group k acc (g ++ s) = Some ((rev acc ++ g) :: gs, rest).
Proof.
  revert acc. induction g as [|x g IH]; intros acc Hearly Hk.
  - simpl. destruct s; simpl; rewrite Hk; by rewrite !app_nil_r.
  - pose proof (Hearly [] (x :: g) eq_refl ltac:(done)) as E0.
    simpl in *. rewrite E0.
    rewrite IH; [simpl; by rewrite <- app_assoc | | done].
    intros g1 g2 -> Hne. by apply (Hearly (x :: g1) g2).
Qed.

Lemma lazy_group_some k acc g s r :
  k s = Some r -> is_Some (lazy_group k acc (g ++ s)).
Proof.
  revert acc. induction g as [|x g IH]; intros acc Hk.
  - simpl. destruct s; simpl; rewrite Hk; by destruct r.
  - simpl. destruct (k (x :: g ++ s)) as [[]|]; [done|]. by apply IH.
Qed.

Lemma greedy_spaces_inv k s r :
  greedy_spaces k s = Some r ->
  exists w s', s = w ++ s' /\ forallb is_space w = true /\ k s' = Some r.
Proof.
  induction s as [|y s IH]; simpl.
  - intros H. by exists [], [].
  - destruct (is_space y) eqn:Hy.
    + destruct (greedy_spaces k s) as [r'|] eqn:E.
      * intros [= <-]. destruct (IH eq_refl) as (w & s' & -> & Hw & Hk).
        exists (y :: w), s'. simpl. by rewrite Hy, Hw.
      * intros H. by exists [], (y :: s).
    + intros H. by exists [], (y :: s).
Qed.

Lemma greedy_spaces_exact k w s :
  (forall y t, is_space y = true -> k (y :: t) = None) ->
  forallb is_space w = true ->
  starts_with_space s = false ->
  greedy_spaces k (w ++ s) = k s.
Proof.
  intros Hk. induction w as [|y w IH]; intros Hw Hs.
  - simpl. destruct s as [|c s]; [done|]. simpl in *. by rewrite Hs.
  - simpl in *. apply andb_true_iff in Hw as [Hy Hw]. rewrite Hy, IH by done.
    destruct (k s) eqn:E; [done|]. by rewrite Hk.
Qed.

Lemma greedy_spaces_some k w s r :
  forallb is_space w = true -> k s = Some r ->
  is_Some (greedy_spaces k (w ++ s)).
Proof.
  intros Hw Hk. induction w as [|y w IH].
  - simpl. destruct s as [|c s]; simpl; [by rewrite Hk|].
    destruct (is_space c); [|by rewrite Hk].
    destruct (greedy_spaces k s); [done | by rewrite Hk].
  - simpl in *. apply andb_true_iff in Hw as [Hy Hw]. rewrite Hy.
    destruct (IH Hw) as [r' ->]. done.
Qed.

(** The engine finds only texts of the pattern ... *)
Lemma re_match_sound p s gs rest :
  re_match p s = Some (gs, rest) -> matches p s rest.
Proof.
  revert s gs rest. induction p as [|a p IH]; intros s gs rest; simpl.
  - intros [= <- <-]. constructor.
  - destruct a as [c| |].
    + destruct s as [|x s]; [done|]. destruct (N.eqb_spec x c) as [->|]; [|done].
      intros H. constructor. eauto.
    + intros H. apply lazy_group_inv in H as (g & s' & gs' & rest' & -> & Hk & [= -> ->]).
      constructor. eauto.
    + destruct s as [|x s]; [done|]. destruct (is_space x) eqn:Hx; [|done].
      intros H. apply greedy_spaces_inv in H as (w & s' & -> & Hw & Hk).
      apply (matches_spaces (x :: w)); [done | by simpl; rewrite Hx | eauto].
Qed.

(** ... and finds one wherever there is one. *)
Lemma re_match_complete p s rest :
  matches p s rest -> is_Some (re_match p s).
Proof.
  induction 1 as [s | c p s rest _ IH | g p s rest _ IH | w p s rest Hne Hw _ IH]; simpl.
  - done.
  - by rewrite N.eqb_refl.
  - destruct IH as [r Hr]. by eapply lazy_group_some.
  - destruct w as [|x w]; [done|]. simpl in *.
    apply andb_true_iff in Hw as [-> Hw]. destruct IH as [r Hr].
    by eapply greedy_spaces_some.
Qed.

Lemma matches_suffix p s rest :
  matches p s rest -> exists c, s = c ++ rest.
Proof.
  induction 1 as [s | c p s rest _ [u ->] | g p s rest _ [u ->] | w p s rest _ _ _ [u ->]].
  - by exists [].
  - by exists (c :: u).
  - exists (g ++ u). by rewrite app_assoc.
  - exists (w ++ u). by rewrite app_assoc.
Qed.

Lemma findall_from_skip p (a s : pystr) :
  findall_from p (length a) (a ++ s) = findall_from p 0 s.
Proof. induction a as [|x a IH]; [by destruct s | done]. Qed.

Lemma findall_match p (c : pystr) x rest gs :
  re_match p (x :: c ++ rest) = Some (gs, rest) ->
  findall p (x :: c ++ rest) = gs :: findall p rest.
Proof.
  intros H. unfold findall. cbn [findall_from]. rewrite H. f_equal.
  replace (length (x :: c ++ rest) - length rest - 1) with (length c)
    by (simpl; rewrite length_app; lia).
  apply findall_from_skip.
Qed.

Lemma findall_no_match p x s :
  re_match p (x :: s) = None -> findall p (x :: s) = findall p s.
Proof. intros H. unfold findall. cbn [findall_from]. by rewrite H. Qed.

Lemma findall_nil p : re_match p [] = None -> findall p [] = [].
Proof. intros H. unfold findall. simpl. by rewrite H. Qed.

(** Where the pattern does not occur, [findall] finds nothing. *)
Lemma findall_none p s :
  (forall a t, s = a ++ t -> re_match p t = None) -> findall p s = [].
Proof.
  induction s as [|x s IH]; intros H.
  - apply findall_nil, (H [] []). done.
  - rewrite findall_no_match by (by apply (H [])).
    apply IH. intros a t ->. by apply (H (x :: a)).
Qed.

Lemma re_match_lits (l : pystr) p s :
  re_match (map Lit l ++ p) (l ++ s) = re_match p s.
Proof. induction l as [|c l IH]; [done|]. simpl. by rewrite N.eqb_refl. Qed.

Lemma matches_lits_inv (l : pystr) p s rest :
  matches (map Lit l ++ p) s rest -> exists s', s = l ++ s' /\ matches p s' rest.
Proof.
  revert s. induction l as [|c l IH]; intros s; simpl.
  - by exists s.
  - inversion 1; subst. destruct (IH _ H4) as (s' & -> & Hm). by exists s'.
Qed.

End Engine.

(** ** Labels in a text *)

Section Labels.

Lemma heads_differ (u v a b : pystr) :
  u <> [] -> v <> [] -> forallb is_space u = true -> solid v = true ->
  u ++ a = v ++ b -> False.
Proof.
  destruct u as [|x u], v as [|y v]; try done. simpl.
  intros _ _ Hx Hy [= -> _].
  apply andb_true_iff in Hx as [Hx _]. apply andb_true_iff in Hy as [Hy _].
  by rewrite Hx in Hy.
Qed.

(** A tail of [core ++ [sp]] that starts with white space is [[sp]]. *)
Lemma blank_tail_of_label (core l l2 a b : pystr) (sp : N) (D : pystr) :
  solid core = true -> D <> [] -> forallb is_space D = true ->
  core ++ [sp] = l ++ l2 -> l2 <> [] -> D ++ a = l2 ++ b -> l = core.
Proof.
  intros Hc HD HDs. revert l. induction core as [|c core IH]; intros l E Hne El2.
  - destruct l as [|x l]; [done|]. simpl in E. injection E as -> E.
    by destruct l, l2.
  - simpl in Hc. apply andb_true_iff in Hc as [Hc1 Hc].
    destruct l as [|x l]; simpl in E.
    + subst l2. exfalso. apply (heads_differ D [c] a (core ++ [sp] ++ b)); try done.
      * simpl. by rewrite Hc1.
      * rewrite El2. simpl. by rewrite <- app_assoc.
    + injection E as -> E. f_equal. by apply IH.
Qed.

(** In [f ++ D ++ label ++ R], with [D] blank and the label's word not in
    [f], the label has no occurrence before the one written out. *)
Lemma label_first (core f D R X R' : pystr) (sp : N) :
  core <> [] -> solid core = true ->
  D <> [] -> forallb is_space D = true ->
  contains f core = false ->
  f ++ D ++ (core ++ [sp]) ++ R = X ++ (core ++ [sp]) ++ R' ->
  exists X', X = f ++ D ++ X'.
Proof.
  intros Hne Hsolid HD HDs Hf E.
  apply app_eq_app in E as [l [[-> E] | [-> E]]].
  - (* the occurrence starts inside [f] *)
    destruct l as [|x l].
    + exists []. rewrite !app_nil_r in *. simpl in E. exfalso.
      rewrite <- app_assoc in E.
      by apply (heads_differ D core _ _ HD Hne HDs Hsolid (eq_sym E)).
    + exfalso. symmetry in E.
      apply app_eq_app in E as [l2 [[E1 E2] | [E1 E2]]].
      * rewrite E1 in Hf. revert Hf.
        repeat rewrite <- app_assoc. apply contains_false_app.
      * destruct l2 as [|y l2].
        -- rewrite app_nil_r in E1. rewrite <- E1 in Hf. revert Hf.
           apply contains_false_app.
        -- assert (x :: l = core) as Hl.
           { eapply (blank_tail_of_label core (x :: l) (y :: l2) _ _ sp D); eauto. }
           rewrite Hl in Hf.
           apply (contains_false_app X core []). by rewrite app_nil_r.
  - (* the occurrence starts after [f] *)
    apply app_eq_app in E as [l2 [[-> E] | [-> E]]].
    + destruct l2 as [|y l2].
      * exists []. by rewrite !app_nil_r.
      * exfalso. apply forallb_space_app in HDs as [_ Hl2].
        rewrite <- app_assoc in E.
        by apply (heads_differ (y :: l2) core _ _ ltac:(done) Hne Hl2 Hsolid (eq_sym E)).
    + by exists l2.
Qed.

End Labels.

(** ** The groups, stage by stage *)

Section Stages.

Implicit Types (k : pystr -> option result) (p : list atom).

Lemma contains_suffix (g1 g2 x : pystr) :
  contains (g1 ++ g2) x = false -> contains g2 x = false.
Proof.
  intros H. destruct (contains g2 x) eqn:E; [|done].
  apply contains_spec in E as (a & b & ->).
  exfalso. apply (contains_false_app (g1 ++ a) x b). by rewrite <- app_assoc.
Qed.

Lemma blank_tail_app (from_newline : bool) (g1 g2 : pystr) :
  g2 <> [] -> forallb is_space g2 = true ->
  (from_newline = true -> exists w, g2 = nl :: w) ->
  blank_tail from_newline (g1 ++ g2) = true.
Proof.
  intros Hne Hs Hnl. induction g1 as [|x g1 IH].
  - destruct g2 as [|c g2]; [done|]. cbn [app blank_tail]. rewrite Hs.
    destruct from_newline; [|done].
    destruct (Hnl eq_refl) as [w [= -> _]]. done.
  - cbn [app blank_tail]. rewrite IH. apply orb_true_r.
Qed.

Lemma blank_then_spaces (label : pystr) p :
  blank_then false label (re_match (Spaces1 :: map Lit label ++ p)).
Proof.
  intros t [gs rest] H. apply re_match_sound in H.
  inversion H as [| | |w p' s rest' Hne Hw Hm]; subst.
  apply matches_lits_inv in Hm as (s' & -> & _). by exists w, s'.
Qed.

Lemma blank_then_nl_spaces (label : pystr) p :
  blank_then true label (re_match (Lit nl :: Spaces1 :: map Lit label ++ p)).
Proof.
  intros t [gs rest] H. apply re_match_sound in H.
  inversion H as [|c p' s0 rest' Hm0| |]; subst.
  inversion Hm0 as [| | |w p' s rest' Hne Hw Hm]; subst.
  apply matches_lits_inv in Hm as (s' & -> & _).
  exists (nl :: w), s'. split; [done|]. split; [by simpl; rewrite Hw|].
  split; [by exists w | done].
Qed.

(** The group before a blank-delimited label stops exactly at the text
    the label closes. *)
Lemma lazy_group_before_label (from_newline : bool) k (core f D T acc : pystr)
    gs rest :
  core <> [] -> solid core = true ->
  D <> [] -> forallb is_space D = true ->
  contains f core = false -> blank_tail from_newline f = false ->
  blank_then from_newline (core ++ [32%N]) k ->
  k (D ++ (core ++ [32%N]) ++ T) = Some (gs, rest) ->
  lazy_group k acc (f ++ D ++ (core ++ [32%N]) ++ T)
  = Some ((rev acc ++ f) :: gs, rest).
Proof.
  intros Hne Hsolid HD HDs Hf Hend Hk Hhere.
  apply lazy_group_exact; [|done].
  intros g1 g2 -> Hg2.
  destruct (k (g2 ++ D ++ (core ++ [32%N]) ++ T)) as [r|] eqn:E; [|done].
  exfalso. apply Hk in E as (D' & T' & HD' & HDs' & Hnl & E).
  apply label_first in E as [X' ->]; try done; [|by eapply contains_suffix].
  apply forallb_space_app in HDs' as [Hg2s _].
  rewrite blank_tail_app in Hend; [done..|].
  intros Hfn. destruct (Hnl Hfn) as [w Hw].
  destruct g2 as [|c g2]; [done|]. injection Hw as -> _. by exists g2.
Qed.

(** [\s+] before a label takes the whole blank run. *)
Lemma spaces_before_label (core ws T : pystr) p :
  core <> [] -> solid core = true -> blank ws = true ->
  re_match (Spaces1 :: map Lit (core ++ [32%N]) ++ p) (ws ++ (core ++ [32%N]) ++ T)
  = re_match p T.
Proof.
  intros Hne Hsolid Hws. destruct ws as [|x ws]; [done|]. simpl in Hws.
  apply andb_true_iff in Hws as [Hx Hws]. cbn [re_match app]. rewrite Hx.
  rewrite greedy_spaces_exact; [apply re_match_lits | | done |].
  - intros y t Hy. destruct core as [|c core]; [done|]. simpl in *.
    apply andb_true_iff in Hsolid as [Hc _].
    destruct (N.eqb_spec y c) as [->|]; [|done]. by rewrite Hy in Hc.
  - destruct core as [|c core]; [done|]. simpl in *.
    apply andb_true_iff in Hsolid as [Hc _]. by destruct (is_space c).
Qed.

Lemma blank_inv (ws : pystr) :
  blank ws = true -> ws <> [] /\ forallb is_space ws = true.
Proof. by destruct ws. Qed.

(** A field, blank text, a label: the group is the field. *)
Lemma field_then_spaces (core f ws T acc : pystr) p gs rest :
  core <> [] -> solid core = true -> blank ws = true ->
  contains f core = false -> blank_tail false f = false ->
  re_match p T = Some (gs, rest) ->
  lazy_group (re_match (Spaces1 :: map Lit (core ++ [32%N]) ++ p)) acc
    (f ++ ws ++ (core ++ [32%N]) ++ T)
  = Some ((rev acc ++ f) :: gs, rest).
Proof.
  intros Hne Hsolid Hws Hf Hend Hp. destruct (blank_inv _ Hws) as [Hw1 Hw2].
  apply (lazy_group_before_label false); try done.
  - apply blank_then_spaces.
  - by rewrite spaces_before_label.
Qed.

Lemma re_match_lit (c : N) p (s : pystr) :
  re_match (Lit c :: p) (c :: s) = re_match p s.
Proof. simpl. by rewrite N.eqb_refl. Qed.

(** A field, a line end, an indentation, a label: the group is the field. *)
Lemma field_then_nl_spaces (core f ws T acc : pystr) p gs rest :
  core <> [] -> solid core = true -> blank ws = true ->
  contains f core = false -> blank_tail true f = false ->
  re_match p T = Some (gs, rest) ->
  lazy_group (re_match (Lit nl :: Spaces1 :: map Lit (core ++ [32%N]) ++ p)) acc
    (f ++ [nl] ++ ws ++ (core ++ [32%N]) ++ T)
  = Some ((rev acc ++ f) :: gs, rest).
Proof.
  intros Hne Hsolid Hws Hf Hend Hp. destruct (blank_inv _ Hws) as [Hw1 Hw2].
  apply (lazy_group_before_label true _ core f ([nl] ++ ws)); try done.
  - apply blank_then_nl_spaces.
  - change (([nl] ++ ws) ++ (core ++ [32%N]) ++ T)
      with (nl :: ws ++ (core ++ [32%N]) ++ T).
    rewrite re_match_lit.
    by rewrite (spaces_before_label core ws T p).
Qed.

(** The last group: up to the first line end. *)
Lemma location_group (f T acc : pystr) :
  contains f [nl] = false ->
  lazy_group (re_match [Lit nl]) acc (f ++ nl :: T) = Some ([rev acc ++ f], T).
Proof.
  intros Hf. apply lazy_group_exact.
  - intros g1 g2 -> Hg2. destruct g2 as [|c g2]; [done|]. simpl.
    destruct (N.eqb_spec c nl) as [->|]; [|done].
    exfalso. by apply (contains_false_app g1 [nl] g2).
  - done.
Qed.

End Stages.

(** ** Blocks and reports *)

Section IssueBlocks.

Lemma issue_pattern_stages : issue_pattern = map Lit marker ++ after_marker.
Proof. reflexivity. Qed.

Lemma render_block_stages (b : block) (R : pystr) :
  render_block b ++ R
  = marker ++ desc b ++ [nl] ++ ws1 b ++ (severity_word ++ [32%N]) ++
    sev b ++ ws2 b ++ (confidence_word ++ [32%N]) ++
    conf b ++ [nl] ++ ws3 b ++ (location_word ++ [32%N]) ++ loc b ++ nl :: R.
Proof.
  unfold render_block, render_unterminated.
  repeat rewrite <- app_assoc. reflexivity.
Qed.

Lemma closed_by_inv (from_newline : bool) (word : string) (f : pystr) :
  closed_by from_newline word f = true ->
  contains f (lit word) = false /\ blank_tail from_newline f = false.
Proof.
  unfold closed_by. rewrite andb_true_iff, !negb_true_iff. done.
Qed.

Lemma re_match_group (p : list atom) (s : pystr) :
  re_match (LazyGroup :: p) s = lazy_group (re_match p) [] s.
Proof. reflexivity. Qed.

Lemma well_formed_inv (b : block) :
  well_formed b = true ->
  blank (ws1 b) = true /\ blank (ws2 b) = true /\ blank (ws3 b) = true
  /\ closed_by true "Severity:" (desc b) = true
  /\ closed_by false "Confidence:" (sev b) = true
  /\ closed_by true "Location:" (conf b) = true
  /\ contains (loc b) [nl] = false.
Proof.
  unfold well_formed. rewrite !andb_true_iff, negb_true_iff. tauto.
Qed.

(** At a well-formed block the pattern matches, the groups are the
    block's fields and the match ends with the block. *)
Lemma re_match_block (b : block) (R : pystr) :
  well_formed b = true ->
  re_match issue_pattern (render_block b ++ R) = Some (fields b, R).
Proof.
  intros (H1 & H2 & H3 & Hd & Hs & Hc & Hl)%well_formed_inv.
  apply closed_by_inv in Hd as [Hd1 Hd2].
  apply closed_by_inv in Hs as [Hs1 Hs2].
  apply closed_by_inv in Hc as [Hc1 Hc2].
  rewrite render_block_stages, issue_pattern_stages, re_match_lits.
  unfold after_marker. rewrite re_match_group.
  apply (field_then_nl_spaces severity_word); try done.
  unfold after_severity. rewrite re_match_group.
  apply (field_then_spaces confidence_word); try done.
  unfold after_confidence. rewrite re_match_group.
  apply (field_then_nl_spaces location_word); try done.
  unfold after_location. rewrite re_match_group.
  by apply location_group.
Qed.

(** The marker does not overlap itself. *)
Lemma marker_not_sooner (g T T' : pystr) :
  g <> [] -> g ++ marker ++ T = marker ++ T' -> contains g marker = true.
Proof.
  intros Hne E. apply app_eq_app in E as [l [[-> E] | [E1 E2]]].
  - apply contains_spec. by exists [], l.
  - destruct l as [|y l].
    { rewrite app_nil_r in E1. by subst g. }
    exfalso. revert E1 E2. unfold marker. cbn.
    destruct g as [|x g]; [done|]. clear Hne. intros [= <- E1]. revert E1.
    do 9 (destruct g as [|x g]; [by intros [= <- <-] |]; intros [= <- E1]; revert E1).
    by destruct g.
Qed.

(** Before a marker that follows marker-free text there is no marker. *)
Lemma marker_first (gap T a T' : pystr) :
  contains gap marker = false ->
  gap ++ marker ++ T = a ++ marker ++ T' ->
  exists a', a = gap ++ a' /\ marker ++ T = a' ++ marker ++ T'.
Proof.
  intros Hgap E. apply app_eq_app in E as [l [[-> E] | [-> E]]].
  - destruct l as [|x l].
    + exists []. rewrite !app_nil_r. by simpl in E.
    + symmetry in E. apply marker_not_sooner in E; [|done].
      apply contains_suffix in Hgap. congruence.
  - by exists l.
Qed.

Lemma re_match_needs_marker (t : pystr) r :
  re_match issue_pattern t = Some r -> exists T, t = marker ++ T.
Proof.
  destruct r as [gs rest]. intros H%re_match_sound.
  rewrite issue_pattern_stages in H.
  apply matches_lits_inv in H as (T & -> & _). by exists T.
Qed.

(** In marker-free text nothing is found. *)
Lemma findall_gap (gap : pystr) :
  gap_ok gap = true -> findall issue_pattern gap = [].
Proof.
  unfold gap_ok. rewrite negb_true_iff. intros Hgap.
  apply findall_none. intros a t ->.
  destruct (re_match issue_pattern t) as [r|] eqn:E; [|done].
  apply re_match_needs_marker in E as [T ->].
  exfalso. by apply (contains_false_app a marker T).
Qed.

(** Marker-free text before a marker is passed over. *)
Lemma findall_skip_gap (gap T : pystr) :
  gap_ok gap = true ->
  findall issue_pattern (gap ++ marker ++ T) = findall issue_pattern (marker ++ T).
Proof.
  unfold gap_ok. rewrite negb_true_iff.
  induction gap as [|x gap IH]; intros Hgap; [done|].
  simpl. rewrite findall_no_match.
  - apply IH. by apply (contains_suffix [x]).
  - destruct (re_match issue_pattern (x :: gap ++ marker ++ T)) as [r|] eqn:E; [|done].
    apply re_match_needs_marker in E as [T' E].
    apply (marker_not_sooner (x :: gap)) in E; [congruence | done].
Qed.

Lemma findall_found (c rest : pystr) gs :
  c <> [] ->
  re_match issue_pattern (c ++ rest) = Some (gs, rest) ->
  findall issue_pattern (c ++ rest) = gs :: findall issue_pattern rest.
Proof. destruct c as [|x c]; [done|]. intros _. apply findall_match. Qed.

(** The blocks of a report are found one after the other. *)
Lemma findall_report (blocks : list (pystr * block)) (tail : pystr) :
  forallb (fun gb => gap_ok (fst gb) && well_formed (snd gb)) blocks = true ->
  findall issue_pattern (render_report blocks tail)
  = map (fun gb => fields (snd gb)) blocks ++ findall issue_pattern tail.
Proof.
  induction blocks as [|[gap b] blocks IH]; intros Hwf; [done|].
  simpl in Hwf. apply andb_true_iff in Hwf as [[Hgap Hb]%andb_true_iff Hwf].
  cbn [render_report map fst snd app].
  rewrite render_block_stages, findall_skip_gap, <- render_block_stages by done.
  rewrite (findall_found _ _ (fields b)).
  - by rewrite IH.
  - by unfold render_block, render_unterminated.
  - by apply re_match_block.
Qed.

End IssueBlocks.

(** ** A block without its last line end *)

Section Unterminated.

Lemma label_first_rest (core f D R X R' : pystr) (sp : N) :
  core <> [] -> solid core = true ->
  D <> [] -> forallb is_space D = true ->
  contains f core = false ->
  f ++ D ++ (core ++ [sp]) ++ R = X ++ (core ++ [sp]) ++ R' ->
  exists X', X = f ++ D ++ X' /\ (core ++ [sp]) ++ R = X' ++ (core ++ [sp]) ++ R'.
Proof.
  intros Hne Hsolid HD HDs Hf E.
  destruct (label_first _ _ _ _ _ _ _ Hne Hsolid HD HDs Hf E) as [X' ->].
  exists X'. split; [done|].
  repeat rewrite <- app_assoc in E. repeat rewrite <- app_assoc.
  by do 2 apply app_inv_head in E.
Qed.

Lemma render_unterminated_stages (b : block) :
  render_unterminated b
  = marker ++ desc b ++ [nl] ++ ws1 b ++ (severity_word ++ [32%N]) ++
    sev b ++ ws2 b ++ (confidence_word ++ [32%N]) ++
    conf b ++ [nl] ++ ws3 b ++ (location_word ++ [32%N]) ++ loc b.
Proof. reflexivity. Qed.

Lemma matches_group_inv (p : list atom) (s rest : pystr) :
  matches (LazyGroup :: p) s rest -> exists g s', s = g ++ s' /\ matches p s' rest.
Proof. inversion 1; subst. eauto. Qed.

Lemma matches_lit_inv (c : N) (p : list atom) (s rest : pystr) :
  matches (Lit c :: p) s rest -> exists s', s = c :: s' /\ matches p s' rest.
Proof. inversion 1; subst. eauto. Qed.

Lemma matches_spaces_inv (p : list atom) (s rest : pystr) :
  matches (Spaces1 :: p) s rest ->
  exists w s', blank w = true /\ s = w ++ s' /\ matches p s' rest.
Proof.
  inversion 1 as [| | |w p' s' rest' Hne Hw Hm]; subst.
  exists w, s'. by destruct w.
Qed.

(** The shape of a text the pattern matches. *)
Lemma issue_match_shape (v rest : pystr) :
  matches issue_pattern v rest ->
  exists d w1 s w2 c w3 l,
    blank w1 = true /\ blank w2 = true /\ blank w3 = true /\
    v = marker ++ d ++ [nl] ++ w1 ++ (severity_word ++ [32%N]) ++
        s ++ w2 ++ (confidence_word ++ [32%N]) ++
        c ++ [nl] ++ w3 ++ (location_word ++ [32%N]) ++ l ++ nl :: rest.
Proof.
  rewrite issue_pattern_stages. intros H.
  apply matches_lits_inv in H as (v1 & -> & H).
  apply matches_group_inv in H as (d & v2 & -> & H).
  apply matches_lit_inv in H as (v3 & -> & H).
  apply matches_spaces_inv in H as (w1 & v4 & Hw1 & -> & H).
  apply matches_lits_inv in H as (v5 & -> & H).
  apply matches_group_inv in H as (s & v6 & -> & H).
  apply matches_spaces_inv in H as (w2 & v7 & Hw2 & -> & H).
  apply matches_lits_inv in H as (v8 & -> & H).
  apply matches_group_inv in H as (c & v9 & -> & H).
  apply matches_lit_inv in H as (v10 & -> & H).
  apply matches_spaces_inv in H as (w3 & v11 & Hw3 & -> & H).
  apply matches_lits_inv in H as (v12 & -> & H).
  apply matches_group_inv in H as (l & v13 & -> & H).
  apply matches_lit_inv in H as (v14 & -> & H).
  inversion H; subst.
  by exists d, w1, s, w2, c, w3, l.
Qed.

Lemma contains_nl_In (f : pystr) : contains f [nl] = false -> ~ In nl f.
Proof.
  intros Hf Hin. apply in_split in Hin as (a & b & ->).
  by apply (contains_false_app a [nl] b).
Qed.

(** After the last complete block: a block whose location line is not
    ended is not matched, wherever the match is tried. *)
Lemma unterminated_no_match (gap : pystr) (b : block) (a v : pystr) :
  gap_ok gap = true -> well_formed b = true ->
  gap ++ render_unterminated b = a ++ v ->
  re_match issue_pattern v = None.
Proof.
  intros Hgap (H1 & H2 & H3 & Hd & Hs & Hc & Hl)%well_formed_inv E.
  apply closed_by_inv in Hd as [Hd _].
  apply closed_by_inv in Hs as [Hs _].
  apply closed_by_inv in Hc as [Hc _].
  apply blank_inv in H1 as [H1 H1'].
  apply blank_inv in H2 as [H2 H2'].
  apply blank_inv in H3 as [H3 H3'].
  unfold gap_ok in Hgap. apply negb_true_iff in Hgap.
  destruct (re_match issue_pattern v) as [[gs rest]|] eqn:Hm; [|done].
  exfalso. apply re_match_sound, issue_match_shape in Hm
    as (d & w1 & s & w2 & c & w3 & l & _ & _ & _ & ->).
  rewrite render_unterminated_stages in E.
  (* the marker *)
  apply marker_first in E as (a' & -> & E); [|done].
  (* the severity label *)
  assert ((marker ++ desc b) ++ ([nl] ++ ws1 b) ++ (severity_word ++ [32%N]) ++
            sev b ++ ws2 b ++ (confidence_word ++ [32%N]) ++
            conf b ++ [nl] ++ ws3 b ++ (location_word ++ [32%N]) ++ loc b
          = (a' ++ marker ++ d ++ [nl] ++ w1) ++ (severity_word ++ [32%N]) ++
            s ++ w2 ++ (confidence_word ++ [32%N]) ++
            c ++ [nl] ++ w3 ++ (location_word ++ [32%N]) ++ l ++ nl :: rest) as E1.
  { repeat rewrite <- app_assoc in *. done. }
  apply label_first_rest in E1 as (X2 & _ & E2); [|done..].
  (* the confidence label *)
  assert (((severity_word ++ [32%N]) ++ sev b) ++ ws2 b ++ (confidence_word ++ [32%N]) ++
            conf b ++ [nl] ++ ws3 b ++ (location_word ++ [32%N]) ++ loc b
          = (X2 ++ (severity_word ++ [32%N]) ++ s ++ w2) ++ (confidence_word ++ [32%N]) ++
            c ++ [nl] ++ w3 ++ (location_word ++ [32%N]) ++ l ++ nl :: rest) as E3.
  { repeat rewrite <- app_assoc in *. done. }
  apply label_first_rest in E3 as (X3 & _ & E4); [|done..].
  (* the location label *)
  assert (((confidence_word ++ [32%N]) ++ conf b) ++ ([nl] ++ ws3 b) ++
            (location_word ++ [32%N]) ++ loc b
          = (X3 ++ (confidence_word ++ [32%N]) ++ c ++ [nl] ++ w3) ++
            (location_word ++ [32%N]) ++ l ++ nl :: rest) as E5.
  { repeat rewrite <- app_assoc in *. done. }
  apply label_first_rest in E5 as (X4 & _ & E6); [|done..].
  (* no line end is left for the match *)
  assert (In nl ((location_word ++ [32%N]) ++ loc b)) as Hin.
  { rewrite E6. rewrite !in_app_iff. right. right. right. by left. }
  apply in_app_iff in Hin as [Hin | Hin].
  - revert Hin. vm_compute. intuition discriminate.
  - by apply contains_nl_In in Hl.
Qed.

Lemma findall_unterminated (gap : pystr) (b : block) :
  gap_ok gap = true -> well_formed b = true ->
  findall issue_pattern (gap ++ render_unterminated b) = [].
Proof.
  intros Hgap Hb. apply findall_none. intros a t E.
  by apply (unterminated_no_match gap b a t).
Qed.

End Unterminated.

(** ** The filter and the loop of the history *)

Section HistoryFacts.
Import History HistorySpec.
Open Scope Z_scope.

Variable lower : pystr -> pystr.
Variable q : pystr.
Variables start_date end_date : option date.
Variable today : date.
Variable now_again : date.

(** When both reads of the clock give the same date, the ladder is the
    first window that holds the date. *)
Lemma bucket_of_first_matching (d : date) :
  bucket_of today today d = first_matching today d.
Proof.
  unfold bucket_of, first_matching, yesterday, last_7_days, last_30_days, minus_days.
  simpl.
  destruct (d =? today); [done|].
  destruct (d =? today - 1); [done|].
  destruct ((today - 7 <=? d) && (d <? today)); [done|].
  by destruct ((today - 30 <=? d) && (d <? today - 7)).
Qed.

Lemma text_ok_spec (s : submission) :
  text_ok lower q s = true <-> text_matches lower q s.
Proof.
  unfold text_ok, text_matches, substring. destruct q as [|c q'] eqn:Eq.
  - split; [by left | done].
  - rewrite orb_true_iff, !contains_spec. split.
    + intros [H|H]; [right; by left | right; by right].
    + intros [H|[H|H]]; [done | by left | by right].
Qed.

Lemma date_ok_spec (d : date) :
  date_ok start_date end_date d = true <-> date_in_range start_date end_date d.
Proof.
  unfold date_ok, date_in_range, start_dt, end_dt.
  destruct start_date as [sd|], end_date as [ed|]; simpl;
    rewrite ?andb_true_iff, ?Z.leb_le; split.
  all: try (intros [H1 H2]; split; intros ? [= <-]; done).
  all: try (intros [H1 H2]; split; eauto; done).
  all: try (intros H; split; [intros ? [= <-] | intros ? [=]]; lia).
  all: try (intros [H1 H2]; eauto).
  all: try (intros H; split; [intros ? [=] | intros ? [= <-]]; lia).
  all: try (intros _; split; intros ? [=]).
  all: try done.
Qed.

Lemma keeps_spec (s : submission) (d : date) :
  keeps lower q start_date end_date s d = true
  <-> text_matches lower q s /\ date_in_range start_date end_date d.
Proof.
  unfold keeps. by rewrite andb_true_iff, text_ok_spec, date_ok_spec.
Qed.

Lemma append_to_same (b : bucket) (s : submission) (g : grouped) :
  append_to b s g b = g b ++ [s].
Proof. unfold append_to. by rewrite decide_True. Qed.

Lemma append_to_other (b b' : bucket) (s : submission) (g : grouped) :
  b' <> b -> append_to b s g b' = g b'.
Proof. intros H. unfold append_to. by rewrite decide_False. Qed.

(** The loop adds to every bucket its rows, in order; it ends without an
    error exactly when every timestamp can be read. *)
Lemma group_loop_rows (recent_codes : list submission) (g0 : grouped) :
  Forall parseable recent_codes ->
  exists g, group_loop lower q start_date end_date today now_again recent_codes g0 = Some g
    /\ forall b, g b = g0 b ++ rows_of lower q start_date end_date today now_again b recent_codes.
Proof.
  revert g0. induction recent_codes as [|s rest IH]; intros g0 Hp.
  - exists g0. split; [done|]. intros b. by rewrite app_nil_r.
  - apply Forall_cons in Hp as [Hs Hrest]. unfold parseable in Hs.
    cbn [group_loop]. unfold submission_date.
    apply Z.eqb_neq in Hs. rewrite Hs. fold (date_of s).
    destruct (IH (if keeps lower q start_date end_date s (date_of s)
                  then append_to (bucket_of today now_again (date_of s)) s g0 else g0) Hrest)
      as (g & -> & Hg).
    exists g. split; [done|]. intros b. rewrite Hg. unfold rows_of. cbn [List.filter].
    destruct (keeps lower q start_date end_date s (date_of s)); simpl; [|done].
    destruct (decide (bucket_of today now_again (date_of s) = b)) as [<-|Hne].
    + rewrite append_to_same, bool_decide_eq_true_2 by done.
      by rewrite <- app_assoc.
    + rewrite append_to_other, bool_decide_eq_false_2 by done. done.
Qed.

Lemma group_loop_unparseable (recent_codes : list submission) (g0 : grouped) :
  ~ Forall parseable recent_codes ->
  group_loop lower q start_date end_date today now_again recent_codes g0 = None.
Proof.
  revert g0. induction recent_codes as [|s rest IH]; intros g0 Hp.
  - by destruct Hp.
  - cbn [group_loop]. unfold submission_date.
    destruct (Z.eqb_spec (dt_microsecond (created_at s)) 0) as [E|E]; [done|].
    apply IH. intros Hrest. apply Hp. by constructor.
Qed.

End HistoryFacts.

(** ** Scripts: what they add and what they leave alone *)

Section ScriptLaws.
Import Parser Session SessionSpec.

Context {A B : Type}.
Implicit Types (P : effect -> Prop).

Lemma adds_ret P (a : A) : adds P (ret a).
Proof. intros s l. exists []. by rewrite app_nil_r. Qed.

Lemma adds_bind P (m : script A) (k : A -> script B) :
  adds P m -> (forall a, adds P (k a)) -> adds P (bind m k).
Proof.
  intros Hm Hk s l. unfold bind. destruct (Hm s l) as (new1 & E1 & H1).
  destruct (m s l) as [[[a|h] s'] l']; simpl in E1; subst l'.
  - destruct (Hk a s' (l ++ new1)) as (new2 & E2 & H2).
    exists (new1 ++ new2). rewrite E2, app_assoc. split; [done|].
    by apply Forall_app.
  - by exists new1.
Qed.

Lemma adds_stop P (h : halt) : adds P (@stop A h).
Proof. intros s l. exists []. by rewrite app_nil_r. Qed.

Lemma adds_call P (o : outcome A) : adds P (call o).
Proof. destruct o; [apply adds_ret | apply adds_stop]. Qed.

Lemma preserves_ret {X} (f : session -> X) (a : A) : preserves f (ret a).
Proof. by intros s l. Qed.

Lemma preserves_bind {X} (f : session -> X) (m : script A) (k : A -> script B) :
  preserves f m -> (forall a, preserves f (k a)) -> preserves f (bind m k).
Proof.
  intros Hm Hk s l. unfold bind. specialize (Hm s l).
  destruct (m s l) as [[[a|h] s'] l']; simpl in *; [|done].
  by rewrite Hk.
Qed.

Lemma preserves_stop {X} (f : session -> X) (h : halt) : preserves f (@stop A h).
Proof. by intros s l. Qed.

Lemma preserves_call {X} (f : session -> X) (o : outcome A) : preserves f (call o).
Proof. destruct o; [apply preserves_ret | apply preserves_stop]. Qed.

End ScriptLaws.

Section ScriptPrimitives.
Import Parser Session SessionSpec.
Implicit Types (P : effect -> Prop).

Lemma adds_get P : adds P get.
Proof. intros s l. exists []. by rewrite app_nil_r. Qed.

Lemma adds_modify P (f : session -> session) : adds P (modify f).
Proof. intros s l. exists []. by rewrite app_nil_r. Qed.

Lemma adds_emit P (e : effect) : P e -> adds P (emit e).
Proof. intros He s l. exists [e]. split; [done|]. by constructor. Qed.

Lemma adds_when P (b : bool) (m : script unit) : adds P m -> adds P (when b m).
Proof. destruct b; [done|]. intros _. apply adds_ret. Qed.

Lemma preserves_get {X} (f : session -> X) : preserves f get.
Proof. by intros s l. Qed.

Lemma preserves_modify {X} (f : session -> X) (g : session -> session) :
  (forall s, f (g s) = f s) -> preserves f (modify g).
Proof. intros H s l. apply H. Qed.

Lemma preserves_emit {X} (f : session -> X) (e : effect) : preserves f (emit e).
Proof. by intros s l. Qed.

Lemma preserves_when {X} (f : session -> X) (b : bool) (m : script unit) :
  preserves f m -> preserves f (when b m).
Proof. destruct b; [done|]. intros _. apply preserves_ret. Qed.

End ScriptPrimitives.

(** Take a script apart along its binds. *)
Ltac script_step :=
  first
    [ apply adds_bind; [|intros ?]
    | apply adds_ret | apply adds_get | apply adds_modify | apply adds_stop
    | apply adds_call | apply adds_when
    | apply adds_emit; exact I
    | apply preserves_bind; [|intros ?]
    | apply preserves_ret | apply preserves_get | apply preserves_stop
    | apply preserves_call | apply preserves_when | apply preserves_emit
    | apply preserves_modify; by intros [] ].

Ltac script_steps :=
  repeat first
    [ progress script_step
    | match goal with
      | |- SessionSpec.adds _ (match ?x with _ => _ end) => destruct x
      | |- SessionSpec.preserves _ (match ?x with _ => _ end) => destruct x
      | |- SessionSpec.adds _ (if ?x then _ else _) => destruct x
      | |- SessionSpec.preserves _ (if ?x then _ else _) => destruct x
      end ].

(** ** The checkbox loop *)

Section Checkboxes.
Import Parser Session SessionSpec.

Variable inp : inputs.

Lemma checkbox_key_inj (i j : nat) : checkbox_key i = checkbox_key j -> i = j.
Proof.
  unfold checkbox_key. intros H.
  apply (inj (String.append "issue_")) in H. by apply (inj pretty) in H.
Qed.

Lemma set_selected_issues_same (s : session) :
  set_selected_issues (selected_issues s) s = s.
Proof. by destruct s. Qed.

Lemma ensure_lookup (key : string) (m : gmap string bool) :
  ensure key m !! key = Some (default false (m !! key)).
Proof.
  unfold ensure. destruct (m !! key) as [b|] eqn:E; [done|].
  by rewrite lookup_insert_eq.
Qed.

Lemma insert_ensure (key : string) (v : bool) (m : gmap string bool) :
  <[key := v]> (ensure key m) = <[key := v]> m.
Proof.
  unfold ensure. destruct (m !! key); [done|]. by rewrite insert_insert_eq.
Qed.

(** The loop, without the monad: it never stops on an error. *)
Lemma checkbox_loop_eq (issues : list pystr) (i : nat) (s : session) (l : list effect) :
  checkbox_loop inp i issues s l
  = (Next tt,
     set_selected_issues (loop_map inp i issues (selected_issues s)) s,
     l ++ loop_effects inp i issues (selected_issues s)).
Proof.
  revert i s l. induction issues as [|issue rest IH]; intros i s l.
  - simpl. by rewrite set_selected_issues_same, app_nil_r.
  - cbn [checkbox_loop loop_map loop_effects].
    unfold bind at 1. unfold modify at 1.
    unfold bind at 1. unfold read_selected, bind at 1, get at 1.
    cbn [selected_issues set_selected_issues]. rewrite ensure_lookup.
    unfold ret at 1. unfold bind at 1, emit at 1. unfold bind at 1, modify at 1.
    rewrite IH. cbn [selected_issues set_selected_issues].
    rewrite insert_ensure. by rewrite <- app_assoc.
Qed.

Lemma loop_map_other (issues : list pystr) (i : nat) (m : gmap string bool) (k : string) :
  (forall j, i <= j -> k <> checkbox_key j) ->
  loop_map inp i issues m !! k = m !! k.
Proof.
  revert i m. induction issues as [|issue rest IH]; intros i m Hk; [done|].
  simpl. rewrite IH by (intros j Hj; apply Hk; lia).
  rewrite lookup_insert_ne; [done|]. intros E. by apply (Hk i).
Qed.

Lemma loop_map_lookup (issues : list pystr) (i j : nat) (m : gmap string bool)
    (issue : pystr) :
  issues !! j = Some issue ->
  loop_map inp i issues m !! checkbox_key (i + j)
  = Some (checkbox inp (i + j) issue (default false (m !! checkbox_key (i + j)))).
Proof.
  revert i j m. induction issues as [|x rest IH]; intros i j m Hj; [done|].
  destruct j as [|j]; simpl in *.
  - injection Hj as ->. rewrite Nat.add_0_r.
    rewrite loop_map_other; [by rewrite lookup_insert_eq|].
    intros j Hj E. apply checkbox_key_inj in E. lia.
  - replace (i + S j) with (S i + j) by lia.
    rewrite (IH (S i) j _ Hj). rewrite lookup_insert_ne; [done|].
    intros E. apply checkbox_key_inj in E. lia.
Qed.

Lemma loop_map_is_Some (issues : list pystr) (i : nat) (m : gmap string bool) (k : string) :
  is_Some (loop_map inp i issues m !! k) ->
  is_Some (m !! k) \/ exists j, j < length issues /\ k = checkbox_key (i + j).
Proof.
  revert i m. induction issues as [|x rest IH]; intros i m H; [by left|].
  simpl in H. apply IH in H as [H | (j & Hj & ->)].
  - destruct (decide (k = checkbox_key i)) as [->|Hne].
    + right. exists 0. simpl. split; [lia | by rewrite Nat.add_0_r].
    + left. by rewrite lookup_insert_ne in H.
  - right. exists (S j). simpl. split; [lia|]. f_equal. lia.
Qed.

Lemma loop_map_lookup0 (issues : list pystr) (j : nat) (m : gmap string bool)
    (issue : pystr) :
  issues !! j = Some issue ->
  loop_map inp 0 issues m !! checkbox_key j
  = Some (checkbox inp j issue (default false (m !! checkbox_key j))).
Proof. apply (loop_map_lookup issues 0 j). Qed.

Lemma loop_map_is_Some0 (issues : list pystr) (m : gmap string bool) (k : string) :
  is_Some (loop_map inp 0 issues m !! k) ->
  is_Some (m !! k) \/ exists j, j < length issues /\ k = checkbox_key j.
Proof. apply (loop_map_is_Some issues 0). Qed.

Lemma loop_effects_In (issues : list pystr) (i : nat) (m : gmap string bool)
    (e : effect) :
  In e (loop_effects inp i issues m) ->
  exists j issue, issues !! j = Some issue
    /\ e = CheckboxShown (i + j) issue (default false (m !! checkbox_key (i + j))).
Proof.
  revert i m. induction issues as [|x rest IH]; intros i m; [done|].
  simpl. intros [<- | H].
  - exists 0, x. by rewrite Nat.add_0_r.
  - apply IH in H as (j & issue & Hj & ->). exists (S j), issue. split; [done|].
    replace (i + S j) with (S i + j) by lia. rewrite lookup_insert_ne; [done|].
    intros E. apply checkbox_key_inj in E. lia.
Qed.

Lemma loop_effects_checkboxes P (issues : list pystr) (i : nat) (m : gmap string bool) :
  (forall j lab v, P (CheckboxShown j lab v)) ->
  Forall P (loop_effects inp i issues m).
Proof.
  intros HP. revert i m. induction issues as [|x rest IH]; intros i m; simpl.
  - constructor.
  - constructor; [apply HP | apply IH].
Qed.

Lemma adds_checkbox_loop P (issues : list pystr) (i : nat) :
  (forall j lab v, P (CheckboxShown j lab v)) ->
  adds P (checkbox_loop inp i issues).
Proof.
  intros HP s l. rewrite checkbox_loop_eq. eexists. split; [done|].
  by apply loop_effects_checkboxes.
Qed.

(** The entries read for the resolve text. *)
Lemma selected_from_chosen (m : gmap string bool) (issues : list pystr) (i : nat) :
  (forall j, j < length issues -> is_Some (m !! checkbox_key (i + j))) ->
  selected_from m i issues = Some (chosen_from m i issues).
Proof.
  revert i. induction issues as [|x rest IH]; intros i Hk; [done|].
  simpl. destruct (Hk 0 ltac:(simpl; lia)) as [b Hb]. rewrite Nat.add_0_r in Hb.
  rewrite Hb, IH.
  - destruct b; [by rewrite decide_True | by rewrite decide_False].
  - intros j Hj. replace (S i + j) with (i + S j) by lia. apply Hk. simpl. lia.
Qed.

Lemma selected_from_Some (m : gmap string bool) (issues : list pystr) (i : nat)
    (chosen : list pystr) :
  selected_from m i issues = Some chosen -> chosen = chosen_from m i issues.
Proof.
  revert i chosen. induction issues as [|x rest IH]; intros i chosen; simpl.
  - by intros [= <-].
  - destruct (m !! checkbox_key i) as [b|] eqn:Hb; [|done].
    destruct (selected_from m (S i) rest) as [c|] eqn:Hc; [|done].
    intros [= <-]. rewrite (IH _ _ Hc).
    destruct b; [by rewrite decide_True | by rewrite decide_False].
Qed.

End Checkboxes.

(** ** The pieces of the pages *)

Section SessionBlocks.
Import Parser Session SessionSpec.

Variable lower : pystr -> pystr.
Variable inp : inputs.

Lemma adds_login P :
  P LoginFormShown -> P InvalidLogin -> adds P (login inp).
Proof. intros H1 H2. unfold login. script_steps; by apply adds_emit. Qed.

Lemma adds_register P : adds P (register inp).
Proof. unfold register. script_steps. Qed.

Lemma adds_history_page P :
  (forall v, P (HistoryShown v)) -> adds P (history_page lower inp).
Proof. intros H. unfold history_page. script_steps. by apply adds_emit. Qed.

Lemma adds_save P (output : option pystr) :
  (forall uid t c, P (SaveCodeCalled uid t c output)) -> adds P (save inp output).
Proof. intros H. unfold save. script_steps. by apply adds_emit. Qed.

Lemma adds_display_block P :
  (forall r, P (ReportShown r)) -> (forall j lab v, P (CheckboxShown j lab v)) ->
  adds P (display_block inp).
Proof.
  intros H1 H2. unfold display_block. script_steps; [by apply adds_emit|].
  by apply adds_checkbox_loop.
Qed.

Lemma adds_fixed_block P :
  (forall f r, P (FixedCodeShown f r)) -> adds P fixed_block.
Proof. intros H. unfold fixed_block. script_steps. by apply adds_emit. Qed.

Lemma adds_resolve_block P :
  P ResolveButtonShown -> (forall c t, P (RewriteCalled c t)) ->
  (forall uid t c o, P (SaveCodeCalled uid t c (Some o))) ->
  adds P (resolve_block inp).
Proof.
  intros H1 H2 H3. unfold resolve_block.
  script_steps; by apply adds_emit.
Qed.

Lemma preserves_save {X} (f : session -> X) (output : option pystr) :
  preserves f (save inp output).
Proof. unfold save. script_steps. Qed.

Lemma preserves_fixed_block {X} (f : session -> X) : preserves f fixed_block.
Proof. unfold fixed_block. script_steps. Qed.

Lemma preserves_resolve_block {X} (f : session -> X) :
  (forall v s, f (set_fixed_code v s) = f s) ->
  (forall v s, f (set_issue_resolved v s) = f s) ->
  preserves f (resolve_block inp).
Proof.
  intros H1 H2. unfold resolve_block. script_steps.
Qed.

End SessionBlocks.

(** ** The home page, piece by piece *)

Section HomePage.
Import Parser Session SessionSpec.

Variable lower : pystr -> pystr.
Variable inp : inputs.

Lemma scan_block_run (s : session) (l : list effect) :
  scan_block inp s l =
    if scan_requested inp s then
      match scan_vulnerabilities inp (in_user_code inp) with
      | Raises =>
          (Halt Exception, scan_started inp s, l ++ [ScanCalled (in_user_code inp)])
      | Returns result =>
          save inp None (scan_done inp result s) (l ++ [ScanCalled (in_user_code inp)])
      end
    else (Next tt, s, l).
Proof.
  unfold scan_block, scan_requested, bind, get, when.
  destruct (check_clicked inp || negb (scan_complete s)); [|done].
  destruct (nonempty (in_user_code inp) && nonempty (in_title inp)); [|done].
  cbn [andb modify emit].
  destruct (scan_vulnerabilities inp (in_user_code inp)); done.
Qed.

Lemma display_block_run (s : session) (l : list effect) :
  display_block inp s l =
    if nonempty (vulnerability_report s) then
      (Next tt,
       set_selected_issues
         (loop_map inp 0 (parse_vulnerabilities (vulnerability_report s))
            (selected_issues s)) s,
       l ++ ReportShown (vulnerability_report s)
         :: loop_effects inp 0 (parse_vulnerabilities (vulnerability_report s))
              (selected_issues s))
    else (Next tt, s, l).
Proof.
  unfold display_block, bind, get, when.
  destruct (nonempty (vulnerability_report s)); [|done].
  unfold emit. rewrite checkbox_loop_eq. by rewrite <- app_assoc.
Qed.

Lemma save_run (output : option pystr) (s : session) (l : list effect) :
  exists r new, save inp output s l = (r, s, l ++ new).
Proof.
  unfold save, bind, get. destruct (truthy_id (user_id s)) as [uid|].
  - unfold emit.
    destruct (save_code inp uid (in_title inp) (last_user_code s) output); simpl; eauto.
  - exists (Next tt), []. by rewrite app_nil_r.
Qed.

Lemma parse_empty : parse_vulnerabilities [] = [].
Proof. reflexivity. Qed.

(** After the checkboxes every issue of the report has its entry. *)
Lemma display_block_covers (s : session) (l : list effect) :
  let s' := (display_block inp s l).1.2 in
  vulnerability_report s' = vulnerability_report s
  /\ forall i, i < length (parse_vulnerabilities (vulnerability_report s)) ->
       is_Some (selected_issues s' !! checkbox_key i).
Proof.
  rewrite display_block_run.
  destruct (vulnerability_report s) as [|c r] eqn:E; cbn [nonempty fst snd].
  - rewrite E, parse_empty. split; [done|]. simpl. lia.
  - split; [done|]. cbn [selected_issues set_selected_issues]. intros i Hi.
    apply lookup_lt_is_Some in Hi as [issue Hi].
    rewrite (loop_map_lookup0 inp _ i _ issue Hi). done.
Qed.

(** From an empty mapping the checkboxes leave only entries of this run. *)
Lemma display_block_fresh (s : session) (l : list effect) :
  selected_issues s = ∅ -> only_new_entries inp (display_block inp s l).1.2.
Proof.
  intros Hm. rewrite display_block_run.
  destruct (nonempty (vulnerability_report s)); cbn [fst snd].
  - intros k b Hk. cbn [selected_issues set_selected_issues] in Hk.
    rewrite Hm in Hk.
    destruct (loop_map_is_Some0 inp _ ∅ k (mk_is_Some _ _ Hk))
      as [[? H]|(j & Hj & ->)]; [by rewrite lookup_empty in H|].
    apply lookup_lt_is_Some in Hj as [issue Hj].
    rewrite (loop_map_lookup0 inp _ j _ issue Hj) in Hk.
    rewrite lookup_empty in Hk. injection Hk as <-. by exists j, issue.
  - intros k b Hk. by rewrite Hm, lookup_empty in Hk.
Qed.

Lemma tail_of_home_preserves {X} (f : session -> X) :
  (forall v s, f (set_fixed_code v s) = f s) ->
  (forall v s, f (set_issue_resolved v s) = f s) ->
  preserves f (tail_of_home inp).
Proof.
  intros H1 H2. apply preserves_bind; [by apply preserves_resolve_block|].
  intros _. apply preserves_fixed_block.
Qed.

Lemma only_new_entries_eq (s s' : session) :
  selected_issues s' = selected_issues s ->
  vulnerability_report s' = vulnerability_report s ->
  only_new_entries inp s -> only_new_entries inp s'.
Proof. unfold only_new_entries. by intros -> ->. Qed.

Lemma home_page_run (s : session) (l : list effect) :
  home_page inp s l
  = bind (scan_block inp)
      (fun _ => bind (display_block inp) (fun _ => tail_of_home inp)) s l.
Proof. reflexivity. Qed.

(** After the scan has been started, whatever happens next, the mapping
    has only entries of this run. *)
Lemma after_scan_fresh (s : session) (l : list effect) :
  selected_issues s = ∅ ->
  only_new_entries inp
    (bind (display_block inp) (fun _ => tail_of_home inp) s l).1.2.
Proof.
  intros Hm. unfold bind at 1.
  pose proof (display_block_fresh s l Hm) as Hfresh.
  destruct (display_block inp s l) as [[[[]|h] s1] l1] eqn:E; simpl in Hfresh.
  - apply (only_new_entries_eq s1); [| |done].
    + by apply (tail_of_home_preserves selected_issues).
    + by apply (tail_of_home_preserves vulnerability_report).
  - done.
Qed.

End HomePage.

(** ** Runs that call the scanner *)

Section ScanRuns.
Import Parser Session SessionSpec.

Variable lower : pystr -> pystr.
Variable inp : inputs.

Lemma adds_after_scan P :
  (forall r, P (ReportShown r)) -> (forall j lab v, P (CheckboxShown j lab v)) ->
  P ResolveButtonShown -> (forall c t, P (RewriteCalled c t)) ->
  (forall uid t c o, P (SaveCodeCalled uid t c (Some o))) ->
  (forall f r, P (FixedCodeShown f r)) ->
  adds P (after_scan inp).
Proof.
  intros H1 H2 H3 H4 H5 H6. apply adds_bind; [by apply adds_display_block|].
  intros _. apply adds_bind; [by apply adds_resolve_block|].
  intros _. by apply adds_fixed_block.
Qed.

Lemma in_new P (e : effect) (new : list effect) :
  Forall P new -> In e new -> P e.
Proof. rewrite Forall_forall. intros H Hin. by apply H, list_elem_of_In. Qed.

Lemma empty_only_new (s : session) :
  selected_issues s = ∅ -> only_new_entries inp s.
Proof. intros Hm k b Hk. by rewrite Hm, lookup_empty in Hk. Qed.

Lemma home_page_cases (s : session) (l : list effect) :
  home_page inp s l =
    if scan_requested inp s then
      match scan_vulnerabilities inp (in_user_code inp) with
      | Raises =>
          (Halt Exception, scan_started inp s, l ++ [ScanCalled (in_user_code inp)])
      | Returns result =>
          bind (save inp None) (fun _ => after_scan inp)
            (scan_done inp result s) (l ++ [ScanCalled (in_user_code inp)])
      end
    else after_scan inp s l.
Proof.
  rewrite home_page_run. unfold bind at 1. rewrite scan_block_run.
  destruct (scan_requested inp s); [|done].
  by destruct (scan_vulnerabilities inp (in_user_code inp)).
Qed.

(** The home page: when the scanner is called, the mapping has only
    entries of this run at the end. *)
Lemma home_scan_fresh (s : session) (l : list effect) :
  exists new, (home_page inp s l).2 = l ++ new
    /\ forall code, In (ScanCalled code) new ->
         only_new_entries inp (home_page inp s l).1.2.
Proof.
  rewrite home_page_cases. destruct (scan_requested inp s).
  - destruct (scan_vulnerabilities inp (in_user_code inp)) as [result|].
    + unfold bind.
      destruct (save_run inp None (scan_done inp result s)
                  (l ++ [ScanCalled (in_user_code inp)])) as (r & new1 & ->).
      destruct r as [[]|h].
      * destruct (adds_after_scan (fun _ => True) ltac:(done) ltac:(done) I
                    ltac:(done) ltac:(done) ltac:(done)
                    (scan_done inp result s)
                    ((l ++ [ScanCalled (in_user_code inp)]) ++ new1))
          as (new2 & E2 & _).
        exists ([ScanCalled (in_user_code inp)] ++ new1 ++ new2).
        split; [by rewrite E2, <- !app_assoc|].
        intros _ _. by apply after_scan_fresh.
      * exists ([ScanCalled (in_user_code inp)] ++ new1).
        split; [by rewrite <- app_assoc|]. intros _ _. by apply empty_only_new.
    + exists [ScanCalled (in_user_code inp)]. split; [done|].
      intros _ _. by apply empty_only_new.
  - destruct (adds_after_scan no_scan_call ltac:(done) ltac:(done) I
                ltac:(done) ltac:(done) ltac:(done) s l) as (new & E & Hnew).
    exists new. split; [done|]. intros code Hin.
    by apply (in_new _ _ _ Hnew) in Hin.
Qed.

Lemma main_cases (s : session) (l : list effect) :
  main lower inp s l =
    if logged_in s then
      match menu inp with
      | Home => home_page inp s l
      | RecentCodes => history_page lower inp s l
      | Logout =>
          (Halt Rerun, set_user_id None (set_user None (set_logged_in false s)), l)
      end
    else (login inp >> register inp) s l.
Proof.
  unfold main. unfold bind at 1, get at 1.
  destruct (logged_in s); [|done]. by destruct (menu inp).
Qed.

Lemma main_scan_fresh (s : session) (l : list effect) :
  exists new, (main lower inp s l).2 = l ++ new
    /\ forall code, In (ScanCalled code) new ->
         only_new_entries inp (main lower inp s l).1.2.
Proof.
  rewrite main_cases. destruct (logged_in s).
  - destruct (menu inp).
    + apply home_scan_fresh.
    + destruct (adds_history_page lower inp no_scan_call ltac:(done) s l)
        as (new & E & Hnew).
      exists new. split; [done|]. intros code Hin.
      by apply (in_new _ _ _ Hnew) in Hin.
    + exists []. split; [by rewrite app_nil_r | done].
  - assert (adds no_scan_call (login inp >> register inp)) as H.
    { apply adds_bind; [by apply adds_login | intros _; apply adds_register]. }
    destruct (H s l) as (new & E & Hnew).
    exists new. split; [done|]. intros code Hin.
    by apply (in_new _ _ _ Hnew) in Hin.
Qed.

Lemma run_eq (s : session) :
  run lower inp s = main lower inp (after_callback inp s) [].
Proof. unfold run, after_callback, bind. by destruct (on_change inp). Qed.

End ScanRuns.

(** ** The resolve button *)

Section Resolve.
Import Parser Session SessionSpec.

Variable lower : pystr -> pystr.
Variable inp : inputs.

Lemma resolve_block_run (s : session) (l : list effect) :
  resolve_block inp s l =
    if show_resolve_button s && issues_selected s then
      if resolve_clicked inp then
        match selected_issues_text s with
        | None => (Halt Exception, s, l ++ [ResolveButtonShown])
        | Some text =>
            match rewrite_code_with_openai inp (last_user_code s) text with
            | Raises =>
                (Halt Exception, s,
                 (l ++ [ResolveButtonShown]) ++ [RewriteCalled (last_user_code s) text])
            | Returns fixed =>
                save inp (Some fixed)
                  (set_issue_resolved true (set_fixed_code fixed s))
                  ((l ++ [ResolveButtonShown]) ++ [RewriteCalled (last_user_code s) text])
            end
        end
      else (Next tt, s, l ++ [ResolveButtonShown])
    else (Next tt, s, l).
Proof.
  unfold resolve_block, bind, get, when.
  destruct (show_resolve_button s && issues_selected s); [|done].
  cbn [emit]. destruct (resolve_clicked inp); [|done].
  destruct (selected_issues_text s) as [text|]; [|done].
  cbn [emit]. by destruct (rewrite_code_with_openai inp (last_user_code s) text).
Qed.

Lemma display_block_shape P (s : session) (l : list effect) :
  (forall r, P (ReportShown r)) -> (forall j lab v, P (CheckboxShown j lab v)) ->
  exists s1 newd, display_block inp s l = (Next tt, s1, l ++ newd) /\ Forall P newd.
Proof.
  intros H1 H2. rewrite display_block_run.
  destruct (nonempty (vulnerability_report s)).
  - eexists _, _. split; [done|]. constructor; [done|].
    by apply loop_effects_checkboxes.
  - exists s, []. by rewrite app_nil_r.
Qed.

Lemma in_app3 (e : effect) (a b c : list effect) :
  In e (a ++ b ++ c) -> In e a \/ In e b \/ In e c.
Proof. rewrite !in_app_iff. tauto. Qed.

(** The end of the home page: what is asked of the rewrite collaborator. *)
Lemma tail_rewrite (s : session) (l : list effect) :
  exists new, (tail_of_home inp s l).2 = l ++ new
    /\ (forall code instr, In (RewriteCalled code instr) new ->
          code = last_user_code s /\ selected_issues_text s = Some instr)
    /\ (In ResolveButtonShown new -> resolve_clicked inp = true ->
        is_Some (selected_issues_text s) ->
        exists code instr, In (RewriteCalled code instr) new).
Proof.
  pose proof (adds_fixed_block outside_resolve ltac:(done)) as Hfixed.
  unfold tail_of_home, bind. rewrite resolve_block_run.
  destruct (show_resolve_button s && issues_selected s).
  - destruct (resolve_clicked inp).
    + destruct (selected_issues_text s) as [text|].
      * destruct (rewrite_code_with_openai inp (last_user_code s) text) as [fixed|].
        -- destruct (adds_save inp outside_resolve (Some fixed) ltac:(done)
                       (set_issue_resolved true (set_fixed_code fixed s))
                       ((l ++ [ResolveButtonShown])
                          ++ [RewriteCalled (last_user_code s) text]))
             as (new1 & E1 & H1).
           destruct (save inp (Some fixed) _ _) as [[[[]|h] s1] l1];
             simpl in E1; subst l1.
           ++ destruct (Hfixed s1 (((l ++ [ResolveButtonShown])
                          ++ [RewriteCalled (last_user_code s) text]) ++ new1))
                as (new2 & -> & H2).
              exists ([ResolveButtonShown; RewriteCalled (last_user_code s) text]
                        ++ new1 ++ new2).
              split; [by rewrite <- !app_assoc|]. split.
              ** intros code instr [[E|[E|[]]] | [Hin|Hin]]%in_app3;
                   [done | by injection E as <- <- | |].
                 --- by apply (in_new _ _ _ H1) in Hin.
                 --- by apply (in_new _ _ _ H2) in Hin.
              ** intros _ _ _. eexists _, _. right. by left.
           ++ exists ([ResolveButtonShown; RewriteCalled (last_user_code s) text]
                        ++ new1).
              split; [by rewrite <- !app_assoc|]. split.
              ** intros code instr [[E|[E|[]]] | Hin]%in_app_iff;
                   [done | by injection E as <- <- |].
                 by apply (in_new _ _ _ H1) in Hin.
              ** intros _ _ _. eexists _, _. right. by left.
        -- exists [ResolveButtonShown; RewriteCalled (last_user_code s) text].
           split; [by rewrite <- !app_assoc|]. split.
           ++ intros code instr [E|[E|[]]]; [done | by injection E as <- <-].
           ++ intros _ _ _. eexists _, _. right. by left.
      * exists [ResolveButtonShown]. split; [done|]. split.
        -- by intros code instr [E|[]].
        -- by intros _ _ [? ?].
    + destruct (Hfixed s (l ++ [ResolveButtonShown])) as (new2 & -> & H2).
      exists ([ResolveButtonShown] ++ new2).
      split; [by rewrite <- !app_assoc|]. split; [|done].
      intros code instr [[E|[]] | Hin]%in_app_iff; [done|].
      by apply (in_new _ _ _ H2) in Hin.
  - destruct (Hfixed s l) as (new2 & -> & H2). exists new2. split; [done|]. split.
    + intros code instr Hin. by apply (in_new _ _ _ H2) in Hin.
    + intros Hin. by apply (in_new _ _ _ H2) in Hin.
Qed.

Lemma selected_issues_text_Some (s : session) (instr : pystr) :
  selected_issues_text s = Some instr -> instr = instructions_of s.
Proof.
  unfold selected_issues_text, instructions_of.
  destruct (selected_from _ _ _) as [chosen|] eqn:E; [|done].
  intros [= <-]. by rewrite (selected_from_Some _ _ _ _ E).
Qed.

Lemma instructions_of_eq (s s' : session) :
  selected_issues s' = selected_issues s ->
  vulnerability_report s' = vulnerability_report s ->
  instructions_of s' = instructions_of s.
Proof. unfold instructions_of. by intros -> ->. Qed.

(** What the home page asks of the rewrite collaborator, after the scan. *)
Lemma after_scan_rewrite (s : session) (l : list effect) :
  exists new, (after_scan inp s l).2 = l ++ new
    /\ (forall code instr, In (RewriteCalled code instr) new ->
          code = last_user_code (after_scan inp s l).1.2
          /\ instr = instructions_of (after_scan inp s l).1.2)
    /\ (In ResolveButtonShown new -> resolve_clicked inp = true ->
        exists code instr, In (RewriteCalled code instr) new).
Proof.
  pose proof (display_block_covers inp s l) as [Hrep Hcov].
  unfold after_scan, bind.
  destruct (display_block_shape outside_resolve s l ltac:(done) ltac:(done))
    as (s1 & newd & E & Hd).
  rewrite E in *. cbn [fst snd] in *.
  destruct (tail_rewrite s1 (l ++ newd)) as (new2 & E2 & Ha & Hb).
  exists (newd ++ new2). split; [by rewrite E2, <- app_assoc|]. split.
  - intros code instr [Hin|Hin]%in_app_iff; [by apply (in_new _ _ _ Hd) in Hin|].
    destruct (Ha _ _ Hin) as [-> Hi]. split.
    + symmetry. by apply (tail_of_home_preserves inp last_user_code).
    + rewrite (selected_issues_text_Some _ _ Hi). symmetry.
      apply instructions_of_eq.
      * by apply (tail_of_home_preserves inp selected_issues).
      * by apply (tail_of_home_preserves inp vulnerability_report).
  - intros [Hin|Hin]%in_app_iff Hclick; [by apply (in_new _ _ _ Hd) in Hin|].
    destruct (Hb Hin Hclick) as (code & instr & H).
    + unfold selected_issues_text. rewrite selected_from_chosen; [done|].
      intros j Hj. rewrite Hrep in Hj. by apply Hcov.
    + exists code, instr. apply in_app_iff. by right.
Qed.

End Resolve.

Section ResolveRuns.
Import Parser Session SessionSpec.

Variable lower : pystr -> pystr.
Variable inp : inputs.

Lemma home_rewrite (s : session) (l : list effect) :
  exists new, (home_page inp s l).2 = l ++ new
    /\ (forall code instr, In (RewriteCalled code instr) new ->
          code = last_user_code (home_page inp s l).1.2
          /\ instr = instructions_of (home_page inp s l).1.2)
    /\ (In ResolveButtonShown new -> resolve_clicked inp = true ->
        exists code instr, In (RewriteCalled code instr) new).
Proof.
  rewrite home_page_cases. destruct (scan_requested inp s);
    [|apply after_scan_rewrite].
  destruct (scan_vulnerabilities inp (in_user_code inp)) as [result|].
  - unfold bind.
    destruct (adds_save inp outside_resolve None ltac:(done)
                (scan_done inp result s) (l ++ [ScanCalled (in_user_code inp)]))
      as (new1 & E1 & H1).
    destruct (save inp None _ _) as [[[[]|h] s1] l1]; simpl in E1; subst l1.
    + destruct (after_scan_rewrite inp s1
                  ((l ++ [ScanCalled (in_user_code inp)]) ++ new1))
        as (new2 & E2 & Ha & Hb).
      exists ([ScanCalled (in_user_code inp)] ++ new1 ++ new2).
      split; [by rewrite E2, <- !app_assoc|]. split.
      * intros code instr [[E|[]] | [Hin|Hin]]%in_app3; [done | |by apply Ha].
        by apply (in_new _ _ _ H1) in Hin.
      * intros [[E|[]] | [Hin|Hin]]%in_app3 Hclick; [done | |].
        -- by apply (in_new _ _ _ H1) in Hin.
        -- destruct (Hb Hin Hclick) as (code & instr & H).
           exists code, instr. rewrite !in_app_iff. by right; right.
    + exists ([ScanCalled (in_user_code inp)] ++ new1).
      split; [by rewrite <- !app_assoc|]. split.
      * intros code instr [[E|[]] | Hin]%in_app_iff; [done|].
        by apply (in_new _ _ _ H1) in Hin.
      * intros [[E|[]] | Hin]%in_app_iff; [done|].
        by apply (in_new _ _ _ H1) in Hin.
  - exists [ScanCalled (in_user_code inp)]. split; [done|]. split.
    + by intros code instr [E|[]].
    + by intros [E|[]].
Qed.

Lemma main_rewrite (s : session) (l : list effect) :
  exists new, (main lower inp s l).2 = l ++ new
    /\ (forall code instr, In (RewriteCalled code instr) new ->
          code = last_user_code (main lower inp s l).1.2
          /\ instr = instructions_of (main lower inp s l).1.2)
    /\ (In ResolveButtonShown new -> resolve_clicked inp = true ->
        exists code instr, In (RewriteCalled code instr) new).
Proof.
  rewrite main_cases. destruct (logged_in s).
  - destruct (menu inp).
    + apply home_rewrite.
    + destruct (adds_history_page lower inp outside_resolve ltac:(done) s l)
        as (new & E & Hnew).
      exists new. split; [done|].
      split; [intros code instr Hin | intros Hin]; by apply (in_new _ _ _ Hnew) in Hin.
    + exists []. split; [by rewrite app_nil_r|]. by split; [intros ? ? [] | intros []].
  - assert (adds outside_resolve (login inp >> register inp)) as H.
    { apply adds_bind; [by apply adds_login | intros _; apply adds_register]. }
    destruct (H s l) as (new & E & Hnew).
    exists new. split; [done|].
    split; [intros code instr Hin | intros Hin]; by apply (in_new _ _ _ Hnew) in Hin.
Qed.

End ResolveRuns.

(** ** When the rewrite fails *)

Section FailedRewrite.
Import Parser Session SessionSpec.

Variable lower : pystr -> pystr.
Variable inp : inputs.

Hypothesis rewrite_fails :
  forall code text, rewrite_code_with_openai inp code text = Raises.

Lemma resolve_block_failed (s : session) (l : list effect) :
  (resolve_block inp s l).1.2 = s
  /\ exists new, (resolve_block inp s l).2 = l ++ new /\ Forall no_populated_save new.
Proof.
  rewrite resolve_block_run.
  destruct (show_resolve_button s && issues_selected s);
    [|split; [done|]; exists []; by rewrite app_nil_r].
  destruct (resolve_clicked inp);
    [|split; [done|]; exists [ResolveButtonShown]; split; [done|]; by repeat constructor].
  destruct (selected_issues_text s) as [text|];
    [|split; [done|]; exists [ResolveButtonShown]; split; [done|]; by repeat constructor].
  rewrite rewrite_fails. split; [done|].
  exists [ResolveButtonShown; RewriteCalled (last_user_code s) text].
  split; [by rewrite <- app_assoc|]. by repeat constructor.
Qed.

Lemma tail_of_home_failed (s : session) (l : list effect) :
  (tail_of_home inp s l).1.2 = s.
Proof.
  unfold tail_of_home, bind. destruct (resolve_block_failed s l) as [E _].
  destruct (resolve_block inp s l) as [[[[]|h] s1] l1]; simpl in E; subst s1; [|done].
  apply (preserves_fixed_block (fun s => s)).
Qed.

Lemma loop_map_without (issues : list pystr) (i : nat) (m : gmap string bool) :
  loop_map (without_resolve_click inp) i issues m = loop_map inp i issues m.
Proof.
  revert i m. induction issues as [|x rest IH]; intros i m; [done|].
  simpl. by rewrite IH.
Qed.

Lemma display_block_without (s : session) (l : list effect) :
  (display_block (without_resolve_click inp) s l).1.2 = (display_block inp s l).1.2.
Proof.
  rewrite !display_block_run. destruct (nonempty (vulnerability_report s)); [|done].
  cbn [fst snd]. by rewrite loop_map_without.
Qed.

Lemma tail_of_home_without (s : session) (l : list effect) :
  (tail_of_home (without_resolve_click inp) s l).1.2 = s.
Proof.
  unfold tail_of_home, bind. rewrite resolve_block_run. cbn [resolve_clicked without_resolve_click].
  destruct (show_resolve_button s && issues_selected s);
    apply (preserves_fixed_block (fun s => s)).
Qed.

Lemma display_block_state (s : session) (l l' : list effect) :
  (display_block inp s l).1.2 = (display_block inp s l').1.2.
Proof.
  rewrite !display_block_run. by destruct (nonempty (vulnerability_report s)).
Qed.

(** With the rewrite failing, the home page ends in the session it would
    end in without the click. *)
Lemma after_scan_failed (s : session) (l l' : list effect) :
  (after_scan inp s l).1.2 = (after_scan (without_resolve_click inp) s l').1.2.
Proof.
  unfold after_scan, bind.
  pose proof (display_block_without s l') as E.
  pose proof (display_block_state s l l') as E0.
  destruct (display_block_shape inp (fun _ => True) s l ltac:(done) ltac:(done))
    as (s1 & newd & E1 & _).
  destruct (display_block_shape (without_resolve_click inp) (fun _ => True) s l'
              ltac:(done) ltac:(done)) as (s1' & newd' & E' & _).
  rewrite E1, E' in *. cbn [fst snd] in *.
  rewrite tail_of_home_failed, tail_of_home_without. congruence.
Qed.

End FailedRewrite.

Section FailedRewriteRuns.
Import Parser Session SessionSpec.

Variable lower : pystr -> pystr.
Variable inp : inputs.

Hypothesis rewrite_fails :
  forall code text, rewrite_code_with_openai inp code text = Raises.

Lemma home_page_failed (s : session) (l : list effect) :
  (home_page inp s l).1.2 = (home_page (without_resolve_click inp) s l).1.2.
Proof.
  rewrite !home_page_cases.
  change (scan_requested (without_resolve_click inp) s) with (scan_requested inp s).
  destruct (scan_requested inp s); [|by apply after_scan_failed].
  change (scan_vulnerabilities (without_resolve_click inp)
            (in_user_code (without_resolve_click inp)))
    with (scan_vulnerabilities inp (in_user_code inp)).
  destruct (scan_vulnerabilities inp (in_user_code inp)) as [result|]; [|done].
  unfold bind.
  change (save (without_resolve_click inp) None
            (scan_done (without_resolve_click inp) result s))
    with (save inp None (scan_done inp result s)).
  change (in_user_code (without_resolve_click inp)) with (in_user_code inp).
  destruct (save inp None _ _) as [[[[]|h] s1] l1]; [|done].
  by apply after_scan_failed.
Qed.

Lemma main_failed (s : session) (l : list effect) :
  (main lower inp s l).1.2 = (main lower (without_resolve_click inp) s l).1.2.
Proof.
  rewrite !main_cases. destruct (logged_in s); [|done].
  change (menu (without_resolve_click inp)) with (menu inp).
  destruct (menu inp); [|done..]. apply home_page_failed.
Qed.

Lemma run_failed (s : session) :
  state_after lower inp s = state_after lower (without_resolve_click inp) s.
Proof.
  unfold state_after. rewrite !run_eq.
  change (after_callback (without_resolve_click inp) s) with (after_callback inp s).
  apply main_failed.
Qed.

Lemma adds_scan_block P :
  (forall c, P (ScanCalled c)) -> (forall uid t c, P (SaveCodeCalled uid t c None)) ->
  adds P (scan_block inp).
Proof.
  intros H1 H2. unfold scan_block. script_steps; try (by apply adds_emit).
Qed.

Lemma adds_resolve_block_failed : adds no_populated_save (resolve_block inp).
Proof. intros s l. by destruct (resolve_block_failed inp rewrite_fails s l) as [_ H]. Qed.

Lemma adds_main_failed : adds no_populated_save (main lower inp).
Proof.
  intros s l. rewrite main_cases. destruct (logged_in s).
  - destruct (menu inp).
    + revert s l. unfold home_page.
      apply adds_bind; [by apply adds_scan_block | intros _].
      apply adds_bind; [by apply adds_display_block | intros _].
      apply adds_bind; [apply adds_resolve_block_failed | intros _].
      by apply adds_fixed_block.
    + by apply adds_history_page.
    + exists []. by rewrite app_nil_r.
  - revert s l.
    apply adds_bind; [by apply adds_login | intros _; apply adds_register].
Qed.

Lemma effects_failed (s : session) : Forall no_populated_save (effects_of lower inp s).
Proof.
  unfold effects_of. rewrite run_eq.
  by destruct (adds_main_failed (after_callback inp s) []) as (new & -> & H).
Qed.

End FailedRewriteRuns.

(** * The claims about the parser *)

Section ParserClaims.
Import Regex Parser ReportShape.

(** Where the pattern occurs, [findall] finds something. *)
Lemma findall_occurs (p : list atom) (s : pystr) :
  occurs p s -> findall p s <> [].
Proof.
  intros (before & tail & rest & -> & Hm).
  apply re_match_complete in Hm as [[gs rest'] Hm].
  induction before as [|x before IH].
  - unfold findall. destruct tail; simpl; by rewrite Hm.
  - destruct (re_match p (x :: before ++ tail)) as [[gs' r']|] eqn:E.
    + unfold findall. simpl. by rewrite E.
    + simpl. by rewrite findall_no_match.
Qed.

Lemma clean_report_no_occurrence : ~ occurs issue_pattern clean_report.
Proof. intros H. by apply findall_occurs in H. Qed.

Lemma issues_of_report (blocks : list (pystr * block)) (last_gap : pystr) :
  well_formed_report blocks last_gap = true ->
  issues (render_report blocks last_gap) = map (fun gb => fields (snd gb)) blocks.
Proof.
  unfold well_formed_report. intros [Hb Hg]%andb_true_iff.
  unfold issues. by rewrite findall_report, findall_gap, app_nil_r.
Qed.

(** C2, as amended: for every report made of k well-formed issue blocks
    (each after marker-free text, with marker-free text at the end),
    parse_vulnerabilities returns exactly k issue texts, in the order of
    the blocks, each formatted from the four fields of its block exactly
    as they stand between the labels and the delimiters of the pattern;
    the fields are not trimmed. *)
Theorem parse_well_formed_report (blocks : list (pystr * block)) (last_gap : pystr) :
  well_formed_report blocks last_gap = true ->
  issues (render_report blocks last_gap) = map (fun gb => fields (snd gb)) blocks
  /\ parse_vulnerabilities (render_report blocks last_gap)
     = map (fun gb => format_issue (fields (snd gb))) blocks
  /\ length (parse_vulnerabilities (render_report blocks last_gap)) = length blocks.
Proof.
  intros Hwf. pose proof (issues_of_report blocks last_gap Hwf) as E.
  split; [done|]. unfold parse_vulnerabilities. rewrite E, map_map.
  split; [done|]. by rewrite length_map.
Qed.

Lemma parse_well_formed_report_witness :
  well_formed_report [(report_header, assert_block); (code_lines, padded_block)]
    report_footer = true
  /\ parse_vulnerabilities
       (render_report [(report_header, assert_block); (code_lines, padded_block)]
          report_footer)
     = [format_issue (fields assert_block); format_issue (fields padded_block)].
Proof.
  split; [reflexivity|].
  apply (parse_well_formed_report
           [(report_header, assert_block); (code_lines, padded_block)] report_footer).
  reflexivity.
Defined.

(** C2, as stated, fails: the report with the one well-formed block
    [crlf_block], whose lines end in carriage return and line feed, yields
    one record whose description, confidence and location end with the
    carriage return.  ([padded_block], with blanks after the labels, yields
    fields that start with a blank.) *)
Lemma captured_fields_not_trimmed : ~ fields_come_out_trimmed.
Proof.
  intros H. destruct (H [([], crlf_block)] [] eq_refl) as [_ HF].
  rewrite (issues_of_report [([], crlf_block)] [] eq_refl) in HF.
  apply Forall_inv in HF. vm_compute in HF. discriminate.
Qed.

(** C8: parse_vulnerabilities is a total function of the report, and for
    every report in which the issue pattern does not occur, be it a clean
    scan or any other text, it returns the empty list. *)
Theorem parse_no_occurrence_empty (report : pystr) :
  ~ occurs issue_pattern report -> parse_vulnerabilities report = [].
Proof.
  intros H. unfold parse_vulnerabilities, issues. rewrite findall_none; [done|].
  intros a t ->. destruct (re_match issue_pattern t) as [[gs rest]|] eqn:E; [|done].
  exfalso. apply H. exists a, t, rest. split; [done|]. by apply (re_match_sound _ _ gs).
Qed.

Lemma parse_no_occurrence_empty_witness :
  ~ occurs issue_pattern clean_report /\ parse_vulnerabilities clean_report = [].
Proof.
  split; [exact clean_report_no_occurrence|].
  exact (parse_no_occurrence_empty clean_report clean_report_no_occurrence).
Defined.

(** C10: when the report ends in a well-formed issue block whose location
    line is not ended by a newline, parse_vulnerabilities returns the
    records of the blocks before it and omits that last block: one record
    fewer than there are blocks.  With the newline the last block is
    returned as well. *)
Theorem unterminated_block_omitted (blocks : list (pystr * block))
    (gap : pystr) (b : block) :
  well_formed_report blocks gap = true -> well_formed b = true ->
  parse_vulnerabilities (render_report blocks (gap ++ render_unterminated b))
  = map (fun gb => format_issue (fields (snd gb))) blocks
  /\ S (length (parse_vulnerabilities
                  (render_report blocks (gap ++ render_unterminated b))))
     = length (blocks ++ [(gap, b)])
  /\ parse_vulnerabilities (render_report blocks (gap ++ render_block b))
     = map (fun gb => format_issue (fields (snd gb))) (blocks ++ [(gap, b)]).
Proof.
  unfold well_formed_report. intros [Hbs Hgap]%andb_true_iff Hb.
  assert (parse_vulnerabilities (render_report blocks (gap ++ render_unterminated b))
          = map (fun gb => format_issue (fields (snd gb))) blocks) as E.
  { unfold parse_vulnerabilities, issues.
    by rewrite findall_report, findall_unterminated, app_nil_r, map_map. }
  split; [done|]. split.
  - rewrite E, length_map, length_app. simpl. lia.
  - unfold parse_vulnerabilities, issues. rewrite findall_report by done.
    rewrite <- (app_nil_r (render_block b)).
    change (gap ++ render_block b ++ []) with (render_report [(gap, b)] []).
    rewrite findall_report by (by simpl; rewrite Hgap, Hb).
    rewrite (findall_gap []) by done.
    by rewrite app_nil_r, <- map_app, map_map.
Qed.

Lemma unterminated_block_omitted_witness :
  well_formed_report [(report_header, assert_block)] code_lines = true
  /\ well_formed eval_block = true
  /\ parse_vulnerabilities
       (render_report [(report_header, assert_block)]
          (code_lines ++ render_unterminated eval_block))
     = [format_issue (fields assert_block)].
Proof.
  split; [reflexivity|]. split; [reflexivity|].
  apply (unterminated_block_omitted [(report_header, assert_block)]
           code_lines eval_block); reflexivity.
Defined.

End ParserClaims.

(** * The claims about the history *)

Section HistoryClaims.
Import History HistorySpec.
Open Scope Z_scope.

Lemma rows_of_In (lower : pystr -> pystr) (q : pystr)
    (start_date end_date : option date) (today now_again : date) (b : bucket)
    (recent_codes : list submission) (s : submission) :
  In s (rows_of lower q start_date end_date today now_again b recent_codes)
  <-> In s recent_codes
      /\ keeps lower q start_date end_date s (date_of s) = true
      /\ bucket_of today now_again (date_of s) = b.
Proof.
  unfold rows_of. rewrite filter_In, andb_true_iff, bool_decide_eq_true. tauto.
Qed.

Lemma group_rows (lower : pystr -> pystr) (q : pystr)
    (start_date end_date : option date) (today now_again : date)
    (recent_codes : list submission) :
  Forall parseable recent_codes ->
  exists g, group lower q start_date end_date today now_again recent_codes = Some g
    /\ forall b, g b = rows_of lower q start_date end_date today now_again b recent_codes.
Proof.
  intros Hp.
  destruct (group_loop_rows lower q start_date end_date today now_again recent_codes
              empty_groups Hp) as (g & E & Hg).
  exists g. split; [done|]. intros b. by rewrite Hg.
Qed.

Ltac ladder :=
  unfold bucket_of, yesterday, last_7_days, last_30_days, minus_days;
  repeat match goal with
    | |- context [Z.eqb ?a ?b] => destruct (Z.eqb_spec a b); try lia
    | |- context [Z.leb ?a ?b] => destruct (Z.leb_spec a b); try lia
    | |- context [Z.ltb ?a ?b] => destruct (Z.ltb_spec a b); try lia
    end; try reflexivity.

(** C3 (a defect of the code): line 93 reads the clock twice, once for
    [today] and once more for [yesterday], while the other windows are
    counted from [today].  When midnight falls between the two reads,
    first 2024-06-15 and then 2024-06-16, [yesterday] is 2024-06-15 too:
    the row of 2024-06-14, for which the first matching window is
    Yesterday, is filed under Previous 7 Days, and the page has no
    Yesterday group.  It is so on every day: with the second read a day
    later, [today - 1] goes to Previous 7 Days.  When both reads give the
    same date the ladder is the first window that holds the date, and
    the five dates of the scenario and the eight boundary dates are in
    their buckets. *)
Theorem yesterday_read_after_midnight :
  first_matching (ymd 2024 6 15) (ymd 2024 6 14) = Yesterday
  /\ bucket_of (ymd 2024 6 15) (ymd 2024 6 16) (ymd 2024 6 14) = Previous7Days
  /\ show_recent_codes_on_main ascii_lower [] None None
       (ymd 2024 6 15) (ymd 2024 6 16) sample_rows
     = Some (Groups
         [(Today, [sample_row "Demo" (ymd 2024 6 15)]);
          (Previous7Days, [sample_row "demo two" (ymd 2024 6 14);
                           sample_row "other" (ymd 2024 6 10)]);
          (Older, [sample_row "old demo" (ymd 2024 1 1)])])
  /\ (forall today, first_matching today (today - 1) = Yesterday
                    /\ bucket_of today (today + 1) (today - 1) = Previous7Days)
  /\ (forall today d, bucket_of today today d = first_matching today d)
  /\ (bucket_of (ymd 2024 6 15) (ymd 2024 6 15) (ymd 2024 6 15) = Today
      /\ bucket_of (ymd 2024 6 15) (ymd 2024 6 15) (ymd 2024 6 14) = Yesterday
      /\ bucket_of (ymd 2024 6 15) (ymd 2024 6 15) (ymd 2024 6 10) = Previous7Days
      /\ bucket_of (ymd 2024 6 15) (ymd 2024 6 15) (ymd 2024 5 20) = Previous30Days
      /\ bucket_of (ymd 2024 6 15) (ymd 2024 6 15) (ymd 2024 1 1) = Older)
  /\ (forall today,
        bucket_of today today today = Today
        /\ bucket_of today today (today - 1) = Yesterday
        /\ bucket_of today today (today - 6) = Previous7Days
        /\ bucket_of today today (today - 7) = Previous7Days
        /\ bucket_of today today (today - 8) = Previous30Days
        /\ bucket_of today today (today - 29) = Previous30Days
        /\ bucket_of today today (today - 30) = Previous30Days
        /\ bucket_of today today (today - 31) = Older).
Proof.
  split; [by vm_compute|]. split; [by vm_compute|]. split; [by vm_compute|].
  split; [|split; [|split]].
  - intros today. split.
    + rewrite <- bucket_of_first_matching. ladder.
    + ladder.
  - apply bucket_of_first_matching.
  - by vm_compute.
  - intros today. repeat split; ladder.
Qed.

(** ASCII texts: [str.lower] is the lower case of the letters A to Z. *)
Lemma lower_from_ascii (u : StrLower.tables) (before x : pystr) :
  ascii_rows u -> ascii_text x ->
  StrLower.lower_from u before x = ascii_lower x.
Proof.
  intros Hu Hx. revert before.
  induction Hx as [|c x Hc Hx IH]; intros before; [done|].
  cbn [StrLower.lower_from]. rewrite IH. unfold StrLower.lower_char.
  destruct (N.eqb_spec c StrLower.capital_sigma) as [->|_]; [done|].
  by rewrite (Hu c Hc).
Qed.

Lemma lower_ascii (u : StrLower.tables) (x : pystr) :
  ascii_rows u -> ascii_text x -> StrLower.lower u x = ascii_lower x.
Proof. apply lower_from_ascii. Qed.

Lemma same_letter_lower (a b : N) :
  same_letter a b
  <-> (if is_upper a then (a + 32)%N else a) = (if is_upper b then (b + 32)%N else b).
Proof.
  unfold same_letter, is_upper.
  destruct (N.leb_spec 65 a), (N.leb_spec a 90), (N.leb_spec 65 b), (N.leb_spec b 90);
    cbn [andb]; split; intros E; try (intuition (discriminate || lia)).
Qed.

Lemma same_letters_lower (q x : pystr) :
  Forall2 same_letter q x <-> ascii_lower q = ascii_lower x.
Proof.
  unfold ascii_lower. fold is_upper. split.
  - induction 1 as [|a b q x Hab _ IH]; [done|].
    cbn [map]. apply same_letter_lower in Hab. unfold is_upper in *. congruence.
  - revert x. induction q as [|a q IH]; intros [|b x] E; try done.
    injection E as Eab E. constructor; [by apply same_letter_lower | by apply IH].
Qed.

Lemma map_app_split {A B : Type} (f : A -> B) (t : list A) (k1 k2 : list B) :
  map f t = k1 ++ k2 ->
  exists t1 t2, t = t1 ++ t2 /\ map f t1 = k1 /\ map f t2 = k2.
Proof.
  revert t. induction k1 as [|y k1 IH]; intros t E.
  - by exists [], t.
  - destruct t as [|c t]; [done|]. injection E as <- E.
    destruct (IH t E) as (t1 & t2 & -> & <- & <-). by exists (c :: t1), t2.
Qed.

(** On lower-cased ASCII texts, to occur is to occur with the case of
    letters aside. *)
Lemma substring_ascii_lower (q t : pystr) :
  substring (ascii_lower q) (ascii_lower t) <-> occurs_ignoring_case q t.
Proof.
  unfold substring, occurs_ignoring_case. split.
  - intros (k1 & k2 & E). unfold ascii_lower at 1 in E.
    apply map_app_split in E as (a & r & -> & <- & E).
    apply map_app_split in E as (x & b & -> & E & <-).
    exists a, x, b. split; [done|]. by apply same_letters_lower.
  - intros (a & x & b & -> & H). apply same_letters_lower in H.
    exists (ascii_lower a), (ascii_lower b). unfold ascii_lower in *.
    by rewrite !map_app, H.
Qed.

Lemma text_matches_ascii (u : StrLower.tables) (q : pystr) (s : submission) :
  ascii_rows u -> ascii_text q ->
  ascii_text (title s) -> ascii_text (input_code s) ->
  text_matches (StrLower.lower u) q s <-> text_occurs q s.
Proof.
  intros Hu Hq Ht Hc. unfold text_matches, text_occurs.
  rewrite !(lower_ascii u) by done. by rewrite !substring_ascii_lower.
Qed.

(** C4, as amended: when the timestamps of the rows can be read, a row
    is kept (it is in one of the buckets) iff it is a row of the input
    and both conditions hold: the search text is empty or, put in lower
    case by [str.lower], occurs in the title put in lower case or in the
    input code put in lower case; and the row's calendar date is not
    before the start date, when one is set, and not after the end date,
    when one is set.  For a search text, a title and an input code of
    ASCII characters the text condition is that the search text occurs
    in the title or in the input code, the case of letters aside.  With
    the same day as start and end, the dates in range are exactly that
    day. *)
Theorem history_filter_conjunctive (u : StrLower.tables) (q : pystr)
    (start_date end_date : option date) (today now_again : date)
    (recent_codes : list submission) :
  Forall parseable recent_codes ->
  exists g, group (StrLower.lower u) q start_date end_date today now_again
              recent_codes = Some g
    /\ (forall s, (exists b, In s (g b))
                  <-> In s recent_codes /\ text_matches (StrLower.lower u) q s
                      /\ date_in_range start_date end_date (date_of s))
    /\ (forall s, ascii_rows u -> ascii_text q ->
                  ascii_text (title s) -> ascii_text (input_code s) ->
                  (text_matches (StrLower.lower u) q s <-> text_occurs q s))
    /\ (forall s d, keeps (StrLower.lower u) q start_date end_date s d = true
                    <-> text_matches (StrLower.lower u) q s
                        /\ date_in_range start_date end_date d)
    /\ (forall day d, date_in_range (Some day) (Some day) d <-> d = day).
Proof.
  intros Hp.
  destruct (group_rows (StrLower.lower u) q start_date end_date today now_again
              recent_codes Hp) as (g & E & Hg).
  exists g. split; [done|]. split; [|split; [|split]].
  - intros s. split.
    + intros [b Hin]. rewrite Hg, rows_of_In, keeps_spec in Hin. tauto.
    + intros (Hin & Ht & Hd). exists (bucket_of today now_again (date_of s)).
      rewrite Hg, rows_of_In, keeps_spec. tauto.
  - intros s. apply text_matches_ascii.
  - intros s d. apply keeps_spec.
  - intros day d. unfold date_in_range. split.
    + intros [H1 H2]. specialize (H1 day eq_refl). specialize (H2 day eq_refl). lia.
    + intros ->. split; intros ? [= <-]; lia.
Qed.

Lemma history_filter_conjunctive_witness :
  Forall parseable sample_rows
  /\ exists g, group (StrLower.lower greek_rows) (lit "DEMO")
                 (Some (ymd 2024 6 14)) (Some (ymd 2024 6 14))
                 (ymd 2024 6 15) (ymd 2024 6 15) sample_rows = Some g
       /\ (exists b, In (sample_row "demo two" (ymd 2024 6 14)) (g b))
       /\ ~ (exists b, In (sample_row "Demo" (ymd 2024 6 15)) (g b))
       /\ ~ (exists b, In (sample_row "other" (ymd 2024 6 10)) (g b)).
Proof.
  assert (Forall parseable sample_rows) as Hp by (repeat constructor; discriminate).
  split; [exact Hp|].
  destruct (history_filter_conjunctive greek_rows (lit "DEMO")
              (Some (ymd 2024 6 14)) (Some (ymd 2024 6 14))
              (ymd 2024 6 15) (ymd 2024 6 15) sample_rows Hp)
    as (g & E & Hg & Hascii & _ & Hday).
  assert (ascii_rows greek_rows) as Hu.
  { intros c Hc. unfold greek_rows, greek_capital. cbn [StrLower.to_lower_full].
    destruct (is_upper c); [done|].
    replace ((913 <=? c)%N) with false; [done|]. symmetry. apply N.leb_gt. lia. }
  exists g. split; [exact E|]. split; [|split].
  - apply Hg. split; [right; by left|]. split.
    + apply Hascii; [done | by repeat constructor..|].
      right. left. exists [], (lit "demo"), (lit " two"). split; [done|].
      repeat constructor; right; left; by vm_compute.
    + by apply Hday.
  - intros Hin. apply Hg in Hin as (_ & _ & Hd). apply Hday in Hd. by vm_compute in Hd.
  - intros Hin. apply Hg in Hin as (_ & _ & Hd). apply Hday in Hd. by vm_compute in Hd.
Defined.

(** C4, as stated, fails: the search text in Greek capitals omicron
    sigma is the start of the title omicron sigma omicron, so it occurs
    in the title even with the case of letters counted.  [str.lower]
    makes the sigma that ends the search text the final small sigma and
    the sigma inside the title the other small sigma; the lower-cased
    search text does not occur in the lower-cased title, and the row is
    dropped. *)
Lemma verbatim_occurrence_dropped :
  ~ filter_ignores_case (StrLower.lower greek_rows).
Proof.
  intros H.
  pose (row := {| title := greek_title; input_code := lit "assert x";
                  output_code := None;
                  created_at := {| dt_date := ymd 2024 6 15; dt_second := 3600;
                                   dt_microsecond := 250000 |} |}).
  assert (keeps (StrLower.lower greek_rows) greek_query None None row
            (ymd 2024 6 15) = true) as Hkept.
  { apply H. split.
    - right. left. exists [], greek_query, [927%N]. split; [done|].
      repeat constructor; by left.
    - split; intros ? [=]. }
  by vm_compute in Hkept.
Qed.

End HistoryClaims.

(** * The claims about the session *)

Section SessionClaims.
Import Parser Session SessionSpec LoopSpec.

Lemma run_all_reachable (lower : pystr -> pystr) (runs : list inputs) (s : session) :
  reachable lower s -> reachable lower (run_all lower runs s).
Proof.
  revert s. induction runs as [|inp runs IH]; intros s Hs; [done|].
  simpl. apply IH. by constructor.
Qed.

(** C1, on the code: the session [both_ticked] is reached by signing in,
    scanning, and ticking the two issues found.  When the user then scans
    again and the scanner finds nothing, the mapping is emptied, no entry
    reads true, and the resolve button is on the page all the same: the
    two flags that gate it still hold what the callback last stored.
    And in the run in which the first issue is ticked the button is not
    shown although an entry reads true: the callback ran before the
    checkbox wrote its entry. *)
Theorem resolve_button_stale_after_scan :
  reachable id both_ticked
  /\ resolve_shown id scan_again both_ticked = true
  /\ selected_issues (state_after id scan_again both_ticked) = ∅
  /\ any_selected (selected_issues (state_after id scan_again both_ticked)) = false
  /\ resolve_shown id tick_first (run_all id [sign_in; first_scan] initial_session)
     = false
  /\ any_selected
       (selected_issues
          (state_after id tick_first
             (run_all id [sign_in; first_scan] initial_session))) = true.
Proof.
  split; [apply run_all_reachable; constructor|].
  repeat split; by vm_compute.
Qed.

(** C5: in every run in which the scanner is called, whatever the session
    held before and however the run ends, every entry of the selection
    mapping at the end of the run belongs to an issue of the report now in
    the session and holds what that issue's checkbox returned in this run
    when called with the default false: the mapping was emptied before
    the scanner was called, and no entry made for an earlier report is
    left. *)
Theorem new_scan_clears_selection (lower : pystr -> pystr) (inp : inputs)
    (s : session) (code : pystr) :
  In (ScanCalled code) (effects_of lower inp s) ->
  only_new_entries inp (state_after lower inp s)
  /\ selected_issues (scan_started inp (after_callback inp s)) = ∅.
Proof.
  unfold effects_of, state_after. rewrite run_eq. intros Hin.
  destruct (main_scan_fresh lower inp (after_callback inp s) []) as (new & E & H).
  rewrite E in Hin. split; [by apply (H code) | done].
Qed.

Lemma new_scan_clears_selection_witness :
  In (ScanCalled (lit "assert x")) (effects_of id scan_again both_ticked)
  /\ only_new_entries scan_again (state_after id scan_again both_ticked).
Proof.
  assert (In (ScanCalled (lit "assert x")) (effects_of id scan_again both_ticked))
    as Hin by (vm_compute; by left).
  split; [exact Hin|].
  exact (proj1 (new_scan_clears_selection id scan_again both_ticked
                  (lit "assert x") Hin)).
Defined.

(** C6: whenever a run calls the rewrite collaborator, the code it hands
    over is last_user_code and the instructions are the texts of the
    issues of the current report whose entry of the selection mapping is
    true, in ascending index order, joined by newlines; and a click on the
    resolve button of a run always reaches that call (no entry is
    missing when the entries are read). *)
Theorem resolve_instructions_selected_issues (lower : pystr -> pystr)
    (inp : inputs) (s : session) :
  (forall code instr,
      In (RewriteCalled code instr) (effects_of lower inp s) ->
      code = last_user_code (state_after lower inp s)
      /\ instr = instructions_of (state_after lower inp s))
  /\ (resolve_shown lower inp s = true -> resolve_clicked inp = true ->
      exists code instr, In (RewriteCalled code instr) (effects_of lower inp s)).
Proof.
  unfold resolve_shown, effects_of, state_after. rewrite run_eq.
  destruct (main_rewrite lower inp (after_callback inp s) [])
    as (new & E & Ha & Hb).
  rewrite E. split; [exact Ha|].
  intros Hshown Hclick. apply Hb; [|done].
  apply existsb_exists in Hshown as (e & Hin & He). by destruct e.
Qed.

Lemma resolve_instructions_selected_issues_witness :
  resolve_shown id click_resolve both_ticked = true
  /\ resolve_clicked click_resolve = true
  /\ In (RewriteCalled (lit "assert x")
           (join [nl] (map (fun b => format_issue (ReportShape.fields b))
                         [ReportShape.assert_block; ReportShape.eval_block])))
        (effects_of id click_resolve both_ticked)
  /\ join [nl] (map (fun b => format_issue (ReportShape.fields b))
                  [ReportShape.assert_block; ReportShape.eval_block])
     = instructions_of (state_after id click_resolve both_ticked).
Proof.
  split; [by vm_compute|]. split; [reflexivity|].
  assert (In (RewriteCalled (lit "assert x")
                (join [nl] (map (fun b => format_issue (ReportShape.fields b))
                              [ReportShape.assert_block; ReportShape.eval_block])))
             (effects_of id click_resolve both_ticked)) as Hin.
  { vm_compute. tauto. }
  split; [exact Hin|].
  exact (proj2 (proj1 (resolve_instructions_selected_issues id click_resolve
                         both_ticked) _ _ Hin)).
Defined.

(** C7: when the rewrite collaborator raises, the resolve interaction
    leaves the session as it found it, so issue_resolved is not set and
    fixed_code is not overwritten; the run ends in the session it would
    have ended in without the click; and no run asks the persistence
    collaborator to save a submission with an output. *)
Theorem failed_rewrite_leaves_session (lower : pystr -> pystr) (inp : inputs) :
  (forall code text, rewrite_code_with_openai inp code text = Raises) ->
  (forall s l, (resolve_block inp s l).1.2 = s)
  /\ (forall s l, issue_resolved (resolve_block inp s l).1.2 = issue_resolved s
                  /\ fixed_code (resolve_block inp s l).1.2 = fixed_code s)
  /\ (forall s, state_after lower inp s
                = state_after lower (without_resolve_click inp) s)
  /\ (forall s, Forall no_populated_save (effects_of lower inp s)).
Proof.
  intros Hfail.
  assert (forall s l, (resolve_block inp s l).1.2 = s) as Hsame
    by (intros s l; apply (resolve_block_failed inp Hfail)).
  split; [done|]. split; [by intros s l; rewrite Hsame|]. split.
  - intros s. by apply run_failed.
  - intros s. by apply effects_failed.
Qed.

Lemma failed_rewrite_leaves_session_witness :
  (forall code text,
      rewrite_code_with_openai click_resolve_failing code text = Raises)
  /\ state_after id click_resolve_failing both_ticked
     = state_after id (without_resolve_click click_resolve_failing) both_ticked
  /\ issue_resolved (state_after id click_resolve_failing both_ticked) = false.
Proof.
  assert (forall code text,
             rewrite_code_with_openai click_resolve_failing code text = Raises)
    as Hfail by reflexivity.
  split; [exact Hfail|].
  destruct (failed_rewrite_leaves_session id click_resolve_failing Hfail)
    as (_ & _ & Hrun & _).
  split; [exact (Hrun both_ticked) | by vm_compute].
Defined.

Lemma set_selected_issues_twice (m m' : gmap string bool) (s : session) :
  set_selected_issues m (set_selected_issues m' s) = set_selected_issues m s.
Proof. by destruct s. Qed.

Lemma loop_map_app (inp : inputs) (l1 l2 : list pystr) (i : nat)
    (m : gmap string bool) :
  loop_map inp i (l1 ++ l2) m
  = loop_map inp (i + length l1) l2 (loop_map inp i l1 m).
Proof.
  revert i m. induction l1 as [|x l1 IH]; intros i m.
  - by rewrite Nat.add_0_r.
  - cbn [app loop_map length]. rewrite IH.
    by replace (i + S (length l1)) with (S i + length l1) by lia.
Qed.

Lemma loop_effects_app (inp : inputs) (l1 l2 : list pystr) (i : nat)
    (m : gmap string bool) :
  loop_effects inp i (l1 ++ l2) m
  = loop_effects inp i l1 m
    ++ loop_effects inp (i + length l1) l2 (loop_map inp i l1 m).
Proof.
  revert i m. induction l1 as [|x l1 IH]; intros i m.
  - by rewrite Nat.add_0_r.
  - cbn [app loop_map loop_effects length]. rewrite IH.
    by replace (i + S (length l1)) with (S i + length l1) by lia.
Qed.

(** The loop over a list is the loop over its start, then the loop over
    its end. *)
Lemma checkbox_loop_app (inp : inputs) (l1 l2 : list pystr) (i : nat)
    (s : session) (l : list effect) :
  checkbox_loop inp i (l1 ++ l2) s l
  = (checkbox_loop inp i l1 >> checkbox_loop inp (i + length l1) l2) s l.
Proof.
  unfold bind. rewrite !checkbox_loop_eq.
  cbn [selected_issues set_selected_issues].
  rewrite set_selected_issues_twice.
  replace (selected_issues (set_selected_issues (loop_map inp i l1 (selected_issues s)) s))
    with (loop_map inp i l1 (selected_issues s)) by (by destruct s).
  by rewrite loop_map_app, loop_effects_app, app_assoc.
Qed.

(** The turns of the issues before [i] leave the entry of [i] alone. *)
Lemma loop_map_before (inp : inputs) (issues : list pystr) (i k : nat)
    (m : gmap string bool) :
  i + length issues <= k ->
  loop_map inp i issues m !! checkbox_key k = m !! checkbox_key k.
Proof.
  revert i m. induction issues as [|x rest IH]; intros i m Hk; [done|].
  cbn [loop_map length] in *. rewrite IH by lia.
  apply lookup_insert_ne. intros E%checkbox_key_inj. lia.
Qed.

(** The checkboxes of a render, with the values they are called with. *)
Lemma loop_effects_imap (inp : inputs) (issues : list pystr) (i : nat)
    (m : gmap string bool) :
  loop_effects inp i issues m
  = imap (fun j issue =>
            CheckboxShown (i + j) issue
              (default false (m !! checkbox_key (i + j)))) issues.
Proof.
  revert i m. induction issues as [|x rest IH]; intros i m; [done|].
  cbn [loop_effects imap]. rewrite Nat.add_0_r. f_equal.
  rewrite IH. apply imap_ext. intros j issue _. cbn [compose].
  replace (S i + j) with (i + S j) by lia.
  rewrite lookup_insert_ne; [done|]. intros E%checkbox_key_inj. lia.
Qed.

(** C9: in every render of the issue list (the report is not empty) the
    loop goes to its end, and every issue has its turn: for the issue of
    index [i], once the issues before it have had theirs, lines 214-215
    run, and then the mapping has for [i] the entry false when the
    mapping had none for it at the start of the render, and the entry it
    had otherwise; the other entries are as they were before the step.
    The checkbox of the issue is called with that value, one checkbox
    per issue in the order of the parse, and at the end of the render
    every issue has an entry. *)
Theorem ensure_defaults_without_clobbering (inp : inputs) (s : session) :
  nonempty (vulnerability_report s) = true ->
  (display_block inp s []).1.1 = Next tt
  /\ (display_block inp s []).2
     = ReportShown (vulnerability_report s)
       :: imap (fun i issue =>
                  CheckboxShown i issue
                    (default false (selected_issues s !! checkbox_key i)))
            (parse_vulnerabilities (vulnerability_report s))
  /\ forall i issue,
       parse_vulnerabilities (vulnerability_report s) !! i = Some issue ->
       checkbox_loop inp 0 (parse_vulnerabilities (vulnerability_report s)) s []
       = (checkbox_loop inp 0
            (take i (parse_vulnerabilities (vulnerability_report s))) >>
          checkbox_loop inp i
            (issue :: drop (S i) (parse_vulnerabilities (vulnerability_report s))))
           s []
       /\ (selected_issues s !! checkbox_key i = None ->
           ensured inp s i !! checkbox_key i = Some false)
       /\ (forall b, selected_issues s !! checkbox_key i = Some b ->
                     ensured inp s i !! checkbox_key i = Some b)
       /\ (forall key, key <> checkbox_key i ->
                       ensured inp s i !! key
                       = selected_issues (reaches inp s i) !! key)
       /\ is_Some (selected_issues (display_block inp s []).1.2 !! checkbox_key i).
Proof.
  intros Hne. rewrite display_block_run, Hne. cbn [fst snd app].
  split; [done|]. split; [by rewrite loop_effects_imap|].
  intros i issue Hi.
  set (issues := parse_vulnerabilities (vulnerability_report s)) in *.
  assert (i < length issues) as Hlt by (by apply lookup_lt_Some in Hi).
  assert (selected_issues (reaches inp s i) !! checkbox_key i
          = selected_issues s !! checkbox_key i) as Hsame.
  { unfold reaches. fold issues. rewrite checkbox_loop_eq.
    cbn [fst snd selected_issues set_selected_issues].
    replace (selected_issues (set_selected_issues
               (loop_map inp 0 (take i issues) (selected_issues s)) s))
      with (loop_map inp 0 (take i issues) (selected_issues s)) by (by destruct s).
    apply loop_map_before. rewrite length_take. lia. }
  split; [|split; [|split; [|split]]].
  - rewrite <- (take_drop_middle issues i issue Hi) at 1.
    rewrite checkbox_loop_app. by rewrite length_take_le by lia.
  - intros Hnone. unfold ensured. by rewrite ensure_lookup, Hsame, Hnone.
  - intros b Hb. unfold ensured. by rewrite ensure_lookup, Hsame, Hb.
  - intros key Hkey. unfold ensured, ensure.
    destruct (selected_issues (reaches inp s i) !! checkbox_key i); [done|].
    by rewrite lookup_insert_ne.
  - cbn [selected_issues set_selected_issues].
    replace (selected_issues (set_selected_issues
               (loop_map inp 0 issues (selected_issues s)) s))
      with (loop_map inp 0 issues (selected_issues s)) by (by destruct s).
    by rewrite (loop_map_lookup0 inp issues i _ issue Hi).
Qed.

Lemma ensure_defaults_without_clobbering_witness :
  nonempty (vulnerability_report first_entry_only) = true
  /\ selected_issues first_entry_only !! checkbox_key 0 = Some true
  /\ selected_issues first_entry_only !! checkbox_key 1 = None
  /\ ensured tick_first first_entry_only 0 !! checkbox_key 0 = Some true
  /\ ensured tick_first first_entry_only 1 !! checkbox_key 1 = Some false
  /\ (display_block tick_first first_entry_only []).2
     = [ReportShown ReportShape.two_issue_report;
        CheckboxShown 0 (format_issue (ReportShape.fields ReportShape.assert_block)) true;
        CheckboxShown 1 (format_issue (ReportShape.fields ReportShape.eval_block)) false].
Proof.
  assert (nonempty (vulnerability_report first_entry_only) = true) as Hne
    by (by vm_compute).
  assert (selected_issues first_entry_only !! checkbox_key 0 = Some true) as H0
    by (by vm_compute).
  assert (selected_issues first_entry_only !! checkbox_key 1 = None) as H1
    by (by vm_compute).
  destruct (ensure_defaults_without_clobbering tick_first first_entry_only Hne)
    as (_ & Heff & Hstep).
  split; [exact Hne|]. split; [exact H0|]. split; [exact H1|].
  split; [|split].
  - destruct (Hstep 0 (format_issue (ReportShape.fields ReportShape.assert_block)))
      as (_ & _ & Hkeep & _); [by vm_compute|]. exact (Hkeep true H0).
  - destruct (Hstep 1 (format_issue (ReportShape.fields ReportShape.eval_block)))
      as (_ & Hdefault & _); [by vm_compute|]. exact (Hdefault H1).
  - rewrite Heff. by vm_compute.
Defined.

End SessionClaims.

(** * Further properties of the code *)

(** ** The parser on any report *)

Section Captures.
Import Occurrence.

Implicit Types (k : pystr -> option result) (p : list atom) (s : pystr).

(** The group [(.*?)] takes is the shortest with which the rest of the
    pattern matches. *)
Lemma lazy_group_minimal k acc s r :
  lazy_group k acc s = Some r ->
  exists g s' gs rest,
    s = g ++ s' /\ k s' = Some (gs, rest) /\ r = ((rev acc ++ g) :: gs, rest)
    /\ forall g1 g2, g = g1 ++ g2 -> g2 <> [] -> k (g2 ++ s') = None.
Proof.
  revert acc. induction s as [|x s IH]; intros acc; simpl.
  - destruct (k []) as [[gs rest]|] eqn:E; [|done].
    intros [= <-]. exists [], [], gs, rest. rewrite !app_nil_r.
    repeat split; try done. intros g1 g2 Hg Hne. by destruct g1, g2.
  - destruct (k (x :: s)) as [[gs rest]|] eqn:E.
    + intros [= <-]. exists [], (x :: s), gs, rest. rewrite !app_nil_r.
      repeat split; try done. intros g1 g2 Hg Hne. by destruct g1, g2.
    + intros H. apply IH in H as (g & s' & gs & rest & -> & Hk & -> & Hmin).
      exists (x :: g), s', gs, rest. simpl. rewrite <- app_assoc.
      repeat split; try done.
      intros g1 g2 Hg Hne. destruct g1 as [|y g1]; simpl in Hg.
      * by subst g2.
      * injection Hg as -> ->. by apply (Hmin g1 g2).
Qed.

Lemma re_match_lits_inv (l : pystr) p s r :
  re_match (map Lit l ++ p) s = Some r ->
  exists s', s = l ++ s' /\ re_match p s' = Some r.
Proof.
  revert s. induction l as [|c l IH]; intros s; simpl.
  - by exists s.
  - destruct s as [|x s]; [done|]. destruct (N.eqb_spec x c) as [->|]; [|done].
    intros H. destruct (IH _ H) as (s' & -> & Hm). by exists s'.
Qed.

Lemma re_match_lit_inv (c : N) p s r :
  re_match (Lit c :: p) s = Some r ->
  exists s', s = c :: s' /\ re_match p s' = Some r.
Proof. apply (re_match_lits_inv [c]). Qed.

Lemma re_match_group_inv p s gs rest :
  re_match (LazyGroup :: p) s = Some (gs, rest) ->
  exists g s' gs',
    s = g ++ s' /\ re_match p s' = Some (gs', rest) /\ gs = g :: gs'
    /\ forall g1 g2, g = g1 ++ g2 -> g2 <> [] -> re_match p (g2 ++ s') = None.
Proof.
  rewrite re_match_group. intros H.
  apply lazy_group_minimal in H as (g & s' & gs' & rest' & -> & Hk & [= -> ->] & Hmin).
  by exists g, s', gs'.
Qed.

Lemma re_match_spaces_inv p s r :
  re_match (Spaces1 :: p) s = Some r ->
  exists w s', blank w = true /\ s = w ++ s' /\ re_match p s' = Some r.
Proof.
  simpl. destruct s as [|x s]; [done|]. destruct (is_space x) eqn:Hx; [|done].
  intros H. apply greedy_spaces_inv in H as (w & s' & -> & Hw & Hk).
  exists (x :: w), s'. simpl. by rewrite Hx, Hw.
Qed.

(** Where the pattern matches, the text is an issue block with blank
    separators and a location of one line, and the groups are its fields. *)
Lemma re_match_is_block (v rest : pystr) (gs : list pystr) :
  re_match issue_pattern v = Some (gs, rest) ->
  exists b, separated b = true /\ contains (loc b) [nl] = false
    /\ v = render_block b ++ rest /\ gs = fields b.
Proof.
  rewrite issue_pattern_stages. intros H.
  apply re_match_lits_inv in H as (v1 & -> & H).
  apply re_match_group_inv in H as (d & v2 & gs1 & -> & H & -> & _).
  apply re_match_lit_inv in H as (v3 & -> & H).
  apply re_match_spaces_inv in H as (w1 & v4 & Hw1 & -> & H).
  apply re_match_lits_inv in H as (v5 & -> & H).
  apply re_match_group_inv in H as (s & v6 & gs2 & -> & H & -> & _).
  apply re_match_spaces_inv in H as (w2 & v7 & Hw2 & -> & H).
  apply re_match_lits_inv in H as (v8 & -> & H).
  apply re_match_group_inv in H as (c & v9 & gs3 & -> & H & -> & _).
  apply re_match_lit_inv in H as (v10 & -> & H).
  apply re_match_spaces_inv in H as (w3 & v11 & Hw3 & -> & H).
  apply re_match_lits_inv in H as (v12 & -> & H).
  apply re_match_group_inv in H as (l & v13 & gs4 & -> & H & -> & Hmin).
  apply re_match_lit_inv in H as (v14 & -> & H).
  injection H as <- <-.
  exists {| desc := d; ws1 := w1; sev := s; ws2 := w2; conf := c; ws3 := w3; loc := l |}.
  unfold separated. cbn [ws1 ws2 ws3 loc desc sev conf fields].
  rewrite Hw1, Hw2, Hw3. split; [done|]. split; [|split; [|done]].
  - destruct (contains l [nl]) eqn:E; [|done].
    apply contains_spec in E as (a & b & ->).
    specialize (Hmin a ([nl] ++ b) eq_refl ltac:(done)).
    simpl in Hmin. discriminate.
  - rewrite render_block_stages. by repeat rewrite <- app_assoc.
Qed.

Lemma render_report_cons (x : N) (blocks : list (pystr * block)) (last_gap : pystr) :
  exists blocks' last_gap',
    x :: render_report blocks last_gap = render_report blocks' last_gap'
    /\ map snd blocks' = map snd blocks.
Proof.
  destruct blocks as [|[gap b] blocks].
  - by exists [], (x :: last_gap).
  - by exists ((x :: gap, b) :: blocks), last_gap.
Qed.

(** Every text is cut by [findall] into the blocks it reports and the
    text between them. *)
Lemma findall_cuts (n : nat) (s : pystr) :
  length s <= n ->
  exists blocks last_gap,
    s = render_report blocks last_gap
    /\ Forall (fun gb => separated (snd gb) = true
                         /\ contains (loc (snd gb)) [nl] = false) blocks
    /\ findall issue_pattern s = map (fun gb => fields (snd gb)) blocks.
Proof.
  revert s. induction n as [|n IH]; intros s Hn.
  - destruct s; [|simpl in Hn; lia]. by exists [], [].
  - destruct s as [|x s]; [by exists [], []|]. simpl in Hn.
    destruct (re_match issue_pattern (x :: s)) as [[gs rest]|] eqn:E.
    + destruct (re_match_is_block _ _ _ E) as (b & Hsep & Hloc & Hs & ->).
      assert (exists c, s = c ++ rest) as [c ->].
      { destruct (render_block b) as [|y c] eqn:Eb; [by destruct b|].
        simpl in Hs. injection Hs as -> ->. by exists c. }
      rewrite (findall_match _ c x rest (fields b) E).
      destruct (IH rest) as (blocks & last_gap & -> & Hall & ->).
      { rewrite length_app in Hn. lia. }
      exists (([], b) :: blocks), last_gap. cbn [render_report map app fst snd].
      split; [by rewrite Hs|]. split; [by constructor | done].
    + rewrite findall_no_match by done.
      destruct (IH s ltac:(lia)) as (blocks & last_gap & -> & Hall & ->).
      destruct (render_report_cons x blocks last_gap) as (blocks' & last' & -> & Hb).
      exists blocks', last'. split; [done|].
      rewrite <- !(map_map snd), Hb. split; [|done].
      rewrite <- (Forall_map snd (fun b => separated b = true /\ contains (loc b) [nl] = false)) in *.
      by rewrite Hb.
Qed.

End Captures.

Section AnyReport.
Import Occurrence.

(** X1: for every report text, [parse_vulnerabilities] returns the
    fields of issue blocks that stand in the report one after the other,
    without overlap and in the order of the result: the report is the
    text before the first block, the block, the text up to the next one,
    and so on, every block laid out as marker, description, line end,
    white space, severity label and severity, white space, confidence
    label and confidence, line end, white space, location label,
    location, line end.  Nothing is returned that is not in the report. *)
Theorem issues_are_blocks_of_report (report : pystr) :
  exists blocks last_gap,
    report = render_report blocks last_gap
    /\ Forall (fun gb => separated (snd gb) = true) blocks
    /\ issues report = map (fun gb => fields (snd gb)) blocks
    /\ parse_vulnerabilities report
       = map (fun gb => format_issue (fields (snd gb))) blocks.
Proof.
  destruct (findall_cuts (length report) report (le_n _))
    as (blocks & last_gap & E & Hall & Hf).
  exists blocks, last_gap. split; [done|]. split.
  - eapply Forall_impl; [exact Hall|]. by intros gb [H _].
  - split; [done|]. unfold parse_vulnerabilities, issues. by rewrite Hf, map_map.
Qed.

(** X2: for every report text, every tuple the pattern yields has
    exactly four fields, and the fourth, the location, holds no line
    end: it stops at the first line end after the location label. *)
Theorem location_is_one_line (report : pystr) :
  Forall (fun g => exists d s c l, g = [d; s; c; l] /\ ~ In nl l) (issues report).
Proof.
  destruct (findall_cuts (length report) report (le_n _))
    as (blocks & last_gap & _ & Hall & Hf).
  unfold issues. rewrite Hf. apply Forall_map.
  eapply Forall_impl; [exact Hall|]. intros [gap b] [_ Hloc]. simpl in *.
  exists (desc b), (sev b), (conf b), (loc b). split; [done|].
  by apply contains_nl_In.
Qed.

End AnyReport.

Section NothingMissed.
Import Regex Parser ReportShape.

(** X25: the parser misses no report with an issue in it: when the issue
    pattern occurs anywhere in the report, parse_vulnerabilities returns
    at least one record.  With the claim on reports without an
    occurrence, the returned list is empty exactly for those. *)
Theorem parse_finds_an_occurrence (report : pystr) :
  occurs issue_pattern report -> parse_vulnerabilities report <> [].
Proof.
  intros (before & tail & rest & -> & Hm).
  apply re_match_complete in Hm as [[gs rest'] Hm].
  assert (issues (before ++ tail) <> []) as Hfound.
  { unfold issues. set (p := issue_pattern) in *. clearbody p.
    induction before as [|x before IH].
    - unfold findall. destruct tail; simpl; by rewrite Hm.
    - destruct (re_match p (x :: before ++ tail)) as [[gs' r']|] eqn:E.
      + unfold findall. simpl. by rewrite E.
      + simpl. by rewrite findall_no_match. }
  unfold parse_vulnerabilities. by intros Hnil%fmap_nil_inv.
Qed.

Lemma parse_finds_an_occurrence_witness :
  occurs issue_pattern two_issue_report
  /\ parse_vulnerabilities two_issue_report <> [].
Proof.
  assert (occurs issue_pattern two_issue_report) as H.
  { exists report_header, (drop (length report_header) two_issue_report),
      (code_lines ++ render_block eval_block ++ report_footer).
    split; [by vm_compute|].
    apply (re_match_sound _ _ (fields assert_block)). by vm_compute. }
  split; [exact H | exact (parse_finds_an_occurrence two_issue_report H)].
Defined.

End NothingMissed.

(** ** The history page *)

Section PageFacts.
Import History HistorySpec PageSpec.
Open Scope Z_scope.

Variable lower : pystr -> pystr.
Variable q : pystr.
Variables start_date end_date : option date.
Variable today : date.
Variable now_again : date.

Lemma parseable_dec (rows : list submission) :
  Forall parseable rows \/ Exists whole_second rows.
Proof.
  induction rows as [|s rows [IH|IH]].
  - left. constructor.
  - destruct (Z.eq_dec (dt_microsecond (created_at s)) 0) as [E|E].
    + right. by constructor.
    + left. by constructor.
  - right. by constructor 2.
Qed.

Lemma whole_second_not_parseable (rows : list submission) :
  Exists whole_second rows -> ~ Forall parseable rows.
Proof.
  induction 1 as [s rows H|s rows _ IH]; intros Hp; apply Forall_cons in Hp as [H1 H2];
    [by apply H1 | by apply IH].
Qed.

(** The groups of the page are the buckets' rows, for the buckets that
    have some. *)
Lemma shown_groups_rows (g : grouped) :
  shown_groups g
  = List.filter (fun bl => negb (Nat.eqb (length (snd bl)) 0))
      [(Today, g Today); (Yesterday, g Yesterday); (Previous7Days, g Previous7Days);
       (Previous30Days, g Previous30Days); (Older, g Older)].
Proof. reflexivity. Qed.

Lemma concat_shown_groups (g : grouped) :
  concat (map snd (shown_groups g))
  = g Today ++ g Yesterday ++ g Previous7Days ++ g Previous30Days ++ g Older.
Proof.
  rewrite shown_groups_rows. cbn [List.filter snd].
  destruct (g Today), (g Yesterday), (g Previous7Days), (g Previous30Days), (g Older);
    cbn; by rewrite ?app_nil_r.
Qed.

(** The five buckets share out the rows that pass the filters. *)
Lemma rows_of_share (rows : list submission) :
  Permutation
    (rows_of lower q start_date end_date today now_again Today rows
     ++ rows_of lower q start_date end_date today now_again Yesterday rows
     ++ rows_of lower q start_date end_date today now_again Previous7Days rows
     ++ rows_of lower q start_date end_date today now_again Previous30Days rows
     ++ rows_of lower q start_date end_date today now_again Older rows)
    (List.filter (kept lower q start_date end_date) rows).
Proof.
  unfold rows_of, kept. induction rows as [|s rows IH]; [done|].
  cbn [List.filter].
  destruct (keeps lower q start_date end_date s (date_of s)); cbn [andb]; [|done].
  destruct (bucket_of today now_again (date_of s)) eqn:E;
    repeat match goal with
      | |- context [bool_decide (?a = ?b)] =>
          first [ rewrite (bool_decide_eq_true_2 (a = b)) by reflexivity
                | rewrite (bool_decide_eq_false_2 (a = b)) by discriminate ]
      end.
  - simpl. by constructor.
  - cbn [app]. rewrite <- Permutation_middle. by constructor.
  - cbn [app]. rewrite app_assoc, <- Permutation_middle, <- app_assoc.
    by constructor.
  - cbn [app]. rewrite 2!app_assoc, <- Permutation_middle.
    repeat rewrite <- app_assoc. by constructor.
  - cbn [app]. rewrite 3!app_assoc, <- Permutation_middle.
    repeat rewrite <- app_assoc. by constructor.
Qed.

Lemma show_parseable (rows : list submission) :
  Forall parseable rows ->
  exists v, show_recent_codes_on_main lower q start_date end_date today now_again rows = Some v
    /\ match rows with
       | [] => v = NoRecentSubmissions
       | _ => v = Groups (shown_groups
                (fun b => rows_of lower q start_date end_date today now_again b rows))
       end.
Proof.
  intros Hp. destruct (group_rows lower q start_date end_date today now_again rows Hp)
    as (g & E & Hg).
  destruct rows as [|s rows]; [by exists NoRecentSubmissions|].
  unfold show_recent_codes_on_main. rewrite E. eexists. split; [done|].
  simpl. f_equal. rewrite !shown_groups_rows. by rewrite !Hg.
Qed.

(** The page fails exactly when some timestamp falls on a whole second. *)
Lemma show_fails_iff (rows : list submission) :
  show_recent_codes_on_main lower q start_date end_date today now_again rows = None
  <-> Exists whole_second rows.
Proof.
  split.
  - intros E. destruct (parseable_dec rows) as [Hp|]; [|done].
    destruct (show_parseable rows Hp) as (v & Ev & _). congruence.
  - intros Hex. pose proof (whole_second_not_parseable rows Hex) as Hnp.
    destruct rows as [|s rows]; [by apply Exists_nil in Hex|].
    unfold show_recent_codes_on_main, group.
    by rewrite group_loop_unparseable.
Qed.

End PageFacts.

Section PageTheorems.
Import History HistorySpec PageSpec.
Open Scope Z_scope.

Lemma shown_headers_in_order (g : grouped) :
  sublist (map fst (shown_groups g)) bucket_order.
Proof.
  rewrite shown_groups_rows. cbn [List.filter snd].
  destruct (g Today), (g Yesterday), (g Previous7Days), (g Previous30Days), (g Older);
    cbn; repeat first [apply sublist_nil | apply sublist_skip | apply sublist_cons].
Qed.

Lemma shown_groups_In (g : grouped) (b : bucket) (l : list submission) :
  In (b, l) (shown_groups g) <-> l = g b /\ l <> [].
Proof.
  unfold shown_groups. rewrite filter_In, in_map_iff. cbn [snd]. split.
  - intros [(b' & [= -> <-] & _) Hl]. split; [done|]. by destruct (g b).
  - intros [-> Hne]. split.
    + exists b. split; [done|]. destruct b; cbn; tauto.
    + by destruct (g b).
Qed.

Lemma kept_all_unfiltered (lower : pystr -> pystr) (rows : list submission) :
  List.filter (kept lower [] None None) rows = rows.
Proof. induction rows as [|s rows IH]; [done|]. cbn. by rewrite IH. Qed.

(** X3: the history page fails (the [ValueError] of [strptime]) exactly
    when the timestamp of some row falls on a whole second, so that its
    text has no fraction; the filters do not matter: a row they would
    drop makes the page fail all the same. *)
Theorem history_fails_on_whole_second (lower : pystr -> pystr) (q : pystr)
    (start_date end_date : option date) (today now_again : date) (rows : list submission) :
  show_recent_codes_on_main lower q start_date end_date today now_again rows = None
  <-> Exists whole_second rows.
Proof.
  split.
  - intros E. destruct (parseable_dec rows) as [Hp|]; [|done].
    destruct (show_parseable lower q start_date end_date today now_again rows Hp)
      as (v & Ev & _).
    congruence.
  - intros Hex. pose proof (whole_second_not_parseable rows Hex) as Hnp.
    destruct rows as [|s rows]; [by apply Exists_nil in Hex|].
    unfold show_recent_codes_on_main, group.
    by rewrite group_loop_unparseable.
Qed.

(** X4: when the timestamps can be read, the rows on the page, group
    after group, are the rows that pass the two filters, each once (a
    permutation of them); the headers come in the order Today, Yesterday,
    Previous 7 Days, Previous 30 Days, Older; a group that is shown is not
    empty and holds its bucket's rows in the order of the input; and
    with no search text and no dates every row is on the page. *)
Theorem shown_rows_are_kept_rows (lower : pystr -> pystr) (q : pystr)
    (start_date end_date : option date) (today now_again : date) (rows : list submission) :
  Forall parseable rows ->
  exists v, show_recent_codes_on_main lower q start_date end_date today now_again rows = Some v
    /\ Permutation (shown_rows v) (List.filter (kept lower q start_date end_date) rows)
    /\ sublist (shown_headers v) bucket_order
    /\ (forall shown b l, v = Groups shown -> In (b, l) shown ->
          l <> [] /\ l = rows_of lower q start_date end_date today now_again b rows)
    /\ (q = [] -> start_date = None -> end_date = None ->
        Permutation (shown_rows v) rows).
Proof.
  intros Hp.
  destruct (show_parseable lower q start_date end_date today now_again rows Hp) as (v & Ev & Hv).
  exists v. split; [done|].
  assert (Permutation (shown_rows v)
            (List.filter (kept lower q start_date end_date) rows)) as Hperm.
  { destruct rows as [|s rows]; subst v; [done|].
    cbn [shown_rows]. rewrite concat_shown_groups. apply rows_of_share. }
  split; [done|]. split; [|split].
  - destruct rows as [|s rows]; subst v; cbn [shown_headers].
    + apply sublist_nil_l.
    + apply shown_headers_in_order.
  - intros shown b l -> Hin. destruct rows as [|s rows]; [done|].
    injection Hv as ->. apply shown_groups_In in Hin as [-> Hne]. done.
  - intros -> -> ->. by rewrite kept_all_unfiltered in Hperm.
Qed.

Lemma shown_rows_are_kept_rows_witness :
  Forall parseable sample_rows
  /\ exists v, show_recent_codes_on_main ascii_lower (lit "DEMO") None None
                 (ymd 2024 6 15) (ymd 2024 6 15) sample_rows = Some v
       /\ shown_headers v = [Today; Yesterday; Older]
       /\ Permutation (shown_rows v)
            (List.filter (kept ascii_lower (lit "DEMO") None None) sample_rows).
Proof.
  assert (Forall parseable sample_rows) as Hp by (repeat constructor; discriminate).
  split; [exact Hp|].
  destruct (shown_rows_are_kept_rows ascii_lower (lit "DEMO") None None
              (ymd 2024 6 15) (ymd 2024 6 15) sample_rows Hp) as (v & E & Hperm & _).
  exists v. split; [exact E|]. split; [|exact Hperm].
  vm_compute in E. injection E as <-. reflexivity.
Defined.

Lemma filter_nil_Forall (f : submission -> bool) (rows : list submission) :
  List.filter f rows = [] <-> Forall (fun s => f s = false) rows.
Proof.
  induction rows as [|s rows IH]; simpl.
  - split; [constructor | done].
  - destruct (f s) eqn:E.
    + split; [done|]. intros H. apply Forall_cons in H as [H _]. congruence.
    + rewrite IH. split; [by constructor | by intros [_ H]%Forall_cons].
Qed.

Lemma shown_groups_nil (g : grouped) :
  shown_groups g = [] <-> forall b, g b = [].
Proof.
  split.
  - intros E b. destruct (g b) as [|s l] eqn:Eb; [done|].
    assert (In (b, s :: l) (shown_groups g)) as Hin
      by (apply shown_groups_In; by rewrite Eb).
    by rewrite E in Hin.
  - intros H. rewrite shown_groups_rows. cbn [List.filter snd]. by rewrite !H.
Qed.

Lemma rows_of_nil (lower : pystr -> pystr) (q : pystr)
    (start_date end_date : option date) (today now_again : date) (rows : list submission) :
  (forall b, rows_of lower q start_date end_date today now_again b rows = [])
  <-> Forall (fun s => kept lower q start_date end_date s = false) rows.
Proof.
  rewrite <- filter_nil_Forall. split.
  - intros H. apply Permutation_nil. rewrite <- rows_of_share. by rewrite !H.
  - intros H b. pose proof (rows_of_share lower q start_date end_date today now_again rows) as P.
    rewrite H in P. apply Permutation_sym, Permutation_nil in P.
    destruct b; repeat (apply app_eq_nil in P as [? P]); done.
Qed.

(** X5: when the timestamps can be read, the message for an empty
    history is shown exactly when there is no row at all; when there are
    rows and the filters drop every one of them, the page shows no group
    and no message, and only then. *)
Theorem filtered_out_page_is_blank (lower : pystr -> pystr) (q : pystr)
    (start_date end_date : option date) (today now_again : date) (rows : list submission) :
  Forall parseable rows ->
  (show_recent_codes_on_main lower q start_date end_date today now_again rows
   = Some NoRecentSubmissions <-> rows = [])
  /\ (rows <> [] ->
      (show_recent_codes_on_main lower q start_date end_date today now_again rows
       = Some (Groups [])
       <-> Forall (fun s => kept lower q start_date end_date s = false) rows)).
Proof.
  intros Hp.
  destruct (show_parseable lower q start_date end_date today now_again rows Hp) as (v & Ev & Hv).
  rewrite Ev. destruct rows as [|s rows]; subst v.
  - split; [done|]. by intros [].
  - split; [done|]. intros _. split.
    + intros E.
      assert (shown_groups
                (fun b => rows_of lower q start_date end_date today now_again b (s :: rows))
              = []) as E' by congruence.
      apply (proj1 (rows_of_nil lower q start_date end_date today now_again (s :: rows))).
      by apply shown_groups_nil.
    + intros H. do 2 f_equal. apply shown_groups_nil. by apply rows_of_nil.
Qed.

Lemma filtered_out_page_is_blank_witness :
  Forall parseable sample_rows
  /\ show_recent_codes_on_main ascii_lower (lit "zebra") None None
       (ymd 2024 6 15) (ymd 2024 6 15) sample_rows = Some (Groups [])
  /\ Forall (fun s => kept ascii_lower (lit "zebra") None None s = false) sample_rows.
Proof.
  assert (Forall parseable sample_rows) as Hp by (repeat constructor; discriminate).
  split; [exact Hp|].
  assert (show_recent_codes_on_main ascii_lower (lit "zebra") None None
            (ymd 2024 6 15) (ymd 2024 6 15) sample_rows = Some (Groups [])) as E by reflexivity.
  split; [exact E|].
  exact (proj1 (proj2 (filtered_out_page_is_blank ascii_lower (lit "zebra") None None
                         (ymd 2024 6 15) (ymd 2024 6 15) sample_rows Hp) ltac:(discriminate)) E).
Defined.

(** X6: with an end date before the start date no row passes the date
    condition: the page, for a history that is not empty and can be
    read, shows no group and no message. *)
Theorem inverted_date_range_shows_nothing (lower : pystr -> pystr) (q : pystr)
    (first_day last_day : date) (today now_again : date) (rows : list submission) :
  Forall parseable rows -> rows <> [] -> last_day < first_day ->
  show_recent_codes_on_main lower q (Some first_day) (Some last_day) today now_again rows
  = Some (Groups []).
Proof.
  intros Hp Hne Hlt.
  destruct (show_parseable lower q (Some first_day) (Some last_day) today now_again rows Hp)
    as (v & Ev & Hv).
  rewrite Ev. destruct rows as [|s rows]; [done|]. subst v. do 2 f_equal.
  apply shown_groups_nil, rows_of_nil, Forall_forall. intros r _.
  unfold kept, keeps, date_ok. cbn.
  destruct (Z.leb_spec first_day (date_of r)), (Z.leb_spec (date_of r) last_day);
    try lia; by rewrite ?andb_false_r.
Qed.

Lemma inverted_date_range_shows_nothing_witness :
  Forall parseable sample_rows /\ sample_rows <> []
  /\ ymd 2024 6 1 < ymd 2024 6 30
  /\ show_recent_codes_on_main ascii_lower [] (Some (ymd 2024 6 30))
       (Some (ymd 2024 6 1)) (ymd 2024 6 15) (ymd 2024 6 15) sample_rows = Some (Groups []).
Proof.
  assert (Forall parseable sample_rows) as Hp by (repeat constructor; discriminate).
  split; [exact Hp|]. split; [discriminate|]. split; [reflexivity|].
  apply (inverted_date_range_shows_nothing ascii_lower [] (ymd 2024 6 30)
           (ymd 2024 6 1) (ymd 2024 6 15) (ymd 2024 6 15) sample_rows Hp);
    [discriminate | reflexivity].
Defined.

(** X7: the last bucket takes the dates more than thirty days back and
    also the dates after today: a row that passes the filters and is
    dated after the clock's date is shown under Older.  It is so whether
    the second read of the clock gives the same day as the first or the
    next day. *)
Theorem future_rows_are_filed_as_older (lower : pystr -> pystr) (q : pystr)
    (start_date end_date : option date) (today now_again : date) (rows : list submission)
    (s : submission) :
  Forall parseable rows -> In s rows ->
  kept lower q start_date end_date s = true -> today < date_of s ->
  today <= now_again <= today + 1 ->
  (forall d, bucket_of today now_again d = Older <-> d < today - 30 \/ today < d)
  /\ exists shown l,
       show_recent_codes_on_main lower q start_date end_date today now_again rows
       = Some (Groups shown)
       /\ In (Older, l) shown /\ In s l.
Proof.
  intros Hp Hin Hk Hlt Hclock.
  assert (forall d, bucket_of today now_again d = Older <-> d < today - 30 \/ today < d) as Hold.
  { intros d. unfold bucket_of, yesterday, last_7_days, last_30_days, minus_days.
    destruct (Z.eqb_spec d today); [split; [done | lia]|].
    destruct (Z.eqb_spec d (now_again - 1)); [split; [done | lia]|].
    destruct (Z.leb_spec (today - 7) d), (Z.ltb_spec d today); cbn [andb];
      try (split; [done | lia]);
      destruct (Z.leb_spec (today - 30) d), (Z.ltb_spec d (today - 7)); cbn [andb];
      try (split; [done | lia]); split; try done; intros _; lia. }
  split; [done|].
  destruct (show_parseable lower q start_date end_date today now_again rows Hp) as (v & Ev & Hv).
  destruct rows as [|r rows]; [done|]. subst v.
  eexists _, (rows_of lower q start_date end_date today now_again Older (r :: rows)).
  split; [done|].
  assert (In s (rows_of lower q start_date end_date today now_again Older (r :: rows))) as Hs.
  { apply rows_of_In. split; [done|]. split; [done|]. apply Hold. lia. }
  split; [|done]. apply shown_groups_In. split; [done|].
  intros E. by rewrite E in Hs.
Qed.

Lemma future_rows_are_filed_as_older_witness :
  Forall parseable sample_rows
  /\ In (sample_row "other" (ymd 2024 6 10)) sample_rows
  /\ kept ascii_lower [] None None (sample_row "other" (ymd 2024 6 10)) = true
  /\ ymd 2024 6 9 < date_of (sample_row "other" (ymd 2024 6 10))
  /\ ymd 2024 6 9 <= ymd 2024 6 10 <= ymd 2024 6 9 + 1
  /\ exists shown l,
       show_recent_codes_on_main ascii_lower [] None None (ymd 2024 6 9) (ymd 2024 6 10) sample_rows
       = Some (Groups shown)
       /\ In (Older, l) shown /\ In (sample_row "other" (ymd 2024 6 10)) l.
Proof.
  assert (Forall parseable sample_rows) as Hp by (repeat constructor; discriminate).
  assert (In (sample_row "other" (ymd 2024 6 10)) sample_rows) as Hin
    by (right; right; by left).
  split; [exact Hp|]. split; [exact Hin|]. split; [reflexivity|].
  split; [reflexivity|].
  assert (ymd 2024 6 9 <= ymd 2024 6 10 <= ymd 2024 6 9 + 1) as Hclock
    by (split; by vm_compute).
  split; [exact Hclock|].
  exact (proj2 (future_rows_are_filed_as_older ascii_lower [] None None
                  (ymd 2024 6 9) (ymd 2024 6 10) sample_rows
                  (sample_row "other" (ymd 2024 6 10))
                  Hp Hin eq_refl eq_refl Hclock)).
Defined.

End PageTheorems.

(** ** The forms, the flags and the scanner *)

Section FormRuns.
Import Parser Session SessionSpec RunSpec.

Variable lower : pystr -> pystr.
Variable inp : inputs.

Lemma login_cases (s : session) (l : list effect) :
  login inp s l =
    let s0 := set_login_disabled (Some (default false (login_disabled s))) s in
    if login_clicked inp && negb (default false (login_disabled s)) then
      match get_user inp (in_username inp) (in_password inp) with
      | Raises =>
          (Halt Exception, set_login_disabled (Some true) s0, l ++ [LoginFormShown])
      | Returns (Some id) =>
          (Halt Rerun,
           set_user_id (Some id)
             (set_user (Some (in_username inp))
                (set_logged_in true (set_login_disabled (Some true) s0))),
           l ++ [LoginFormShown])
      | Returns None =>
          (Next tt, set_login_disabled (Some false) s0,
           (l ++ [LoginFormShown]) ++ [InvalidLogin])
      end
    else (Next tt, s0, l ++ [LoginFormShown]).
Proof.
  unfold login, bind, get, when, modify, emit.
  destruct s as [? ? ? ? ? ? ? ? ? ? ? [d|] ?]; cbn.
  - destruct (login_clicked inp), d; cbn; try done.
    by destruct (get_user inp (in_username inp) (in_password inp)) as [[id|]|].
  - destruct (login_clicked inp); cbn; [|done].
    by destruct (get_user inp (in_username inp) (in_password inp)) as [[id|]|].
Qed.

Lemma register_cases (s : session) (l : list effect) :
  register inp s l =
    let s0 := set_register_disabled (Some (default false (register_disabled s))) s in
    if bool_decide (reg_password inp = reg_confirm_password inp)
       && register_clicked inp && negb (default false (register_disabled s)) then
      match add_user inp (reg_username inp) (reg_password inp) with
      | Returns _ => (Halt Rerun, set_register_disabled (Some true) s0, l)
      | Raises => (Next tt, set_register_disabled (Some false) s0, l)
      end
    else (Next tt, s0, l).
Proof.
  unfold register, bind, get, when, modify.
  destruct s as [? ? ? ? ? ? ? ? ? ? ? ? [d|]]; cbn.
  - destruct (bool_decide _), (register_clicked inp), d; cbn; try done;
      by destruct (add_user inp (reg_username inp) (reg_password inp)).
  - destruct (bool_decide _), (register_clicked inp); cbn; try done;
      by destruct (add_user inp (reg_username inp) (reg_password inp)).
Qed.

Lemma save_cases (output : option pystr) (s : session) (l : list effect) :
  save inp output s l =
    match truthy_id (user_id s) with
    | Some uid =>
        (match save_code inp uid (in_title inp) (last_user_code s) output with
         | Returns _ => Next tt
         | Raises => Halt Exception
         end, s,
         l ++ [SaveCodeCalled uid (in_title inp) (last_user_code s) output])
    | None => (Next tt, s, l)
    end.
Proof.
  unfold save, bind, get, emit. destruct (truthy_id (user_id s)) as [uid|]; [|done].
  by destruct (save_code inp uid (in_title inp) (last_user_code s) output) as [[]|].
Qed.

Lemma fixed_block_cases (s : session) (l : list effect) :
  fixed_block s l =
    (Next tt, s,
     if issue_resolved s
     then l ++ [FixedCodeShown (fixed_code s) (vulnerability_report s)]
     else l).
Proof. unfold fixed_block, bind, get, when, emit. by destruct (issue_resolved s). Qed.

End FormRuns.

Section HomeRuns.
Import Parser Session SessionSpec RunSpec.

Variable lower : pystr -> pystr.
Variable inp : inputs.

(** The resolve button and the fixed code, case by case. *)
Lemma tail_of_home_cases (s : session) (l : list effect) :
  tail_of_home inp s l =
    if show_resolve_button s && issues_selected s then
      if resolve_clicked inp then
        match selected_issues_text s with
        | None => (Halt Exception, s, l ++ [ResolveButtonShown])
        | Some text =>
            match rewrite_code_with_openai inp (last_user_code s) text with
            | Raises =>
                (Halt Exception, s,
                 (l ++ [ResolveButtonShown]) ++ [RewriteCalled (last_user_code s) text])
            | Returns fixed =>
                bind (save inp (Some fixed)) (fun _ => fixed_block)
                  (set_issue_resolved true (set_fixed_code fixed s))
                  ((l ++ [ResolveButtonShown]) ++ [RewriteCalled (last_user_code s) text])
            end
        end
      else fixed_block s (l ++ [ResolveButtonShown])
    else fixed_block s l.
Proof.
  unfold tail_of_home. unfold bind at 1. rewrite resolve_block_run.
  destruct (show_resolve_button s && issues_selected s); [|done].
  destruct (resolve_clicked inp); [|done].
  destruct (selected_issues_text s) as [text|]; [|done].
  by destruct (rewrite_code_with_openai inp (last_user_code s) text).
Qed.

(** Saving, then showing the fixed code. *)
Lemma save_fixed_cases (output : option pystr) (s : session) (l : list effect) :
  bind (save inp output) (fun _ => fixed_block) s l =
    match truthy_id (user_id s) with
    | Some uid =>
        match save_code inp uid (in_title inp) (last_user_code s) output with
        | Returns _ =>
            fixed_block s
              (l ++ [SaveCodeCalled uid (in_title inp) (last_user_code s) output])
        | Raises =>
            (Halt Exception, s,
             l ++ [SaveCodeCalled uid (in_title inp) (last_user_code s) output])
        end
    | None => fixed_block s l
    end.
Proof.
  unfold bind. rewrite save_cases. destruct (truthy_id (user_id s)) as [uid|]; [|done].
  by destruct (save_code inp uid (in_title inp) (last_user_code s) output) as [[]|].
Qed.

(** The report and the checkboxes change the mapping and nothing else. *)
Lemma display_block_sets P (s : session) (l : list effect) :
  (forall r, P (ReportShown r)) -> (forall j lab v, P (CheckboxShown j lab v)) ->
  exists m newd,
    display_block inp s l = (Next tt, set_selected_issues m s, l ++ newd)
    /\ Forall P newd.
Proof.
  intros H1 H2. rewrite display_block_run.
  destruct (nonempty (vulnerability_report s)).
  - eexists _, _. split; [done|]. constructor; [done|].
    by apply loop_effects_checkboxes.
  - exists (selected_issues s), []. by rewrite set_selected_issues_same, app_nil_r.
Qed.

Lemma after_scan_cases P (s : session) (l : list effect) :
  (forall r, P (ReportShown r)) -> (forall j lab v, P (CheckboxShown j lab v)) ->
  exists m newd,
    after_scan inp s l = tail_of_home inp (set_selected_issues m s) (l ++ newd)
    /\ Forall P newd.
Proof.
  intros H1 H2. destruct (display_block_sets P s l H1 H2) as (m & newd & E & Hd).
  exists m, newd. split; [|done]. unfold after_scan, bind. by rewrite E.
Qed.

End HomeRuns.

Section Preservation.
Import Parser Session SessionSpec RunSpec.

Variable lower : pystr -> pystr.
Variable inp : inputs.

Lemma account_ignores_analysis : ignores_analysis account.
Proof. repeat split; by intros ? []. Qed.

Lemma flags_ignores_analysis : ignores_analysis flags.
Proof. repeat split; by intros ? []. Qed.

Lemma preserves_display_block {X} (f : session -> X) :
  (forall v s, f (set_selected_issues v s) = f s) ->
  preserves f (display_block inp).
Proof.
  intros H s l. rewrite display_block_run.
  destruct (nonempty (vulnerability_report s)); [apply H | done].
Qed.

Lemma preserves_scan_block {X} (f : session -> X) :
  ignores_analysis f -> preserves f (scan_block inp).
Proof.
  intros (H1 & H2 & H3 & H4 & H5 & H6) s l. rewrite scan_block_run.
  destruct (scan_requested inp s); [|done].
  destruct (scan_vulnerabilities inp (in_user_code inp)) as [result|].
  - rewrite (preserves_save inp f). unfold scan_done, scan_started.
    by rewrite H5, H3, H1, H4, H3, H2, H1.
  - cbn [fst snd]. unfold scan_started. by rewrite H4, H3, H2, H1.
Qed.

Lemma preserves_home_page {X} (f : session -> X) :
  ignores_analysis f -> preserves f (home_page inp).
Proof.
  intros Hf. pose proof Hf as (H1 & H2 & H3 & H4 & H5 & H6). unfold home_page.
  apply preserves_bind; [by apply preserves_scan_block | intros _].
  apply preserves_bind; [by apply preserves_display_block | intros _].
  apply preserves_bind; [by apply preserves_resolve_block | intros _].
  apply preserves_fixed_block.
Qed.

Lemma preserves_history_page {X} (f : session -> X) :
  preserves f (history_page lower inp).
Proof. unfold history_page. script_steps. Qed.

Lemma after_callback_account (s : session) :
  account (after_callback inp s) = account s.
Proof. unfold after_callback. by destruct (on_change inp), s. Qed.

Lemma after_callback_analysis (s : session) :
  analysis (after_callback inp s) = analysis s.
Proof. unfold after_callback. by destruct (on_change inp), s. Qed.

(** A signed-in run: the home page and the history leave the account
    alone, the logout clears it. *)
Lemma signed_in_account (s : session) :
  logged_in s = true ->
  account (state_after lower inp s)
  = match menu inp with
    | Logout => (false, None, None, login_disabled s, register_disabled s)
    | _ => account s
    end.
Proof.
  intros Hin. unfold state_after. rewrite run_eq, main_cases.
  pose proof (after_callback_account s) as Ha.
  assert (logged_in (after_callback inp s) = true) as ->
    by (unfold account in Ha; congruence).
  destruct (menu inp).
  - by rewrite (preserves_home_page account account_ignores_analysis).
  - by rewrite (preserves_history_page account).
  - cbn [fst snd]. unfold account in *. by destruct (after_callback inp s); simplify_eq/=.
Qed.

Lemma signed_out_run (s : session) :
  logged_in s = false ->
  run lower inp s = (login inp >> register inp) (after_callback inp s) [].
Proof.
  intros Hout. rewrite run_eq, main_cases.
  pose proof (after_callback_account s) as Ha.
  assert (logged_in (after_callback inp s) = false) as ->
    by (unfold account in Ha; congruence).
  done.
Qed.

End Preservation.

(** Compute on sessions whose fields are known. *)
Ltac session_cbn :=
  cbn [fst snd default negb andb orb
       Session.logged_in Session.vulnerability_report Session.last_user_code
       Session.fixed_code Session.issue_resolved Session.user_id
       Session.selected_issues Session.issues_selected
       Session.show_resolve_button Session.scan_complete Session.user
       Session.login_disabled Session.register_disabled
       Session.set_logged_in Session.set_vulnerability_report
       Session.set_last_user_code Session.set_fixed_code
       Session.set_issue_resolved Session.set_user_id
       Session.set_selected_issues Session.set_issues_selected
       Session.set_show_resolve_button Session.set_scan_complete
       Session.set_user Session.set_login_disabled
       Session.set_register_disabled] in *.

(** Take a signed-out run apart, in the equation [E] of the run: the
    login form, then the register form. *)
Ltac forms_cases E :=
  unfold Session.bind in E; rewrite login_cases in E; cbv zeta in E;
  repeat first
    [ progress session_cbn
    | rewrite register_cases in E; cbv zeta in E
    | match type of E with
      | context [if ?b then _ else _] => destruct b eqn:?
      | context [match Session.get_user ?i ?u ?p with _ => _ end] =>
          destruct (Session.get_user i u p) as [[?|]|] eqn:?
      | context [match Session.add_user ?i ?u ?p with _ => _ end] =>
          destruct (Session.add_user i u p) as [[]|] eqn:?
      end ];
  injection E as <- <- <-; session_cbn.

(** Start a proof about a signed-out run of [s]: the callback has left
    the account and the analysis alone; name the fields of the session and
    the result of the run. *)
Ltac signed_out lower s inp E :=
  unfold RunSpec.ending, Session.state_after, Session.effects_of;
  rewrite !(signed_out_run lower inp s) by done;
  let Ha := fresh "Ha" in let Hb := fresh "Hb" in
  pose proof (after_callback_account inp s) as Ha;
  pose proof (after_callback_analysis inp s) as Hb;
  destruct (SessionSpec.after_callback inp s); destruct s;
  unfold RunSpec.account, RunSpec.analysis in *; simplify_eq/=;
  match goal with
  | |- context [(Session.bind (Session.login inp) ?k) ?s0 ?l0] =>
      destruct ((Session.bind (Session.login inp) k) s0 l0) as [[? ?] ?] eqn:E
  end;
  forms_cases E.

Section Account.
Import Parser Session SessionSpec RunSpec.

Variable lower : pystr -> pystr.

Lemma run_signed_in_through_form (inp : inputs) (s : session) :
  signed_in_through_form s -> signed_in_through_form (state_after lower inp s).
Proof.
  unfold signed_in_through_form, account_consistent. intros [Hc Hd].
  destruct (logged_in s) eqn:Hin.
  - pose proof (signed_in_account lower inp s Hin) as Ha.
    specialize (Hd eq_refl). destruct Hc as [Hu Hi].
    destruct (state_after lower inp s), s, (menu inp);
      unfold account in *; simplify_eq/=; done.
  - destruct Hc as [Hu Hi]. clear Hd. revert Hu Hi. signed_out lower s inp E;
      intros -> ->; repeat split; eauto; discriminate.
Qed.

Lemma reachable_signed_in_through_form (s : session) :
  reachable lower s -> signed_in_through_form s.
Proof.
  induction 1 as [|inp s _ IH]; [|by apply run_signed_in_through_form].
  split; [done|]. discriminate.
Qed.

(** With the login button disabled, a signed-out session stays so. *)
Lemma locked_out_run (inp : inputs) (s : session) :
  logged_in s = false -> login_disabled s = Some true ->
  logged_in (state_after lower inp s) = false
  /\ login_disabled (state_after lower inp s) = Some true.
Proof.
  intros Hout Hd. revert Hd. signed_out lower s inp E; intros Hd;
    simplify_eq/=; try done; by rewrite andb_false_r in *.
Qed.

Lemma locked_out_runs (runs : list inputs) (s : session) :
  logged_in s = false -> login_disabled s = Some true ->
  logged_in (run_all lower runs s) = false
  /\ login_disabled (run_all lower runs s) = Some true.
Proof.
  revert s. induction runs as [|inp runs IH]; intros s Hout Hd; [done|].
  simpl. destruct (locked_out_run inp s Hout Hd). by apply IH.
Qed.

Lemma register_disabled_run (inp : inputs) (s : session) :
  register_disabled s = Some true ->
  register_disabled (state_after lower inp s) = Some true.
Proof.
  intros Hd. destruct (logged_in s) eqn:Hin.
  - pose proof (signed_in_account lower inp s Hin) as Ha.
    destruct (state_after lower inp s), s, (menu inp);
      unfold account in *; simplify_eq/=; done.
  - revert Hd. signed_out lower s inp E; intros Hd;
      simplify_eq/=; try done; by rewrite andb_false_r in *.
Qed.

Lemma register_disabled_runs (runs : list inputs) (s : session) :
  register_disabled s = Some true ->
  register_disabled (run_all lower runs s) = Some true.
Proof.
  revert s. induction runs as [|inp runs IH]; intros s Hd; [done|].
  simpl. by apply IH, register_disabled_run.
Qed.

End Account.

Section AccountTheorems.
Import Parser Session SessionSpec RunSpec.

(** X9: in every session the script can reach, being signed in goes
    with a user name and a user id in the session, and being signed out
    with neither: the three keys are written together, by a login that
    found its row and by the logout. *)
Theorem signed_in_session_names_its_user (lower : pystr -> pystr) (s : session) :
  reachable lower s -> account_consistent s.
Proof.
  intros H. assert (signed_in_through_form s) as [Hc _]; [|done].
  induction H as [|inp s _ IH]; [|by apply run_signed_in_through_form].
  split; [done | discriminate].
Qed.

Lemma signed_in_session_names_its_user_witness :
  reachable id signed_in /\ logged_in signed_in = true
  /\ account_consistent signed_in.
Proof.
  assert (reachable id signed_in) as H by (apply run_all_reachable; constructor).
  split; [exact H|]. split; [reflexivity|].
  exact (signed_in_session_names_its_user id signed_in H).
Defined.

(** X10: the login that signs a user in leaves [login_disabled] set, and
    nothing resets it: from a reachable session that is signed in, after
    the logout, no sequence of runs signs in again; the Login button stays
    disabled for the rest of the browser session. *)
Theorem login_locked_after_sign_out (lower : pystr -> pystr) (s : session)
    (inp : inputs) (runs : list inputs) :
  reachable lower s -> logged_in s = true -> menu inp = Logout ->
  logged_in (run_all lower runs (state_after lower inp s)) = false
  /\ login_disabled (run_all lower runs (state_after lower inp s)) = Some true.
Proof.
  intros Hr Hin Hmenu.
  destruct (reachable_signed_in_through_form lower s Hr) as [_ Hd].
  specialize (Hd Hin).
  pose proof (signed_in_account lower inp s Hin) as Ha. rewrite Hmenu in Ha.
  apply locked_out_runs; unfold account in Ha; congruence.
Qed.

Lemma login_locked_after_sign_out_witness :
  reachable id signed_in /\ logged_in signed_in = true /\ menu sign_out = Logout
  /\ logged_in (run_all id [sign_in; sign_in] (state_after id sign_out signed_in))
     = false.
Proof.
  assert (reachable id signed_in) as H by (apply run_all_reachable; constructor).
  split; [exact H|]. split; [reflexivity|]. split; [reflexivity|].
  exact (proj1 (login_locked_after_sign_out id signed_in sign_out
                  [sign_in; sign_in] H eq_refl eq_refl)).
Defined.

(** X11: a registration that succeeds (the two passwords agree, the
    button is enabled and pressed, the persistence layer accepts the user)
    ends the run with a rerun and leaves [register_disabled] set; no later
    run resets it, so the Register button stays disabled. *)
Theorem register_locked_after_success (lower : pystr -> pystr) (s : session)
    (inp : inputs) (runs : list inputs) :
  logged_in s = false -> login_clicked inp = false ->
  register_clicked inp = true ->
  reg_password inp = reg_confirm_password inp ->
  register_disabled s <> Some true ->
  add_user inp (reg_username inp) (reg_password inp) = Returns tt ->
  ending lower inp s = Halt Rerun
  /\ register_disabled (state_after lower inp s) = Some true
  /\ register_disabled (run_all lower runs (state_after lower inp s)) = Some true.
Proof.
  intros Hout Hl Hc Hpw Hd Hadd.
  assert (ending lower inp s = Halt Rerun
          /\ register_disabled (state_after lower inp s) = Some true) as [E1 E2].
  { revert Hd. signed_out lower s inp E; intros Hd; simplify_eq/=; try done.
    all: rewrite ?Hl, ?Hc, ?bool_decide_eq_true_2 in * by done; simplify_eq/=.
    all: by destruct register_disabled1 as [[]|]. }
  split; [done|]. split; [done|]. by apply register_disabled_runs.
Qed.

Lemma register_locked_after_success_witness :
  ending id sign_up initial_session = Halt Rerun
  /\ register_disabled
       (run_all id [sign_up; sign_up] (state_after id sign_up initial_session))
     = Some true.
Proof.
  destruct (register_locked_after_success id initial_session sign_up
              [sign_up; sign_up] eq_refl eq_refl eq_refl eq_refl
              ltac:(discriminate) eq_refl) as (H1 & _ & H2).
  exact (conj H1 H2).
Defined.

(** X12: a run of a session that is not signed in shows the login form
    and nothing else (no scanner, rewrite or save call, no report, no
    history), and leaves the report, the selection, the code, the fixed
    code, [issue_resolved] and [scan_complete] as they are. *)
Theorem signed_out_run_is_inert (lower : pystr -> pystr) (inp : inputs)
    (s : session) :
  logged_in s = false ->
  Forall login_form_only (effects_of lower inp s)
  /\ analysis (state_after lower inp s) = analysis s.
Proof.
  intros Hout. signed_out lower s inp E; split; try done; by repeat constructor.
Qed.

Lemma signed_out_run_is_inert_witness :
  logged_in initial_session = false
  /\ Forall login_form_only (effects_of id first_scan initial_session)
  /\ analysis (state_after id first_scan initial_session) = analysis initial_session.
Proof.
  split; [reflexivity|].
  exact (signed_out_run_is_inert id first_scan initial_session eq_refl).
Defined.

(** X13: when the two passwords of the register form differ, a run of a
    signed-out session in which the login button is not pressed does
    nothing but give the two forms their keys: whatever the persistence
    layer would answer, the session is otherwise the same and the run goes
    to its end. *)
Theorem mistyped_password_registers_nothing (lower : pystr -> pystr)
    (inp : inputs) (s : session) :
  logged_in s = false -> login_clicked inp = false ->
  reg_password inp <> reg_confirm_password inp ->
  state_after lower inp s = with_form_keys (after_callback inp s)
  /\ ending lower inp s = Next tt
  /\ effects_of lower inp s = [LoginFormShown].
Proof.
  intros Hout Hl Hpw. unfold ending, state_after, effects_of.
  rewrite signed_out_run by done.
  destruct (after_callback inp s) as [? ? ? ? ? ? ? ? ? ? ? ld rd].
  unfold bind. rewrite login_cases. cbv zeta. rewrite Hl. cbn [andb].
  rewrite register_cases. cbv zeta.
  rewrite bool_decide_eq_false_2 by done. cbn [andb]. done.
Qed.

Lemma mistyped_password_registers_nothing_witness :
  state_after id sign_up_mistyped initial_session
  = with_form_keys initial_session
  /\ ending id sign_up_mistyped initial_session = Next tt.
Proof.
  destruct (mistyped_password_registers_nothing id sign_up_mistyped initial_session
              eq_refl eq_refl ltac:(discriminate)) as (H1 & H2 & _).
  exact (conj H1 H2).
Defined.

End AccountTheorems.

Section Flags.
Import Parser Session SessionSpec RunSpec.

Variable lower : pystr -> pystr.

(** [any(d.values())]: some entry of the mapping is true. *)
Lemma any_selected_spec (m : gmap string bool) :
  any_selected m = true <-> exists k, m !! k = Some true.
Proof.
  unfold any_selected. rewrite existsb_exists. split.
  - intros ([k b] & Hin & Hb). simpl in Hb. subst b. exists k.
    by apply elem_of_map_to_list, list_elem_of_In.
  - intros [k Hk]. exists (k, true). split; [|done].
    by apply list_elem_of_In, elem_of_map_to_list.
Qed.

(** The script never writes the two flags. *)
Lemma main_flags (inp : inputs) (s : session) (l : list effect) :
  flags (main lower inp s l).1.2 = flags s.
Proof.
  rewrite main_cases. destruct (logged_in s) eqn:Hin.
  - destruct (menu inp).
    + apply (preserves_home_page inp flags flags_ignores_analysis).
    + apply (preserves_history_page lower inp flags).
    + by destruct s.
  - destruct s. destruct ((login inp >> register inp) _ l) as [[r s'] l'] eqn:E.
    forms_cases E; done.
Qed.

Lemma reachable_flags (s : session) :
  reachable lower s -> show_resolve_button s = issues_selected s.
Proof.
  induction 1 as [|inp s _ IH]; [done|].
  unfold state_after. rewrite run_eq.
  pose proof (main_flags inp (after_callback inp s) []) as E.
  unfold flags in E. injection E as -> ->.
  unfold after_callback. by destruct (on_change inp), s.
Qed.

End Flags.

Section FlagTheorems.
Import Parser Session SessionSpec RunSpec.

(** X8: the script itself never writes [issues_selected] or
    [show_resolve_button]: a run without the checkbox callback leaves the
    two flags as they were; a run with it sets both to whether some entry
    of the selection mapping, as it was before the run, is true; and in
    every reachable session the two flags are equal. *)
Theorem resolve_flags_change_only_in_callback (lower : pystr -> pystr)
    (inp : inputs) (s : session) :
  (on_change inp = false -> flags (state_after lower inp s) = flags s)
  /\ (on_change inp = true ->
      flags (state_after lower inp s)
      = (any_selected (selected_issues s), any_selected (selected_issues s))
      /\ (show_resolve_button (state_after lower inp s) = true
          <-> exists key, selected_issues s !! key = Some true))
  /\ (reachable lower s -> show_resolve_button s = issues_selected s).
Proof.
  assert (flags (state_after lower inp s) = flags (after_callback inp s)) as E.
  { unfold state_after. rewrite run_eq. apply main_flags. }
  split; [|split].
  - intros Hc. rewrite E. unfold after_callback. by rewrite Hc.
  - intros Hc. rewrite E. unfold after_callback. rewrite Hc.
    split; [by destruct s|]. rewrite <- any_selected_spec.
    unfold flags in E. injection E as _ ->.
    unfold after_callback. rewrite Hc. by destruct s.
  - apply reachable_flags.
Qed.

End FlagTheorems.

Section ScanFacts.
Import Parser Session SessionSpec RunSpec.

Lemma scan_requested_spec (inp : inputs) (s : session) :
  scan_requested inp s = true
  <-> (check_clicked inp = true \/ scan_complete s = false)
      /\ in_user_code inp <> [] /\ in_title inp <> [].
Proof.
  unfold scan_requested, nonempty.
  rewrite !andb_true_iff, orb_true_iff, negb_true_iff.
  destruct (in_user_code inp), (in_title inp); intuition congruence.
Qed.

Variable lower : pystr -> pystr.
Variable inp : inputs.

(** The home page calls the scanner when the scan is asked for, first
    of all and once. *)
Lemma home_page_scans (s : session) (l : list effect) :
  exists new, (home_page inp s l).2 = l ++ new
    /\ if scan_requested inp s
       then exists rest, new = ScanCalled (in_user_code inp) :: rest
                         /\ Forall no_scan_call rest
       else Forall no_scan_call new.
Proof.
  assert (adds no_scan_call (after_scan inp)) as Hafter
    by (by apply adds_after_scan).
  rewrite home_page_cases. destruct (scan_requested inp s); [|apply Hafter].
  destruct (scan_vulnerabilities inp (in_user_code inp)) as [result|].
  - assert (adds no_scan_call (bind (save inp None) (fun _ => after_scan inp))) as H.
    { apply adds_bind; [by apply adds_save | by intros _]. }
    destruct (H (scan_done inp result s) (l ++ [ScanCalled (in_user_code inp)]))
      as (rest & -> & Hrest).
    exists (ScanCalled (in_user_code inp) :: rest).
    split; [by rewrite <- app_assoc | by exists rest].
  - exists [ScanCalled (in_user_code inp)]. split; [done|]. by exists [].
Qed.

(** A run calls the scanner on the home page only, and there when the
    scan is asked for. *)
Lemma run_scans (s : session) :
  if logged_in s && match menu inp with
                    | Home => scan_requested inp s
                    | _ => false
                    end
  then exists rest, effects_of lower inp s = ScanCalled (in_user_code inp) :: rest
                    /\ Forall no_scan_call rest
  else Forall no_scan_call (effects_of lower inp s).
Proof.
  unfold effects_of. rewrite run_eq, main_cases.
  pose proof (after_callback_account inp s) as Ha.
  pose proof (after_callback_analysis inp s) as Hb.
  assert (logged_in (after_callback inp s) = logged_in s) as ->
    by (unfold account in Ha; congruence).
  assert (scan_requested inp (after_callback inp s) = scan_requested inp s) as Hreq.
  { unfold scan_requested, analysis in *. by injection Hb as _ _ _ _ _ ->. }
  destruct (logged_in s); cbn [andb].
  - destruct (menu inp) eqn:Hmenu; cbn [andb].
    + destruct (home_page_scans (after_callback inp s) []) as (new & -> & H).
      by rewrite Hreq in H.
    + by destruct (adds_history_page lower inp no_scan_call ltac:(done)
                     (after_callback inp s) []) as (new & -> & H).
    + constructor.
  - assert (adds no_scan_call (login inp >> register inp)) as H.
    { apply adds_bind; [by apply adds_login | intros _; apply adds_register]. }
    by destruct (H (after_callback inp s) []) as (new & -> & Hnew).
Qed.

End ScanFacts.

Section ScanTheorems.
Import Parser Session SessionSpec RunSpec.

(** X14: a run calls the scanner exactly when the session is signed in,
    the Home page is chosen, the title and the code are both not empty,
    and the check button was pressed or no scan has been completed yet
    (so, until a scan has succeeded, without any click); the code handed
    over is the editor's; and the call is the first effect of the run and
    the only call of the scanner in it. *)
Theorem scanner_called_iff (lower : pystr -> pystr) (inp : inputs) (s : session)
    (code : pystr) :
  (In (ScanCalled code) (effects_of lower inp s)
   <-> logged_in s = true /\ menu inp = Home
       /\ (check_clicked inp = true \/ scan_complete s = false)
       /\ in_user_code inp <> [] /\ in_title inp <> []
       /\ code = in_user_code inp)
  /\ (In (ScanCalled code) (effects_of lower inp s) ->
      exists rest, effects_of lower inp s = ScanCalled code :: rest
                   /\ Forall no_scan_call rest).
Proof.
  pose proof (run_scans lower inp s) as H.
  pose proof (scan_requested_spec inp s) as Hreq.
  destruct (logged_in s); cbn [andb] in H.
  - destruct (menu inp) eqn:Hm.
    + destruct (scan_requested inp s).
      * destruct H as (rest & E & Hrest). rewrite E. split.
        -- split.
           ++ intros [[= <-]|Hin]; [tauto|]. by apply (in_new _ _ _ Hrest) in Hin.
           ++ intros (_ & _ & _ & _ & _ & ->). by left.
        -- intros [[= <-]|Hin]; [by exists rest|].
           by apply (in_new _ _ _ Hrest) in Hin.
      * split.
        -- split; [intros Hin; by apply (in_new _ _ _ H) in Hin|].
           intros (_ & _ & H1 & H2 & H3 & _).
           discriminate (proj2 Hreq (conj H1 (conj H2 H3))).
        -- intros Hin. by apply (in_new _ _ _ H) in Hin.
    + split.
      * split; [intros Hin; by apply (in_new _ _ _ H) in Hin | by intros (_ & ? & _)].
      * intros Hin. by apply (in_new _ _ _ H) in Hin.
    + split.
      * split; [intros Hin; by apply (in_new _ _ _ H) in Hin | by intros (_ & ? & _)].
      * intros Hin. by apply (in_new _ _ _ H) in Hin.
  - split.
    + split; [intros Hin; by apply (in_new _ _ _ H) in Hin | by intros [? _]].
    + intros Hin. by apply (in_new _ _ _ H) in Hin.
Qed.

(** X15: when the scanner raises, the run ends there with nothing else
    on the page, and the session has lost the previous report and
    selection: the report is empty, the mapping is empty, [scan_complete]
    is false and [last_user_code] is the new code; [fixed_code] and
    [issue_resolved] are as before. *)
Theorem failed_scan_clears_report (lower : pystr -> pystr) (inp : inputs)
    (s : session) (code : pystr) :
  In (ScanCalled code) (effects_of lower inp s) ->
  scan_vulnerabilities inp code = Raises ->
  ending lower inp s = Halt Exception
  /\ effects_of lower inp s = [ScanCalled code]
  /\ vulnerability_report (state_after lower inp s) = []
  /\ selected_issues (state_after lower inp s) = ∅
  /\ scan_complete (state_after lower inp s) = false
  /\ last_user_code (state_after lower inp s) = code
  /\ fixed_code (state_after lower inp s) = fixed_code s
  /\ issue_resolved (state_after lower inp s) = issue_resolved s.
Proof.
  intros Hin Hraise.
  pose proof (run_scans lower inp s) as H.
  destruct (logged_in s) eqn:Hl; cbn [andb] in H;
    [|by apply (in_new _ _ _ H) in Hin].
  destruct (menu inp) eqn:Hm; try (by apply (in_new _ _ _ H) in Hin).
  destruct (scan_requested inp s) eqn:Hreq; [|by apply (in_new _ _ _ H) in Hin].
  destruct H as (rest & E & Hrest). rewrite E in Hin.
  destruct Hin as [[= <-]|Hin]; [|by apply (in_new _ _ _ Hrest) in Hin].
  clear E Hrest rest.
  pose proof (after_callback_account inp s) as Ha.
  pose proof (after_callback_analysis inp s) as Hb.
  unfold ending, effects_of, state_after. rewrite run_eq, main_cases.
  assert (logged_in (after_callback inp s) = true) as ->
    by (unfold account in Ha; congruence).
  rewrite Hm, home_page_cases.
  assert (scan_requested inp (after_callback inp s) = true) as ->.
  { unfold scan_requested, analysis in *. by injection Hb as _ _ _ _ _ ->. }
  rewrite Hraise. cbn [fst snd]. unfold analysis in Hb.
  destruct (after_callback inp s), s; simplify_eq/=. done.
Qed.

Lemma failed_scan_clears_report_witness :
  In (ScanCalled (lit "assert x")) (effects_of id scan_failing both_ticked)
  /\ scan_vulnerabilities scan_failing (lit "assert x") = Raises
  /\ ending id scan_failing both_ticked = Halt Exception
  /\ vulnerability_report (state_after id scan_failing both_ticked) = []
  /\ selected_issues (state_after id scan_failing both_ticked) = ∅.
Proof.
  assert (In (ScanCalled (lit "assert x")) (effects_of id scan_failing both_ticked))
    as Hin by (vm_compute; by left).
  split; [exact Hin|]. split; [reflexivity|].
  destruct (failed_scan_clears_report id scan_failing both_ticked (lit "assert x")
              Hin eq_refl) as (H1 & _ & H2 & H3 & _).
  exact (conj H1 (conj H2 H3)).
Defined.

End ScanTheorems.

(** ** The home page, from the outside *)

Section HomeShape.
Import Parser Session SessionSpec RunSpec HomeSpec.

Variable lower : pystr -> pystr.
Variable inp : inputs.

Lemma at_resolve_now (s : session) (m : gmap string bool) :
  scan_requested inp s = false -> at_resolve inp s (set_selected_issues m s).
Proof. intros Hreq. unfold at_resolve. rewrite Hreq. by destruct s. Qed.

Lemma at_resolve_scanned (s : session) (m : gmap string bool) (result : pystr) :
  scan_requested inp s = true ->
  at_resolve inp s (set_selected_issues m (scan_done inp result s)).
Proof. intros Hreq. unfold at_resolve. rewrite Hreq. by destruct s. Qed.

(** The home page up to the resolve button. *)
Lemma home_page_shape (s : session) (l : list effect) :
  exists pre, Forall (before_resolve inp s) pre
    /\ (scan_requested inp s = true -> In (ScanCalled (in_user_code inp)) pre)
    /\ ((exists r, home_page inp s l = (Halt Exception, r, l ++ pre)
                   /\ scan_halted inp s r)
        \/ (exists s1, home_page inp s l = tail_of_home inp s1 (l ++ pre)
                       /\ at_resolve inp s s1)).
Proof.
  rewrite home_page_cases. destruct (scan_requested inp s) eqn:Hreq.
  - destruct (scan_vulnerabilities inp (in_user_code inp)) as [result|] eqn:Hscan.
    + unfold bind. rewrite save_cases.
      change (user_id (scan_done inp result s)) with (user_id s).
      change (last_user_code (scan_done inp result s)) with (in_user_code inp).
      destruct (truthy_id (user_id s)) as [uid|] eqn:Hu.
      * destruct (save_code inp uid (in_title inp) (in_user_code inp) None) as [[]|].
        -- destruct (after_scan_cases inp (before_resolve inp s)
                       (scan_done inp result s)
                       ((l ++ [ScanCalled (in_user_code inp)])
                          ++ [SaveCodeCalled uid (in_title inp)
                                (in_user_code inp) None])
                       ltac:(done) ltac:(done)) as (m & newd & E & Hd).
           exists ([ScanCalled (in_user_code inp);
                    SaveCodeCalled uid (in_title inp) (in_user_code inp) None]
                     ++ newd).
           split; [apply Forall_app; split; [by repeat constructor | done]|].
           split; [intros _; by left|].
           right. eexists. split; [|by apply at_resolve_scanned].
           rewrite E. f_equal. by rewrite <- !app_assoc.
        -- exists [ScanCalled (in_user_code inp);
                   SaveCodeCalled uid (in_title inp) (in_user_code inp) None].
           split; [by repeat constructor|]. split; [intros _; by left|].
           left. eexists. split; [by rewrite <- app_assoc|].
           unfold scan_halted. destruct s. repeat split; try done. by right.
      * destruct (after_scan_cases inp (before_resolve inp s)
                    (scan_done inp result s) (l ++ [ScanCalled (in_user_code inp)])
                    ltac:(done) ltac:(done)) as (m & newd & E & Hd).
        exists ([ScanCalled (in_user_code inp)] ++ newd).
        split; [apply Forall_app; split; [by repeat constructor | done]|].
        split; [intros _; by left|].
        right. eexists. split; [|by apply at_resolve_scanned].
        rewrite E. f_equal. by rewrite <- !app_assoc.
    + exists [ScanCalled (in_user_code inp)]. split; [by repeat constructor|].
      split; [intros _; by left|].
      left. eexists. split; [done|].
      unfold scan_halted. destruct s. repeat split; try done. by left.
  - destruct (after_scan_cases inp (before_resolve inp s) s l
                ltac:(done) ltac:(done)) as (m & newd & E & Hd).
    exists newd. split; [done|]. split; [done|].
    right. eexists. split; [exact E|]. by apply at_resolve_now.
Qed.

(** A run is a run of the home page, or shows a form or the history. *)
Lemma run_shape (s : session) :
  Forall form_or_history (effects_of lower inp s)
  \/ (logged_in s = true /\ menu inp = Home
      /\ run lower inp s = home_page inp (after_callback inp s) []).
Proof.
  unfold effects_of. rewrite run_eq, main_cases.
  pose proof (after_callback_account inp s) as Ha.
  assert (logged_in (after_callback inp s) = logged_in s) as ->
    by (unfold account in Ha; congruence).
  destruct (logged_in s).
  - destruct (menu inp).
    + by right.
    + left. by destruct (adds_history_page lower inp form_or_history ltac:(done)
                          (after_callback inp s) []) as (new & -> & H).
    + left. constructor.
  - left. assert (adds form_or_history (login inp >> register inp)) as H.
    { apply adds_bind; [by apply adds_login | intros _; apply adds_register]. }
    by destruct (H (after_callback inp s) []) as (new & -> & Hnew).
Qed.

End HomeShape.

Section HomeTail.
Import Parser Session SessionSpec RunSpec HomeSpec.

Variable inp : inputs.

Lemma fixed_block_quiet (s : session) (l pre : list effect) :
  Forall (quiet_tail s) pre ->
  exists r new, fixed_block s (l ++ pre) = (r, s, l ++ new)
    /\ Forall (quiet_tail s) new.
Proof.
  intros Hpre. rewrite fixed_block_cases. destruct (issue_resolved s) eqn:Hres.
  - eexists _, (pre ++ [_]). split; [by rewrite app_assoc|].
    apply Forall_app. split; [done|]. by repeat constructor.
  - by eexists _, pre.
Qed.

(** The end of the home page: nothing is resolved, or the rewrite
    raises, or it answers. *)
Lemma tail_of_home_outcome (s : session) (l : list effect) :
  exists r s' new, tail_of_home inp s l = (r, s', l ++ new)
    /\ tail_outcome inp s r s' new.
Proof.
  unfold tail_outcome. rewrite tail_of_home_cases.
  destruct (show_resolve_button s && issues_selected s).
  - destruct (resolve_clicked inp).
    + destruct (selected_issues_text s) as [text|] eqn:Htext.
      * destruct (rewrite_code_with_openai inp (last_user_code s) text)
          as [fixed|] eqn:Hrw.
        -- rewrite save_fixed_cases.
           change (user_id (set_issue_resolved true (set_fixed_code fixed s)))
             with (user_id s).
           change (last_user_code (set_issue_resolved true (set_fixed_code fixed s)))
             with (last_user_code s).
           destruct (truthy_id (user_id s)) as [uid|] eqn:Hu.
           ++ destruct (save_code inp uid (in_title inp) (last_user_code s)
                          (Some fixed)) as [[]|].
              ** exists (Next tt), (set_issue_resolved true (set_fixed_code fixed s)),
                   (resolved_effects inp s text fixed (Next tt)).
                 split; [|right; right; by exists text, fixed].
                 unfold resolved_effects. rewrite Hu, fixed_block_cases. simpl.
                 by repeat rewrite <- app_assoc.
              ** exists (Halt Exception),
                   (set_issue_resolved true (set_fixed_code fixed s)),
                   (resolved_effects inp s text fixed (Halt Exception)).
                 split; [|right; right; by exists text, fixed].
                 unfold resolved_effects. rewrite Hu. simpl.
                 by repeat rewrite <- app_assoc.
           ++ exists (Next tt), (set_issue_resolved true (set_fixed_code fixed s)),
                (resolved_effects inp s text fixed (Next tt)).
              split; [|right; right; by exists text, fixed].
              unfold resolved_effects. rewrite Hu, fixed_block_cases. simpl.
              by repeat rewrite <- app_assoc.
        -- exists (Halt Exception), s,
             [ResolveButtonShown; RewriteCalled (last_user_code s) text].
           split; [by rewrite <- app_assoc | right; left; by exists text].
      * eexists _, _, [ResolveButtonShown]. split; [done|]. left.
        split; [done|]. by repeat constructor.
    + destruct (fixed_block_quiet s l [ResolveButtonShown]) as (r & new & E & H);
        [by repeat constructor|].
      exists r, s, new. split; [done | by left].
  - destruct (fixed_block_quiet s l []) as (r & new & E & H); [constructor|].
    rewrite app_nil_r in E. exists r, s, new. split; [done | by left].
Qed.

End HomeTail.

Section RunOutcome.
Import Parser Session SessionSpec RunSpec HomeSpec.

Variable lower : pystr -> pystr.
Variable inp : inputs.

(** The callback changes nothing of what the home page starts from,
    the two flags apart. *)
Lemma scan_requested_callback (s : session) :
  scan_requested inp (after_callback inp s) = scan_requested inp s.
Proof.
  pose proof (after_callback_analysis inp s) as Hb.
  unfold scan_requested, analysis in *. by injection Hb as _ _ _ _ _ ->.
Qed.

Lemma before_resolve_callback (s : session) (e : effect) :
  before_resolve inp (after_callback inp s) e -> before_resolve inp s e.
Proof.
  pose proof (after_callback_account inp s) as Ha.
  unfold before_resolve. rewrite scan_requested_callback.
  assert (user_id (after_callback inp s) = user_id s) as ->
    by (unfold account in Ha; congruence).
  done.
Qed.

Lemma at_resolve_callback (s s1 : session) :
  at_resolve inp (after_callback inp s) s1 -> at_resolve inp s s1.
Proof.
  pose proof (after_callback_account inp s) as Ha.
  pose proof (after_callback_analysis inp s) as Hb.
  unfold at_resolve. rewrite scan_requested_callback, Ha.
  unfold analysis in Hb. injection Hb as -> _ -> -> -> _. done.
Qed.

Lemma scan_halted_callback (s r : session) :
  scan_halted inp (after_callback inp s) r -> scan_halted inp s r.
Proof.
  pose proof (after_callback_account inp s) as Ha.
  pose proof (after_callback_analysis inp s) as Hb.
  unfold scan_halted. rewrite scan_requested_callback, Ha.
  unfold analysis in Hb. injection Hb as _ _ _ -> _ _. done.
Qed.

(** A run, from the outside: a form or the history; or the home page,
    which is ended by the scan or comes to the resolve button. *)
Lemma run_outcome (s : session) :
  Forall form_or_history (effects_of lower inp s)
  \/ (logged_in s = true /\ menu inp = Home
      /\ exists pre new,
           effects_of lower inp s = pre ++ new
           /\ Forall (before_resolve inp s) pre
           /\ (scan_requested inp s = true ->
               In (ScanCalled (in_user_code inp)) pre)
           /\ ((new = [] /\ ending lower inp s = Halt Exception
                /\ scan_halted inp s (state_after lower inp s))
               \/ exists s1, at_resolve inp s s1
                    /\ tail_outcome inp s1 (ending lower inp s)
                         (state_after lower inp s) new)).
Proof.
  destruct (run_shape lower inp s) as [H|(Hin & Hmenu & E)]; [by left|].
  right. split; [done|]. split; [done|].
  unfold effects_of, ending, state_after. rewrite E.
  destruct (home_page_shape inp (after_callback inp s) [])
    as (pre & Hpre & Hscan & [(r & E1 & Hr) | (s1 & E1 & Hs1)]).
  - exists pre, []. rewrite E1, app_nil_r. cbn [fst snd]. split; [done|].
    split; [eapply Forall_impl; [exact Hpre | apply before_resolve_callback]|].
    split; [by rewrite <- scan_requested_callback|].
    left. split; [done|]. split; [done|]. by apply scan_halted_callback.
  - destruct (tail_of_home_outcome inp s1 ([] ++ pre)) as (r & s' & new & E2 & Hout).
    exists pre, new. rewrite E1, E2. cbn [fst snd]. split; [done|].
    split; [eapply Forall_impl; [exact Hpre | apply before_resolve_callback]|].
    split; [by rewrite <- scan_requested_callback|].
    right. exists s1. split; [by apply at_resolve_callback | done].
Qed.

End RunOutcome.

Section ResolvedEffects.
Import Parser Session SessionSpec RunSpec HomeSpec.

Variable inp : inputs.

Lemma resolved_effects_In (s : session) (text fixed : pystr) (r : step unit)
    (e : effect) :
  In e (resolved_effects inp s text fixed r) ->
  e = ResolveButtonShown
  \/ e = RewriteCalled (last_user_code s) text
  \/ (exists uid, truthy_id (user_id s) = Some uid
        /\ e = SaveCodeCalled uid (in_title inp) (last_user_code s) (Some fixed))
  \/ (e = FixedCodeShown fixed (vulnerability_report s) /\ exists u, r = Next u).
Proof.
  unfold resolved_effects. rewrite !in_app_iff. cbn [In].
  intros [[<-|[<-|[]]] | [Hin|Hin]]; [by left | right; by left | |].
  - right. right. left. destruct (truthy_id (user_id s)) as [uid|]; [|done].
    destruct Hin as [<-|[]]. by exists uid.
  - right. right. right. destruct r as [u|]; [|done].
    destruct Hin as [<-|[]]. split; [done | by exists u].
Qed.

Lemma resolved_effects_rewrite (s : session) (text fixed : pystr) (r : step unit) :
  In (RewriteCalled (last_user_code s) text) (resolved_effects inp s text fixed r).
Proof. right. by left. Qed.

Lemma resolved_effects_save (s : session) (text fixed : pystr) (r : step unit)
    (uid : Z) :
  truthy_id (user_id s) = Some uid ->
  In (SaveCodeCalled uid (in_title inp) (last_user_code s) (Some fixed))
     (resolved_effects inp s text fixed r).
Proof.
  intros Hu. unfold resolved_effects. rewrite Hu, !in_app_iff. right. left. by left.
Qed.

Lemma resolved_effects_fixed (s : session) (text fixed : pystr) :
  In (FixedCodeShown fixed (vulnerability_report s))
     (resolved_effects inp s text fixed (Next tt)).
Proof. unfold resolved_effects. rewrite !in_app_iff. right. right. by left. Qed.

Lemma truthy_id_Some (u : option Z) (uid : Z) :
  truthy_id u = Some uid <-> u = Some uid /\ uid <> 0%Z.
Proof.
  unfold truthy_id. destruct u as [z|]; [|by split; [|intros []]].
  destruct (Z.eqb_spec z 0) as [->|Hne]; split; try done.
  - by intros [[= <-] ?].
  - by intros [= <-].
  - by intros [[= <-] _].
Qed.

End ResolvedEffects.

Section ResolveTheorems.
Import Parser Session SessionSpec RunSpec HomeSpec.

(** X19: when a run calls the rewrite collaborator and it answers,
    the session ends with [fixed_code] set to the answer and
    [issue_resolved] true, also when the save that follows raises; when a
    user id is known the save of the code with the answer as output has
    been asked for; and if the run goes to its end the answer is shown
    with the report. *)
Theorem successful_rewrite_is_stored (lower : pystr -> pystr) (inp : inputs)
    (s : session) (code instr fixed : pystr) :
  In (RewriteCalled code instr) (effects_of lower inp s) ->
  rewrite_code_with_openai inp code instr = Returns fixed ->
  fixed_code (state_after lower inp s) = fixed
  /\ issue_resolved (state_after lower inp s) = true
  /\ (forall uid, truthy_id (user_id s) = Some uid ->
        In (SaveCodeCalled uid (in_title inp) code (Some fixed))
           (effects_of lower inp s))
  /\ (ending lower inp s = Next tt ->
      In (FixedCodeShown fixed (vulnerability_report (state_after lower inp s)))
         (effects_of lower inp s)).
Proof.
  intros Hin Hrw.
  destruct (run_outcome lower inp s)
    as [H | (_ & _ & pre & new & E & Hpre & _ & Hout)];
    [by apply (in_new _ _ _ H) in Hin|].
  rewrite E in *. apply in_app_iff in Hin as [Hin|Hin];
    [by apply (in_new _ _ _ Hpre) in Hin|].
  destruct Hout as [(-> & _) | (s1 & (Hacc & _) & Hout)]; [done|].
  destruct Hout as [(_ & Hq) | [(text & _ & _ & -> & Hraise)
                               | (text & fixed' & -> & _ & Hret & ->)]].
  - by apply (in_new _ _ _ Hq) in Hin.
  - destruct Hin as [[=]|[[= <- <-]|[]]]. congruence.
  - apply resolved_effects_In in Hin
      as [[=] | [[= -> ->] | [(uid & _ & [=]) | [[=] _]]]].
    assert (fixed' = fixed) as -> by congruence.
    split; [done|]. split; [done|]. split.
    + intros uid Hu. apply in_app_iff. right. apply resolved_effects_save.
      unfold account in Hacc. congruence.
    + intros ->. apply in_app_iff. right.
      exact (resolved_effects_fixed inp s1 text fixed).
Qed.

(** X18: in a run that calls the scanner and does not call the rewrite
    collaborator, no fixed code is shown, and unless the scanner raised
    [issue_resolved] is false at the end: a new scan takes the fixed code
    of the scan before it off the page. *)
Theorem new_scan_hides_old_fix (lower : pystr -> pystr) (inp : inputs)
    (s : session) (code : pystr) :
  In (ScanCalled code) (effects_of lower inp s) ->
  (forall c i, ~ In (RewriteCalled c i) (effects_of lower inp s)) ->
  (forall fixed report, ~ In (FixedCodeShown fixed report) (effects_of lower inp s))
  /\ (scan_vulnerabilities inp code <> Raises ->
      issue_resolved (state_after lower inp s) = false).
Proof.
  intros Hin Hno.
  destruct (run_outcome lower inp s)
    as [H | (_ & _ & pre & new & E & Hpre & _ & Hout)];
    [by apply (in_new _ _ _ H) in Hin|].
  rewrite E in *.
  assert (code = in_user_code inp /\ scan_requested inp s = true) as [-> Hreq].
  { apply in_app_iff in Hin as [Hin|Hin]; [by apply (in_new _ _ _ Hpre) in Hin|].
    destruct Hout as [(-> & _) | (s1 & _ & Hout)]; [done|].
    destruct Hout as [(_ & Hq) | [(text & _ & _ & -> & _)
                                 | (text & fixed' & _ & _ & _ & ->)]].
    - by apply (in_new _ _ _ Hq) in Hin.
    - by destruct Hin as [[=]|[[=]|[]]].
    - by apply resolved_effects_In in Hin
        as [[=] | [[=] | [(uid & _ & [=]) | [[=] _]]]]. }
  destruct Hout as [(-> & _ & Hhalt) | (s1 & (_ & _ & Hs1) & Hout)].
  - split.
    + intros fixed report [Hf|[]]%in_app_iff. by apply (in_new _ _ _ Hpre) in Hf.
    + intros Hne. by destruct Hhalt as (_ & _ & _ & _ & [?|?]).
  - rewrite Hreq in Hs1. destruct Hs1 as [_ Hres].
    destruct Hout as [(-> & Hq) | [(text & _ & _ & -> & _)
                                  | (text & fixed' & _ & _ & _ & ->)]].
    + split; [|done].
      intros fixed report [Hf|Hf]%in_app_iff;
        [by apply (in_new _ _ _ Hpre) in Hf|].
      apply (in_new _ _ _ Hq) in Hf. destruct Hf as (_ & _ & Hf). congruence.
    + exfalso. apply (Hno (last_user_code s1) text).
      apply in_app_iff. right. right. by left.
    + exfalso. apply (Hno (last_user_code s1) text).
      apply in_app_iff. right. apply resolved_effects_rewrite.
Qed.

(** X16: whenever a run asks the persistence layer to save a
    submission, the user id is the session's and is not zero, the title
    is the one in the title field of this run, and the input code is
    [last_user_code]; a save without output comes only after a scan of
    that code in the same run, and a save with an output only after a
    rewrite of that code that answered this output, which is then the
    session's [fixed_code], with [issue_resolved] set. *)
Theorem saved_rows_match_session (lower : pystr -> pystr) (inp : inputs)
    (s : session) (uid : Z) (t code : pystr) (output : option pystr) :
  In (SaveCodeCalled uid t code output) (effects_of lower inp s) ->
  user_id (state_after lower inp s) = Some uid /\ uid <> 0%Z
  /\ t = in_title inp
  /\ code = last_user_code (state_after lower inp s)
  /\ match output with
     | None => In (ScanCalled code) (effects_of lower inp s)
     | Some fixed =>
         fixed = fixed_code (state_after lower inp s)
         /\ issue_resolved (state_after lower inp s) = true
         /\ exists instr,
              In (RewriteCalled code instr) (effects_of lower inp s)
              /\ rewrite_code_with_openai inp code instr = Returns fixed
     end.
Proof.
  intros Hin.
  destruct (run_outcome lower inp s)
    as [H | (_ & _ & pre & new & E & Hpre & Hscan & Hout)];
    [by apply (in_new _ _ _ H) in Hin|].
  rewrite E in *. apply in_app_iff in Hin as [Hin|Hin].
  - (* the save after the scan *)
    apply (in_new _ _ _ Hpre) in Hin. destruct output as [fixed|]; [done|].
    destruct Hin as (Hu & -> & -> & Hreq). apply truthy_id_Some in Hu as [Hu Hne].
    assert (user_id (state_after lower inp s) = Some uid
            /\ in_user_code inp = last_user_code (state_after lower inp s))
      as [Hid Hcode].
    { destruct Hout as [(_ & _ & _ & Hacc & _ & Hluc & _) | (s1 & (Hacc & _ & Hs1) & Hout)].
      - unfold account in Hacc. split; congruence.
      - rewrite Hreq in Hs1. destruct Hs1 as [Hluc _].
        destruct Hout as [(-> & _) | [(text & -> & _)
                                     | (text & fixed' & -> & _)]];
          unfold account in Hacc; split; try congruence;
          destruct s1; simplify_eq/=; done. }
    repeat split; try done. apply in_app_iff. left. by apply Hscan.
  - (* the save after the rewrite *)
    destruct Hout as [(-> & _) | (s1 & (Hacc & _) & Hout)]; [done|].
    destruct Hout as [(_ & Hq) | [(text & _ & _ & -> & _)
                                 | (text & fixed' & -> & _ & Hret & ->)]].
    + by apply (in_new _ _ _ Hq) in Hin.
    + by destruct Hin as [[=]|[[=]|[]]].
    + apply resolved_effects_In in Hin
        as [[=] | [[=] | [(uid' & Hu & [= -> -> -> ->]) | [[=] _]]]].
      apply truthy_id_Some in Hu as [Hu Hne].
      split; [unfold account in Hacc; by destruct s1|].
      split; [done|]. split; [done|]. split; [by destruct s1|].
      split; [done|]. split; [done|]. exists text. split; [|done].
      apply in_app_iff. right. apply resolved_effects_rewrite.
Qed.

Lemma successful_rewrite_is_stored_witness :
  In (RewriteCalled (lit "assert x") (instructions_of both_ticked))
     (effects_of id click_resolve both_ticked)
  /\ rewrite_code_with_openai click_resolve (lit "assert x")
       (instructions_of both_ticked) = Returns (lit "x = 1")
  /\ fixed_code (state_after id click_resolve both_ticked) = lit "x = 1"
  /\ issue_resolved (state_after id click_resolve both_ticked) = true.
Proof.
  assert (In (RewriteCalled (lit "assert x") (instructions_of both_ticked))
             (effects_of id click_resolve both_ticked)) as Hin.
  { vm_compute. tauto. }
  split; [exact Hin|]. split; [reflexivity|].
  destruct (successful_rewrite_is_stored id click_resolve both_ticked
              (lit "assert x") (instructions_of both_ticked) (lit "x = 1")
              Hin eq_refl) as (H1 & H2 & _).
  exact (conj H1 H2).
Defined.

Lemma new_scan_hides_old_fix_witness :
  In (ScanCalled (lit "assert x")) (effects_of id scan_again resolved)
  /\ (forall c i, ~ In (RewriteCalled c i) (effects_of id scan_again resolved))
  /\ issue_resolved resolved = true
  /\ (forall fixed report,
        ~ In (FixedCodeShown fixed report) (effects_of id scan_again resolved)).
Proof.
  assert (In (ScanCalled (lit "assert x")) (effects_of id scan_again resolved))
    as Hin by (vm_compute; by left).
  assert (forall c i, ~ In (RewriteCalled c i) (effects_of id scan_again resolved))
    as Hno.
  { intros c i H. vm_compute in H. intuition discriminate. }
  split; [exact Hin|]. split; [exact Hno|]. split; [by vm_compute|].
  exact (proj1 (new_scan_hides_old_fix id scan_again resolved (lit "assert x")
                  Hin Hno)).
Defined.

Lemma saved_rows_match_session_witness :
  In (SaveCodeCalled 7 (lit "demo") (lit "assert x") (Some (lit "x = 1")))
     (effects_of id click_resolve both_ticked)
  /\ user_id (state_after id click_resolve both_ticked) = Some 7%Z
  /\ lit "assert x" = last_user_code (state_after id click_resolve both_ticked).
Proof.
  assert (In (SaveCodeCalled 7 (lit "demo") (lit "assert x") (Some (lit "x = 1")))
             (effects_of id click_resolve both_ticked)) as Hin.
  { vm_compute. tauto. }
  split; [exact Hin|].
  destruct (saved_rows_match_session id click_resolve both_ticked 7%Z (lit "demo")
              (lit "assert x") (Some (lit "x = 1")) Hin) as (H1 & _ & _ & H2 & _).
  exact (conj H1 H2).
Defined.

End ResolveTheorems.

(** ** The session state at its start, the history run, the checkboxes *)

Section SessionVarsFacts.
Import SessionVars.

Lemma set_missing_cons (k0 : string) (v0 : value) (vars : list (string * value))
    (st : gmap string value) :
  set_missing ((k0, v0) :: vars) st
  = set_missing vars (match st !! k0 with
                      | Some _ => st
                      | None => <[k0 := v0]> st
                      end).
Proof. reflexivity. Qed.

Lemma set_missing_lookup (vars : list (string * value))
    (st : gmap string value) (k : string) :
  set_missing vars st !! k
  = match st !! k with
    | Some v => Some v
    | None => (list_to_map vars : gmap string value) !! k
    end.
Proof.
  revert st. induction vars as [|[k0 v0] vars IH]; intros st.
  - simpl. rewrite lookup_empty. by destruct (st !! k).
  - rewrite set_missing_cons, IH, list_to_map_cons. destruct (st !! k0) as [v|] eqn:E0.
    + destruct (st !! k) as [w|] eqn:Ek; [done|].
      rewrite lookup_insert_ne; [done|]. intros ->. congruence.
    + destruct (decide (k0 = k)) as [->|Hne].
      * by rewrite E0, !lookup_insert_eq.
      * by rewrite !lookup_insert_ne.
Qed.

End SessionVarsFacts.

Section SessionVarsTheorems.
Import SessionVars.

(** X21: the loop that sets up the session state gives every key of
    [session_vars] that is missing its value and never overwrites a key
    that is there; keys outside [session_vars] are not touched; afterwards
    each of the ten keys is in the session state; running the loop again
    changes nothing; and from the empty session state it yields the
    session the runs start from. *)
Theorem initialise_fills_in_missing_keys (session_state : gmap string value) :
  (forall key v, session_state !! key = Some v ->
                 initialise session_state !! key = Some v)
  /\ (forall key, session_state !! key = None ->
        initialise session_state !! key
        = (list_to_map session_vars : gmap string value) !! key)
  /\ (forall key v, In (key, v) session_vars ->
        is_Some (initialise session_state !! key))
  /\ initialise (initialise session_state) = initialise session_state
  /\ initialise ∅ = as_session_state Session.initial_session.
Proof.
  unfold initialise. split; [|split; [|split; [|split]]].
  - intros key v E. by rewrite set_missing_lookup, E.
  - intros key E. by rewrite set_missing_lookup, E.
  - intros key v Hin. rewrite set_missing_lookup.
    destruct (session_state !! key); [done|].
    destruct ((list_to_map session_vars : gmap string value) !! key) eqn:E; [done|].
    exfalso. apply not_elem_of_list_to_map_2 in E. apply E.
    apply list_elem_of_fmap. exists (key, v). split; [done|].
    by apply list_elem_of_In.
  - apply map_eq. intros key. rewrite set_missing_lookup.
    destruct (set_missing session_vars session_state !! key) eqn:E; [done|].
    rewrite set_missing_lookup in E. by destruct (session_state !! key).
  - apply map_eq. intros key. by rewrite set_missing_lookup, lookup_empty.
Qed.

End SessionVarsTheorems.

Section HistoryRun.
Import Parser Session SessionSpec RunSpec HomeSpec PageSpec.

(** X17: a run of the history page leaves the session as it is (the
    callback's two flags apart); it ends with an error exactly when the
    persistence layer raises or some row it returns has a timestamp on a
    whole second; and what it shows is the view of the rows returned for
    the session's user id, under the filters of this run. *)
Theorem history_page_only_reads (lower : pystr -> pystr) (inp : inputs)
    (s : session) :
  logged_in s = true -> menu inp = RecentCodes ->
  state_after lower inp s = after_callback inp s
  /\ (ending lower inp s = Halt Exception
      <-> get_recent_codes inp (user_id s) = Raises
          \/ exists rows, get_recent_codes inp (user_id s) = Returns rows
                          /\ Exists whole_second rows)
  /\ (forall e, In e (effects_of lower inp s) ->
        exists rows v,
          get_recent_codes inp (user_id s) = Returns rows
          /\ History.show_recent_codes_on_main lower (in_search_query inp)
               (in_start_date inp) (in_end_date inp) (now_date inp)
               (now_date_again inp) rows = Some v
          /\ e = HistoryShown v).
Proof.
  intros Hin Hmenu. unfold state_after, ending, effects_of.
  rewrite run_eq, main_cases.
  pose proof (after_callback_account inp s) as Ha.
  assert (logged_in (after_callback inp s) = true) as ->
    by (unfold account in Ha; congruence).
  rewrite Hmenu. unfold history_page, bind, get.
  assert (user_id (after_callback inp s) = user_id s) as ->
    by (unfold account in Ha; congruence).
  destruct (get_recent_codes inp (user_id s)) as [rows|]; cbn [call ret stop].
  - destruct (History.show_recent_codes_on_main lower (in_search_query inp)
                (in_start_date inp) (in_end_date inp) (now_date inp)
               (now_date_again inp) rows)
      as [v|] eqn:Eshow; cbn [fst snd emit stop].
    + split; [done|]. split.
      * split; [done|]. intros [[=]|(rows' & [= <-] & Hex)].
        apply (show_fails_iff lower (in_search_query inp) (in_start_date inp)
                 (in_end_date inp) (now_date inp) (now_date_again inp)) in Hex. congruence.
      * intros e [<-|[]]. by exists rows, v.
    + split; [done|]. split; [|done].
      split; [|done]. intros _. right. exists rows. split; [done|].
      by apply (show_fails_iff lower (in_search_query inp) (in_start_date inp)
                  (in_end_date inp) (now_date inp) (now_date_again inp)).
  - split; [done|]. split; [|done]. split; [by left | done].
Qed.

Lemma history_page_only_reads_witness :
  logged_in signed_in = true /\ menu browse_history = RecentCodes
  /\ state_after id browse_history signed_in = signed_in
  /\ effects_of id browse_history signed_in
     = [HistoryShown History.NoRecentSubmissions].
Proof.
  split; [reflexivity|]. split; [reflexivity|].
  split; [|reflexivity].
  exact (proj1 (history_page_only_reads id browse_history signed_in
                  eq_refl eq_refl)).
Defined.

End HistoryRun.

Section CheckboxTheorems.
Import Parser Session SessionSpec RunSpec HomeSpec.

Lemma loop_effects_checkbox_of (inp : inputs) (issues : list pystr) (i : nat)
    (m : gmap string bool) :
  omap checkbox_of (loop_effects inp i issues m)
  = imap (fun j issue => (i + j, issue)) issues.
Proof.
  revert i m. induction issues as [|issue rest IH]; intros i m; [done|].
  cbn [loop_effects imap]. rewrite Nat.add_0_r.
  change (omap checkbox_of (CheckboxShown i issue ?v :: ?l))
    with ((i, issue) :: omap checkbox_of l).
  rewrite IH. f_equal. apply imap_ext. intros j x _. simpl. f_equal. lia.
Qed.

(** The loop leaves alone the keys that are not the key of one of its
    issues. *)
Lemma loop_map_outside (inp : inputs) (issues : list pystr) (i : nat)
    (m : gmap string bool) (k : string) :
  (forall j, j < length issues -> k <> checkbox_key (i + j)) ->
  loop_map inp i issues m !! k = m !! k.
Proof.
  revert i m. induction issues as [|issue rest IH]; intros i m Hk; [done|].
  cbn [loop_map]. rewrite IH.
  - rewrite lookup_insert_ne; [done|]. intros E.
    apply (Hk 0); [simpl; lia | by rewrite Nat.add_0_r].
  - intros j Hj. replace (S i + j) with (i + S j) by lia. apply Hk. simpl. lia.
Qed.

(** X20: the report's render shows one checkbox per parsed issue, in
    the order of the parse, with the index and the text of the issue;
    afterwards the entry of each issue holds what its checkbox returned,
    called with the entry's former value or false; and the entries of
    other keys are as before. *)
Theorem one_checkbox_per_issue (inp : inputs) (s : session) :
  omap checkbox_of (display_block inp s []).2
  = imap (fun i issue => (i, issue))
      (parse_vulnerabilities (vulnerability_report s))
  /\ (forall i issue,
        parse_vulnerabilities (vulnerability_report s) !! i = Some issue ->
        selected_issues (display_block inp s []).1.2 !! checkbox_key i
        = Some (checkbox inp i issue
                  (default false (selected_issues s !! checkbox_key i))))
  /\ (forall key,
        (forall i, i < length (parse_vulnerabilities (vulnerability_report s)) ->
                   key <> checkbox_key i) ->
        selected_issues (display_block inp s []).1.2 !! key
        = selected_issues s !! key).
Proof.
  rewrite display_block_run.
  destruct (vulnerability_report s) as [|c report] eqn:E; cbn [nonempty fst snd].
  - rewrite parse_empty. by repeat split.
  - cbn [app omap checkbox_of selected_issues set_selected_issues].
    split; [apply (loop_effects_checkbox_of inp _ 0)|]. split.
    + intros i issue Hi. by apply loop_map_lookup0.
    + intros key Hkey. by apply loop_map_outside.
Qed.

End CheckboxTheorems.

(** ** The resolve button *)

Section Button.
Import Parser Session SessionSpec RunSpec HomeSpec ButtonSpec.

Variable inp : inputs.

Lemma tail_of_home_button (s : session) (l : list effect) :
  exists new, (tail_of_home inp s l).2 = l ++ new
    /\ (In ResolveButtonShown new
        <-> show_resolve_button s && issues_selected s = true).
Proof.
  destruct (tail_of_home_outcome inp s l) as (r & s' & new & E & Hout).
  exists new. rewrite E. split; [done|].
  revert E. rewrite tail_of_home_cases.
  destruct (show_resolve_button s && issues_selected s).
  - intros E. split; [done|]. intros _.
    assert (exists rest, new = ResolveButtonShown :: rest) as [rest ->];
      [|by left].
    destruct Hout as [(_ & Hq) | [(text & _ & _ & -> & _)
                                 | (text & fixed & _ & _ & _ & ->)]];
      [|by eexists..].
    destruct (resolve_clicked inp).
    + destruct (selected_issues_text s) as [text|].
      * destruct (rewrite_code_with_openai inp (last_user_code s) text) as [fixed|].
        -- exfalso.
           destruct (adds_bind (fun _ => True) (save inp (Some fixed))
                       (fun _ => fixed_block)
                       ltac:(by apply adds_save) ltac:(by intros; apply adds_fixed_block)
                       (set_issue_resolved true (set_fixed_code fixed s))
                       ((l ++ [ResolveButtonShown])
                          ++ [RewriteCalled (last_user_code s) text]))
             as (new' & E' & _).
           rewrite E in E'. cbn [snd] in E'.
           repeat rewrite <- app_assoc in E'. apply app_inv_head in E'.
           subst new. apply Forall_cons in Hq as [_ Hq].
           by apply Forall_cons in Hq as [Hq _].
        -- injection E as _ _ E. rewrite <- app_assoc in E.
           apply app_inv_head in E. by eexists.
      * injection E as _ _ E. apply app_inv_head in E. by eexists.
    + rewrite fixed_block_cases in E. destruct (issue_resolved s);
        injection E as _ _ E; repeat rewrite <- app_assoc in E;
        apply app_inv_head in E; by eexists.
  - rewrite fixed_block_cases. intros E. split; [|done]. intros Hin.
    destruct (issue_resolved s); injection E as _ _ E.
    + apply app_inv_head in E. subst new. by destruct Hin as [|[]].
    + rewrite <- (app_nil_r l) in E at 1. apply app_inv_head in E. by subst new.
Qed.

Lemma after_scan_button (s : session) (l : list effect) :
  exists new, (after_scan inp s l).2 = l ++ new
    /\ (In ResolveButtonShown new
        <-> show_resolve_button s && issues_selected s = true).
Proof.
  destruct (after_scan_cases inp outside_resolve s l ltac:(done) ltac:(done))
    as (m & newd & E & Hd).
  destruct (tail_of_home_button (set_selected_issues m s) (l ++ newd))
    as (new & E2 & Hnew).
  exists (newd ++ new). rewrite E, E2. split; [by rewrite app_assoc|].
  rewrite in_app_iff, Hnew. split; [|tauto].
  intros [Hin|H]; [by apply (in_new _ _ _ Hd) in Hin | done].
Qed.

Lemma home_page_button (s : session) (l : list effect) :
  exists new, (home_page inp s l).2 = l ++ new
    /\ (In ResolveButtonShown new
        <-> scan_ends_run inp s = false
            /\ show_resolve_button s && issues_selected s = true).
Proof.
  rewrite home_page_cases. unfold scan_ends_run.
  destruct (scan_requested inp s) eqn:Hreq; cbn [andb].
  - destruct (scan_vulnerabilities inp (in_user_code inp)) as [result|].
    + unfold bind. rewrite save_cases.
      change (user_id (scan_done inp result s)) with (user_id s).
      change (last_user_code (scan_done inp result s)) with (in_user_code inp).
      destruct (truthy_id (user_id s)) as [uid|].
      * destruct (save_code inp uid (in_title inp) (in_user_code inp) None) as [[]|].
        -- destruct (after_scan_button (scan_done inp result s)
                       ((l ++ [ScanCalled (in_user_code inp)])
                          ++ [SaveCodeCalled uid (in_title inp)
                                (in_user_code inp) None]))
             as (new & E & Hnew).
           exists ([ScanCalled (in_user_code inp);
                    SaveCodeCalled uid (in_title inp) (in_user_code inp) None]
                     ++ new).
           split; [by rewrite E, <- !app_assoc|].
           rewrite in_app_iff, Hnew. cbn [In]. split; [|tauto].
           intros [[[=]|[[=]|[]]]|H]. done.
        -- eexists [_; _]. split; [by rewrite <- app_assoc|].
           split; [by intros [[=]|[[=]|[]]] | by intros [? _]].
      * destruct (after_scan_button (scan_done inp result s)
                    (l ++ [ScanCalled (in_user_code inp)])) as (new & E & Hnew).
        exists ([ScanCalled (in_user_code inp)] ++ new).
        split; [by rewrite E, <- !app_assoc|].
        rewrite in_app_iff, Hnew. cbn [In]. split; [|tauto].
        intros [[[=]|[]]|H]. done.
    + eexists [_]. split; [done|].
      split; [by intros [[=]|[]] | by intros [? _]].
  - destruct (after_scan_button s l) as (new & E & Hnew).
    exists new. split; [done|]. rewrite Hnew. tauto.
Qed.

End Button.

Section ButtonTheorems.
Import Parser Session SessionSpec RunSpec HomeSpec ButtonSpec.

Lemma scan_ends_run_callback (inp : inputs) (s : session) :
  scan_ends_run inp (after_callback inp s) = scan_ends_run inp s.
Proof.
  pose proof (after_callback_account inp s) as Ha.
  unfold scan_ends_run. rewrite scan_requested_callback.
  assert (user_id (after_callback inp s) = user_id s) as ->
    by (unfold account in Ha; congruence).
  done.
Qed.

(** X22: the resolve button is on the page of a run exactly when the
    session is signed in, the Home page is chosen, the scan (if there is
    one) does not end the run, and the two stored flags are true: when
    the checkbox callback ran before the run, that is when some entry of
    the selection mapping was true before the run; otherwise it is what
    the flags held, whatever the mapping holds now. *)
Theorem resolve_button_shown_iff (lower : pystr -> pystr) (inp : inputs)
    (s : session) :
  In ResolveButtonShown (effects_of lower inp s)
  <-> logged_in s = true /\ menu inp = Home /\ scan_ends_run inp s = false
      /\ if on_change inp
         then exists key, selected_issues s !! key = Some true
         else show_resolve_button s = true /\ issues_selected s = true.
Proof.
  assert (show_resolve_button (after_callback inp s)
          && issues_selected (after_callback inp s) = true
          <-> if on_change inp
              then exists key, selected_issues s !! key = Some true
              else show_resolve_button s = true /\ issues_selected s = true)
    as Hflags.
  { unfold after_callback. destruct (on_change inp).
    - rewrite <- any_selected_spec. destruct s as [? ? ? ? ? ? m ? ? ? ? ? ?]; cbn.
      by destruct (any_selected m).
    - by rewrite andb_true_iff. }
  unfold effects_of. rewrite run_eq, main_cases.
  pose proof (after_callback_account inp s) as Ha.
  assert (logged_in (after_callback inp s) = logged_in s) as ->
    by (unfold account in Ha; congruence).
  destruct (logged_in s).
  - destruct (menu inp).
    + destruct (home_page_button inp (after_callback inp s) [])
        as (new & -> & Hnew).
      cbn [app]. rewrite Hnew, scan_ends_run_callback, Hflags. tauto.
    + destruct (adds_history_page lower inp outside_resolve ltac:(done)
                  (after_callback inp s) []) as (new & -> & H).
      split; [intros Hb; by apply (in_new _ _ _ H) in Hb | by intros (_ & ? & _)].
    + split; [done | by intros (_ & ? & _)].
  - assert (adds outside_resolve (login inp >> register inp)) as H.
    { apply adds_bind; [by apply adds_login | intros _; apply adds_register]. }
    destruct (H (after_callback inp s) []) as (new & -> & Hnew).
    split; [intros Hb; by apply (in_new _ _ _ Hnew) in Hb | by intros (? & _)].
Qed.

End ButtonTheorems.

(** ** What every reachable session keeps *)

Section Invariant.
Import Parser Session SessionSpec RunSpec HomeSpec InvariantSpec.

Variable inp : inputs.

Lemma scan_invariant_eq (s s' : session) :
  scanned s' = scanned s -> scan_invariant s -> scan_invariant s'.
Proof.
  unfold scan_invariant, entries_of_report, report_needs_scan, scanned.
  by intros [= -> -> ->].
Qed.

Lemma scan_invariant_empty (s : session) :
  selected_issues s = ∅ ->
  (scan_complete s = false -> vulnerability_report s = []) ->
  scan_invariant s.
Proof.
  intros Hm Hr. split.
  - intros key b Hk. by rewrite Hm, lookup_empty in Hk.
  - intros Hc. by split; [apply Hr|].
Qed.

(** The checkboxes add entries of issues of the report only. *)
Lemma display_block_invariant (s : session) (l : list effect) :
  scan_invariant s -> scan_invariant (display_block inp s l).1.2.
Proof.
  intros [He Hn]. rewrite display_block_run.
  destruct (nonempty (vulnerability_report s)) eqn:Hne; [|done].
  cbn [fst snd]. split.
  - intros key b Hk. cbn [selected_issues set_selected_issues vulnerability_report] in *.
    destruct (loop_map_is_Some0 inp _ _ key (mk_is_Some _ _ Hk))
      as [[b' Hb']|(j & Hj & ->)]; [by apply (He key b') | by exists j].
  - intros Hc. destruct (Hn Hc) as [Hr _]. by rewrite Hr in Hne.
Qed.

Lemma after_scan_invariant (s : session) (l : list effect) :
  scan_invariant s -> scan_invariant (after_scan inp s l).1.2.
Proof.
  intros Hs. unfold after_scan, bind.
  pose proof (display_block_invariant s l Hs) as Hd.
  destruct (display_block inp s l) as [[[[]|h] s1] l1]; [|done].
  cbn [fst snd] in Hd. apply (scan_invariant_eq s1); [|done].
  apply (tail_of_home_preserves inp scanned); by intros ? [].
Qed.

Lemma home_page_invariant (s : session) (l : list effect) :
  scan_invariant s -> scan_invariant (home_page inp s l).1.2.
Proof.
  intros Hs. rewrite home_page_cases.
  destruct (scan_requested inp s); [|by apply after_scan_invariant].
  destruct (scan_vulnerabilities inp (in_user_code inp)) as [result|].
  - unfold bind. rewrite save_cases.
    assert (scan_invariant (scan_done inp result s)) as Hdone
      by (by apply scan_invariant_empty).
    destruct (truthy_id (user_id (scan_done inp result s))) as [uid|];
      [|by apply after_scan_invariant].
    destruct (save_code inp uid (in_title inp)
                (last_user_code (scan_done inp result s)) None) as [[]|];
      [by apply after_scan_invariant | done].
  - by apply scan_invariant_empty.
Qed.

End Invariant.

Section InvariantRuns.
Import Parser Session SessionSpec RunSpec HomeSpec InvariantSpec.

Variable lower : pystr -> pystr.

Lemma forms_scanned (inp : inputs) (s : session) (l : list effect) :
  scanned ((login inp >> register inp) s l).1.2 = scanned s.
Proof.
  destruct s. destruct ((login inp >> register inp) _ l) as [[r s'] l'] eqn:E.
  forms_cases E; done.
Qed.

Lemma run_invariant (inp : inputs) (s : session) :
  scan_invariant s -> scan_invariant (state_after lower inp s).
Proof.
  intros Hs. unfold state_after. rewrite run_eq.
  assert (scan_invariant (after_callback inp s)) as H0.
  { apply (scan_invariant_eq s); [|done].
    unfold after_callback. by destruct (on_change inp), s. }
  rewrite main_cases. destruct (logged_in (after_callback inp s)).
  - destruct (menu inp).
    + by apply home_page_invariant.
    + apply (scan_invariant_eq (after_callback inp s)); [|done].
      apply (preserves_history_page lower inp scanned).
    + apply (scan_invariant_eq (after_callback inp s)); [|done].
      by destruct (after_callback inp s).
  - apply (scan_invariant_eq (after_callback inp s)); [|done].
    apply forms_scanned.
Qed.

Lemma reachable_invariant (s : session) :
  reachable lower s -> scan_invariant s.
Proof.
  induction 1 as [|inp s _ IH]; [|by apply run_invariant].
  by apply scan_invariant_empty.
Qed.

End InvariantRuns.

Section InvariantTheorems.
Import Parser Session SessionSpec RunSpec HomeSpec InvariantSpec.

(** X23: in every session the script can reach, every entry of the
    selection mapping is the entry of an issue of the report the session
    holds: its key is [issue_i] for an index [i] below the number of
    issues parsed from the report.  No entry of an earlier report is
    left, so what the callback computes counts issues of the current
    report only. *)
Theorem selection_entries_belong_to_report (lower : pystr -> pystr)
    (s : session) (key : string) (b : bool) :
  reachable lower s -> selected_issues s !! key = Some b ->
  exists i, i < length (parse_vulnerabilities (vulnerability_report s))
            /\ key = checkbox_key i.
Proof.
  intros Hr. destruct (reachable_invariant lower s Hr) as [He _]. apply He.
Qed.

Lemma selection_entries_belong_to_report_witness :
  reachable id both_ticked
  /\ selected_issues both_ticked !! checkbox_key 1 = Some true
  /\ exists i, i < length (parse_vulnerabilities (vulnerability_report both_ticked))
               /\ checkbox_key 1 = checkbox_key i.
Proof.
  assert (reachable id both_ticked) as H by (apply run_all_reachable; constructor).
  assert (selected_issues both_ticked !! checkbox_key 1 = Some true) as Hk
    by (by vm_compute).
  split; [exact H|]. split; [exact Hk|].
  exact (selection_entries_belong_to_report id both_ticked (checkbox_key 1) true H Hk).
Defined.

(** X24: in every session the script can reach, as long as no scan has
    been completed ([scan_complete] is false: none was made, or the last
    one raised) the session holds no report and no entry of the selection
    mapping. *)
Theorem no_report_before_a_completed_scan (lower : pystr -> pystr) (s : session) :
  reachable lower s -> scan_complete s = false ->
  vulnerability_report s = [] /\ selected_issues s = ∅.
Proof.
  intros Hr. destruct (reachable_invariant lower s Hr) as [_ Hn]. apply Hn.
Qed.

Lemma no_report_before_a_completed_scan_witness :
  reachable id (state_after id scan_failing both_ticked)
  /\ scan_complete (state_after id scan_failing both_ticked) = false
  /\ vulnerability_report (state_after id scan_failing both_ticked) = []
  /\ selected_issues (state_after id scan_failing both_ticked) = ∅.
Proof.
  assert (reachable id (state_after id scan_failing both_ticked)) as H.
  { constructor. apply run_all_reachable. constructor. }
  assert (scan_complete (state_after id scan_failing both_ticked) = false) as Hc
    by (by vm_compute).
  split; [exact H|]. split; [exact Hc|].
  exact (no_report_before_a_completed_scan id _ H Hc).
Defined.

End InvariantTheorems.
